(** * Interviewer avatar app: the session controllers and the avatar manager

    A shallow embedding of the three JavaScript sources of the repository:

    - [static/js/interview.js]: the multiple-choice [InterviewController]
      (module [Choice] below, scoring in module [Scoring]);
    - the [AvatarManager] class wrapping the speech SDK (module [Avatar]);
    - the speech-input [InterviewController] (module [Speech]).

    JavaScript runs one macrotask at a time: an SDK callback, a timer or a
    click runs to completion, together with the promise continuations it
    wakes up, before the next one starts.  The controllers are therefore
    embedded as event handlers over an explicit state: every [await] of the
    source becomes a registered continuation, and every environment event
    (SDK callback, timer, click) becomes one step of a transition function. *)

From Stdlib Require Import ZArith Floats Ascii String List Lia Bool.
From stdpp Require Import base option list gmap strings pretty.
Import ListNotations.

Local Open Scope string_scope.
Local Open Scope list_scope.
Local Open Scope Z_scope.

(** ** JavaScript primitives used by the sources *)

Module Js.

(** [s.toUpperCase()] for a string of ASCII characters: letters a-z are
    mapped to A-Z, every other code unit below 128 is left alone.  Outside
    ASCII the method depends on the Unicode tables and can lengthen the
    string; the definition says nothing there, and the statements that say
    what the selection of a question is ask for ASCII answers ([plain]).
    The option tokens of the source are ASCII. *)
Definition toUpperCase_ascii (c : ascii) : ascii :=
  let n := nat_of_ascii c in
  if ((97 <=? n) && (n <=? 122))%nat then ascii_of_nat (n - 32) else c.

Fixpoint toUpperCase (s : string) : string :=
  match s with
  | EmptyString => EmptyString
  | String c r => String (toUpperCase_ascii c) (toUpperCase r)
  end.

(** Every character of the string is ASCII. *)
Definition plain (s : string) : bool :=
  forallb (λ c, (nat_of_ascii c <? 128)%nat) (list_ascii_of_string s).

(** [String(n)] for an integer [n] that a double holds exactly and prints
    without an exponent ([safe_integer]: below 2^53 in absolute value): its
    decimal representation.  From 1e21 on the method switches to exponent
    notation; the definition says nothing there.  The ids of the source are
    1 to 5. *)
Definition String_ (n : Z) : string := pretty n.

Definition safe_integer (n : Z) : bool := Z.abs n <? 2 ^ 53.

(** A JavaScript number that went through [Math.round]: an integer, or [None]
    for NaN and the infinities. *)
Definition Num := option Z.

(** Numbers are IEEE-754 doubles; integers below 2^53 are represented
    exactly. *)
Definition of_Z (z : Z) : float :=
  match z with
  | Z0 => 0%float
  | Zpos p => SF2Prim (S754_finite false p 0)
  | Zneg p => SF2Prim (S754_finite true p 0)
  end.

(** [Math.round(x)]: the integer closest to [x], ties going towards
    +infinity.  The double [x] is [(-1)^s * m * 2^e]; the rounding itself is
    done on that exact value. *)
Definition Math_round (x : float) : Num :=
  match Prim2SF x with
  | S754_zero _ => Some 0
  | S754_finite s m e =>
      let num := if s then Z.neg m else Z.pos m in
      if 0 <=? e then Some (num * 2 ^ e)
      else Some ((2 * num + 2 ^ (- e)) / 2 ^ (- e + 1))
  | S754_infinity _ => None
  | S754_nan => None
  end.

(** [x >= k] where [x] may be NaN: every comparison with NaN is false. *)
Definition ge (x : Num) (k : Z) : bool :=
  match x with
  | Some v => k <=? v
  | None => false
  end.

(** [a || b] where [a] is a property read from an object holding strings:
    [undefined] (no such key) and the empty string are falsy. *)
Definition or_str (a : option string) (b : string) : string :=
  match a with
  | None => b
  | Some v => if String.eqb v "" then b else v
  end.

(** A thrown value; the sources only ever read its [message]. *)
Record Error := { message : string }.

(** How a synchronous piece of code ends. *)
Inductive Completion (A : Type) :=
| Normal (a : A)
| Throw (e : Error).

(** How a promise settles. *)
Inductive Settlement (A : Type) :=
| Fulfilled (a : A)
| Rejected (e : Error).

Arguments Normal {A} a.
Arguments Throw {A} e.
Arguments Fulfilled {A} a.
Arguments Rejected {A} e.

End Js.

(** ** The question list of the multiple-choice variant *)

Record Opt := { oid : string; otext : string }.

Record Question := {
  id : Z;
  text : string;
  options : list Opt;
  correct : string
}.

Definition QUESTIONS : list Question := [
  {| id := 1;
     text := "How do you prioritize tasks when you have multiple deadlines at the same time?";
     options := [
       {| oid := "A"; otext := "Work on the easiest task first to build momentum" |};
       {| oid := "B"; otext := "Prioritize by deadline and impact, tackle the most critical first" |};
       {| oid := "C"; otext := "Ask your manager to decide the priority for you" |};
       {| oid := "D"; otext := "Work on all tasks simultaneously to show multitasking ability" |} ];
     correct := "B" |};
  {| id := 2;
     text := "A team member disagrees with your approach on an important project. How do you handle it?";
     options := [
       {| oid := "A"; otext := "Ignore their feedback and proceed with your original plan" |};
       {| oid := "B"; otext := "Immediately adopt their suggestion without discussion" |};
       {| oid := "C"; otext := "Schedule a discussion to understand their perspective and find common ground" |};
       {| oid := "D"; otext := "Escalate to your manager to make the final call" |} ];
     correct := "C" |};
  {| id := 3;
     text := "You realize mid-project that the initial requirements were unclear and the deliverable may miss the mark. What do you do?";
     options := [
       {| oid := "A"; otext := "Complete the project as planned and hope it meets expectations" |};
       {| oid := "B"; otext := "Immediately communicate the issue to stakeholders and realign on requirements" |};
       {| oid := "C"; otext := "Restart the project from scratch without informing anyone" |};
       {| oid := "D"; otext := "Submit the work and wait for feedback before making changes" |} ];
     correct := "B" |};
  {| id := 4;
     text := "How do you respond when you receive critical feedback about your work from a supervisor?";
     options := [
       {| oid := "A"; otext := "Defend your work and explain why the feedback is wrong" |};
       {| oid := "B"; otext := "Feel discouraged and avoid taking similar tasks in future" |};
       {| oid := "C"; otext := "Listen actively, ask clarifying questions, and create an action plan to improve" |};
       {| oid := "D"; otext := "Agree outwardly but make no changes to your approach" |} ];
     correct := "C" |};
  {| id := 5;
     text := "You are assigned a task that requires a skill you do not currently have. What is your approach?";
     options := [
       {| oid := "A"; otext := "Decline the task as it is outside your current skillset" |};
       {| oid := "B"; otext := "Accept the task, proactively learn the skill, and ask for guidance if needed" |};
       {| oid := "C"; otext := "Complete the task using only what you already know, even if quality suffers" |};
       {| oid := "D"; otext := "Pass the task to a colleague without informing your manager" |} ];
     correct := "B" |} ].

(** ** Scoring ([InterviewController._scoreAnswers]) *)

Module Scoring.

Inductive Grade := Excellent | Good | Average | NeedsImprovement.

(** The text the source uses for each grade. *)
Definition grade_text (g : Grade) : string :=
  match g with
  | Excellent => "Excellent"
  | Good => "Good"
  | Average => "Average"
  | NeedsImprovement => "Needs Improvement"
  end.

(** One element of [results]. *)
Record Row := {
  r_id : Z;
  r_text : string;
  r_options : list Opt;
  selected : string;
  r_correct : string;
  is_correct : bool
}.

Record Report := {
  score : Z;
  total : Z;
  percentage : Js.Num;
  grade : Grade;
  results : list Row
}.

(** The body of the arrow function given to [QUESTIONS.map]: it returns the
    row and bumps the captured counter [score]. *)
Definition score_question (answers : gmap string string) (q : Question)
    (score : Z) : Row * Z :=
  let selected :=
    Js.toUpperCase (Js.or_str (answers !! Js.String_ (id q)) "") in
  let is_correct := String.eqb selected (correct q) in
  ({| r_id := id q; r_text := text q; r_options := options q;
      selected := selected; r_correct := correct q;
      is_correct := is_correct |},
   if is_correct then score + 1 else score).

(** [Array.prototype.map]: left to right, threading the counter. *)
Fixpoint map_questions (answers : gmap string string) (qs : list Question)
    (score : Z) : list Row * Z :=
  match qs with
  | [] => ([], score)
  | q :: rest =>
      let '(row, score1) := score_question answers q score in
      let '(rows, score2) := map_questions answers rest score1 in
      (row :: rows, score2)
  end.

Definition grade_of (percentage : Js.Num) : Grade :=
  if Js.ge percentage 80 then Excellent
  else if Js.ge percentage 60 then Good
  else if Js.ge percentage 40 then Average
  else NeedsImprovement.

Definition scoreAnswers_on (questions : list Question)
    (answers : gmap string string) : Report :=
  let '(results, score) := map_questions answers questions 0 in
  let total := Z.of_nat (length questions) in
  let percentage :=
    Js.Math_round (Js.of_Z score / Js.of_Z total * Js.of_Z 100)%float in
  {| score := score; total := total; percentage := percentage;
     grade := grade_of percentage; results := results |}.

(** The method itself reads the global [QUESTIONS]. *)
Definition _scoreAnswers (answers : gmap string string) : Report :=
  scoreAnswers_on QUESTIONS answers.

(** What the claim calls the selection for a question: the recorded answer,
    the empty string when there is none, in upper case. *)
Definition selection (answers : gmap string string) (q : Question) : string :=
  Js.toUpperCase (default "" (answers !! Js.String_ (id q))).

Definition matches (answers : gmap string string) (q : Question) : bool :=
  String.eqb (selection answers q) (correct q).

(** Round-half-up of the rational [num / den] for [den > 0]. *)
Definition is_round_half_up (p num den : Z) : Prop :=
  (2 * p - 1) * den <= 2 * num < (2 * p + 1) * den.

End Scoring.


(** ** Observable effects

    Everything the code does to the outside world (DOM updates, SDK calls,
    console output) and the bookkeeping events the properties talk about
    (a method being entered, a promise settling), in program order. *)

Inductive Method :=
| M_init
| M_startInterview
| M_askQuestion (idx : nat)
| M_handleAnswer (questionId : Z) (optionId : string)
| M_finishInterview
| M_listenForAnswer
| M_speak
| M_disconnect.

Inductive Effect :=
(* AvatarManager: lifecycle callbacks being invoked *)
| OnConnected
| OnDisconnected
| OnSpeakStart
| OnSpeakEnd
(* AvatarManager: calls into the speech SDK and WebRTC *)
| NewPeerConnection (urls : list (option string)) (username credential : option string)
| NewSynthesizer
| StartAvatarAsync
| SpeakTextAsync (req : nat) (text : string)
| SynthesizerClose
| PeerClose
(* the promise returned by [AvatarManager.speak] for request [req] settles *)
| SpeakSettled (req : nat) (how : Js.Settlement unit)
(* speech recognition (speech-input variant) *)
| NewRecognizer (lid : nat)
| RecognizeOnceAsync (lid : nat)
| RecognizerClose (lid : nat)
| ListenResolved (lid : nat) (answer : string)
(* timers and network *)
| SetTimeout (ms : Z)
| ClearTimeout
| Fetch (url : string)
(* console *)
| ConsoleLog (msg : string)
| ConsoleWarn (msg : string)
| ConsoleError (msg : string)
(* controller methods being entered *)
| Enter (m : Method)
(* DOM updates *)
| SetLoadingText (t : string)
| HideLoading
| ShowRetryButton
| ShowReconnectOverlay
| UnmuteVideo
| SetDot (cls : string)
| SetStatusLabel (t : string)
| SetHint (visible : bool)
| SetProgress (current total : nat)
| SetBadge (t : string)
| SetQuestionText (t : string)
| RenderOptions (q : Question)
| ClearOptions
| SetOptionsEnabled (enabled : bool)
| HighlightOption (optionId : string)
| ShowResults (data : Scoring.Report)
| ShowMic (visible : bool)
| SetMicStatus (t : string)
| ShowTranscript (t : string)
| ShowFinalPage.

(** ** Programs: state, exceptions and an effect log

    A piece of JavaScript that runs without suspending is a function from the
    state to its completion, the new state and the effects it performed. *)

Definition Prog (S A : Type) : Type := S → Js.Completion A * S * list Effect.

Section ProgOps.
Context {S : Type}.

#[export] Instance prog_ret : MRet (Prog S) :=
  λ A a s, (Js.Normal a, s, []).

#[export] Instance prog_bind : MBind (Prog S) :=
  λ A B f m s,
    match m s with
    | (Js.Normal a, s1, l1) =>
        let '(r, s2, l2) := f a s1 in (r, s2, l1 ++ l2)
    | (Js.Throw e, s1, l1) => (Js.Throw e, s1, l1)
    end.

Definition get : Prog S S := λ s, (Js.Normal s, s, []).

Definition modify (f : S → S) : Prog S unit := λ s, (Js.Normal tt, f s, []).

Definition emit (e : Effect) : Prog S unit := λ s, (Js.Normal tt, s, [e]).

Definition throw {A} (e : Js.Error) : Prog S A := λ s, (Js.Throw e, s, []).

(** An external call whose outcome the environment decides. *)
Definition extern {A} (outcome : Js.Completion A) : Prog S A :=
  λ s, (outcome, s, []).

(** [try { body } catch (e) { handler e }] *)
Definition try_catch {A} (body : Prog S A) (handler : Js.Error → Prog S A)
    : Prog S A :=
  λ s,
    match body s with
    | (Js.Throw e, s1, l1) =>
        let '(r, s2, l2) := handler e s1 in (r, s2, l1 ++ l2)
    | done => done
    end.

(** [await p] for a promise that has settled: its value, or a throw. *)
Definition await {A} (p : Js.Settlement A) : Prog S A :=
  match p with
  | Js.Fulfilled a => mret a
  | Js.Rejected e => throw e
  end.

Definition when (b : bool) (p : Prog S unit) : Prog S unit :=
  if b then p else mret tt.
End ProgOps.

(** Run a program of a component on the component's part of a larger
    state. *)
Definition zoom {S T A} (proj : T → S) (inj : S → T → T) (p : Prog S A)
    : Prog T A :=
  λ t, let '(r, s, l) := p (proj t) in (r, inj s t, l).

(** ** The two token requests of [init] *)

Module Net.

(** How [response.text()] settles. *)
Inductive Body :=
| BodyText (t : string)
| BodyFails (e : Js.Error).

(** How [fetch(url)] settles: it rejects (network error), or it resolves with
    a response. *)
Inductive FetchOutcome :=
| FetchRejects (e : Js.Error)
| Response (status : Z) (statusText : string) (body : Body).

(** [response.ok]: the status is in the range 200-299. *)
Definition ok (status : Z) : bool := (200 <=? status) && (status <=? 299).

(** [Promise.all([a, b])]: both values, or the rejection that comes first;
    [b_first] tells whether [b] settles before [a]. *)
Definition all2 {A B} (a : Js.Settlement A) (b : Js.Settlement B)
    (b_first : bool) : Js.Settlement (A * B) :=
  match a, b with
  | Js.Fulfilled x, Js.Fulfilled y => Js.Fulfilled (x, y)
  | Js.Rejected e, Js.Fulfilled _ => Js.Rejected e
  | Js.Fulfilled _, Js.Rejected e => Js.Rejected e
  | Js.Rejected e1, Js.Rejected e2 => Js.Rejected (if b_first then e2 else e1)
  end.

(** What the environment decides about the two requests of [init]. *)
Record InitEnv := {
  speech_fetch : FetchOutcome;
  ice_fetch : FetchOutcome;
  ice_first : bool
}.

End Net.

(** ** The avatar manager ([AvatarManager]) *)

Module Avatar.

(** The SDK objects are opaque; the manager only tests its references
    against [null]. *)
Inductive Synthesizer := AvatarSynthesizer.
Inductive PeerConnection := RTCPeerConnection.

(** The internal state set up by the constructor.  The appearance options
    (character, style, voice) and the video element are only handed to the
    SDK and are left out. *)
Record Manager := {
  _synthesizer : option Synthesizer;
  _peerConn : option PeerConnection;
  isConnected : bool;
  isSpeaking : bool
}.

Definition new : Manager :=
  {| _synthesizer := None; _peerConn := None;
     isConnected := false; isSpeaking := false |}.

Definition set_synthesizer (v : option Synthesizer) (m : Manager) : Manager :=
  {| _synthesizer := v; _peerConn := _peerConn m;
     isConnected := isConnected m; isSpeaking := isSpeaking m |}.

Definition set_peerConn (v : option PeerConnection) (m : Manager) : Manager :=
  {| _synthesizer := _synthesizer m; _peerConn := v;
     isConnected := isConnected m; isSpeaking := isSpeaking m |}.

Definition set_isConnected (v : bool) (m : Manager) : Manager :=
  {| _synthesizer := _synthesizer m; _peerConn := _peerConn m;
     isConnected := v; isSpeaking := isSpeaking m |}.

Definition set_isSpeaking (v : bool) (m : Manager) : Manager :=
  {| _synthesizer := _synthesizer m; _peerConn := _peerConn m;
     isConnected := isConnected m; isSpeaking := v |}.

(** The event callbacks given to the constructor.  They belong to the client
    and act on the client's state [C]; they cannot reach the manager's
    internal state. *)
Record Callbacks (C : Type) := {
  onConnected : C → C * list Effect;
  onDisconnected : C → C * list Effect;
  onSpeakStart : C → C * list Effect;
  onSpeakEnd : C → C * list Effect
}.
Arguments onConnected {C} _.
Arguments onDisconnected {C} _.
Arguments onSpeakStart {C} _.
Arguments onSpeakEnd {C} _.

(** The default callbacks [() => {}]. *)
Definition no_callbacks {C} : Callbacks C :=
  {| onConnected := λ c, (c, []); onDisconnected := λ c, (c, []);
     onSpeakStart := λ c, (c, []); onSpeakEnd := λ c, (c, []) |}.

(** What the success callback of [speakTextAsync] reads from its result:
    whether [result.reason] is [SynthesizingAudioCompleted], the reason as it
    prints, and [result.errorDetails]. *)
Record SynthesisResult := {
  completed : bool;
  reason : string;
  errorDetails : option string
}.

(** The promise [speak] hands back, as seen when [speak] returns. *)
Inductive Promise :=
| Pending
| AlreadyRejected (e : Js.Error).

(** What the environment decides during [connect]. *)
Inductive IceUrls :=
| UrlsArray (urls : list string)
| UrlsSingle (url : option string).

Inductive IceToken :=
| IceNull
| IceObject (Urls : IceUrls) (Username Password : option string).

Record ConnectEnv := {
  json_parse : string → Js.Completion IceToken;
  new_peer_connection : Js.Completion unit;
  add_transceivers : Js.Completion unit;
  speech_config : Js.Completion unit;
  new_synthesizer : Js.Completion unit;
  start_avatar : Js.Settlement unit
}.

Section Operations.
Context {C : Type} (cb : Callbacks C).

Definition on_manager (f : Manager → Manager) : Prog (Manager * C) unit :=
  modify (λ st, (f st.1, st.2)).

(** Invoke a client callback. *)
Definition invoke (mark : Effect) (f : C → C * list Effect)
    : Prog (Manager * C) unit :=
  λ st, let '(c, l) := f st.2 in (Js.Normal tt, (st.1, c), mark :: l).

Definition not_connected : Js.Error :=
  {| Js.message := "Avatar is not connected. Call connect() first." |}.

(** [speak(text)]: the executor of the returned promise runs at once. *)
Definition speak (req : nat) (text : string) : Prog (Manager * C) Promise :=
  st ← get;
  match _synthesizer st.1, isConnected st.1 with
  | Some _, true =>
      on_manager (set_isSpeaking true);;
      invoke OnSpeakStart (onSpeakStart cb);;
      emit (SpeakTextAsync req text);;
      mret Pending
  | _, _ =>
      emit (SpeakSettled req (Js.Rejected not_connected));;
      mret (AlreadyRejected not_connected)
  end.

(** The first callback given to [speakTextAsync]. *)
Definition speak_result (req : nat) (result : SynthesisResult)
    : Prog (Manager * C) (Js.Settlement unit) :=
  on_manager (set_isSpeaking false);;
  invoke OnSpeakEnd (onSpeakEnd cb);;
  if completed result then
    emit (SpeakSettled req (Js.Fulfilled tt));;
    mret (Js.Fulfilled tt)
  else
    let msg := "Speech synthesis failed (reason " +:+ reason result +:+ "): "
               +:+ Js.or_str (errorDetails result) "unknown error" in
    emit (ConsoleError ("[AvatarManager] " +:+ msg));;
    emit (SpeakSettled req (Js.Rejected {| Js.message := msg |}));;
    mret (Js.Rejected {| Js.message := msg |}).

(** The second callback given to [speakTextAsync]; [err] is [String(err)]. *)
Definition speak_error (req : nat) (err : string)
    : Prog (Manager * C) (Js.Settlement unit) :=
  on_manager (set_isSpeaking false);;
  invoke OnSpeakEnd (onSpeakEnd cb);;
  emit (ConsoleError ("[AvatarManager] speakTextAsync error: " +:+ err));;
  emit (SpeakSettled req (Js.Rejected {| Js.message := err |}));;
  mret (Js.Rejected {| Js.message := err |}).

(** The [oniceconnectionstatechange] handler installed by [connect], from
    the point where it has read the state. *)
Definition ice_state_seen (state : string) : Prog (Manager * C) unit :=
  emit (ConsoleLog ("[AvatarManager] ICE state: " +:+ state));;
  when (String.eqb state "disconnected" || String.eqb state "failed"
        || String.eqb state "closed")
    (on_manager (set_isConnected false);;
     invoke OnDisconnected (onDisconnected cb)).

Definition null_peer : Js.Error :=
  {| Js.message :=
       "Cannot read properties of null (reading 'iceConnectionState')" |}.

(** The handler itself.  It reads [this._peerConn.iceConnectionState], which
    throws once [disconnect] has set [_peerConn] to [null]; [state] is what
    the peer connection reports otherwise. *)
Definition ice_state_change (state : string) : Prog (Manager * C) unit :=
  st ← get;
  match _peerConn st.1 with
  | None => throw null_peer
  | Some _ => ice_state_seen state
  end.

(** [connect(speechToken, region, iceTokenRaw)] with a string for
    [iceTokenRaw], run up to the settlement of [startAvatarAsync] and
    through it. *)
Definition connect (env : ConnectEnv) (speechToken region iceTokenRaw : string)
    : Prog (Manager * C) unit :=
  ice ← extern (json_parse env iceTokenRaw);
  match ice with
  | IceNull =>
      throw {| Js.message := "Cannot read properties of null (reading 'Urls')" |}
  | IceObject Urls Username Password =>
      let iceUrls :=
        match Urls with
        | UrlsArray urls => Some <$> urls
        | UrlsSingle url => [url]
        end in
      extern (new_peer_connection env);;
      emit (NewPeerConnection iceUrls Username Password);;
      on_manager (set_peerConn (Some RTCPeerConnection));;
      extern (add_transceivers env);;
      extern (speech_config env);;
      extern (new_synthesizer env);;
      emit NewSynthesizer;;
      on_manager (set_synthesizer (Some AvatarSynthesizer));;
      emit StartAvatarAsync;;
      await (start_avatar env);;
      on_manager (set_isConnected true);;
      invoke OnConnected (onConnected cb);;
      emit (ConsoleLog "[AvatarManager] Connected successfully.")
  end.
End Operations.

(** [disconnect()]: [synth_close] and [peer_close] are what the two [close()]
    calls do if they are made. *)
Definition disconnect (synth_close peer_close : Js.Completion unit)
    : Prog Manager unit :=
  m ← get;
  match _synthesizer m with
  | Some _ =>
      try_catch (emit SynthesizerClose;; extern synth_close) (λ _, mret tt);;
      modify (set_synthesizer None)
  | None => mret tt
  end;;
  m ← get;
  match _peerConn m with
  | Some _ =>
      try_catch (emit PeerClose;; extern peer_close) (λ _, mret tt);;
      modify (set_peerConn None)
  | None => mret tt
  end;;
  modify (set_isConnected false);;
  emit (ConsoleLog "[AvatarManager] Disconnected.").

End Avatar.

(** ** The multiple-choice controller ([static/js/interview.js]) *)

Module Choice.

(** The [await] points of the controller whose promise is a bounded speak
    ([Promise.race] of [avatar.speak] against a timer): who is waiting. *)
Inductive Kont :=
| KWelcome                          (* [_startInterview], 25 s *)
| KAsk (idx : nat)                  (* [_askQuestion(idx)], 30 s *)
| KWait                             (* [_finishInterview], first speak, 20 s *)
| KResult (data : Scoring.Report).  (* [_finishInterview], second speak, 20 s *)

(** One bounded speak: the request, who awaits the race, whether the race is
    still unsettled, whether the SDK still owes a callback for the request and
    whether the timer has yet to fire.  The source never clears its timers. *)
Record Race := {
  req : nat;
  kont : Kont;
  unsettled : bool;
  sdk_pending : bool;
  timer_pending : bool
}.

Definition set_unsettled (v : bool) (r : Race) : Race :=
  {| req := req r; kont := kont r; unsettled := v;
     sdk_pending := sdk_pending r; timer_pending := timer_pending r |}.

Definition set_sdk_pending (v : bool) (r : Race) : Race :=
  {| req := req r; kont := kont r; unsettled := unsettled r;
     sdk_pending := v; timer_pending := timer_pending r |}.

Definition set_timer_pending (v : bool) (r : Race) : Race :=
  {| req := req r; kont := kont r; unsettled := unsettled r;
     sdk_pending := sdk_pending r; timer_pending := v |}.

(** The controller's fields, the part of the page the code reads back (the
    option buttons: the question whose buttons are in the container and
    whether they are enabled) and what the event loop has pending.
    [this.avatar] is [null] only until [init] builds the manager; the state
    below is the one [init] hands to [_startInterview]. *)
Record State := {
  questions : list Question;
  currentIdx : nat;
  answers : gmap string string;
  answerLocked : bool;
  avatar : Avatar.Manager;
  panel : option (Question * bool);
  races : list Race;
  delays : nat;            (* pending 700 ms timers of [_handleAnswer] *)
  next_req : nat;
  region : string
}.

Definition set_currentIdx (v : nat) (s : State) : State :=
  {| questions := questions s; currentIdx := v; answers := answers s;
     answerLocked := answerLocked s; avatar := avatar s; panel := panel s;
     races := races s; delays := delays s; next_req := next_req s; region := region s |}.

Definition set_answers (v : gmap string string) (s : State) : State :=
  {| questions := questions s; currentIdx := currentIdx s; answers := v;
     answerLocked := answerLocked s; avatar := avatar s; panel := panel s;
     races := races s; delays := delays s; next_req := next_req s; region := region s |}.

Definition set_answerLocked (v : bool) (s : State) : State :=
  {| questions := questions s; currentIdx := currentIdx s; answers := answers s;
     answerLocked := v; avatar := avatar s; panel := panel s;
     races := races s; delays := delays s; next_req := next_req s; region := region s |}.

Definition set_avatar (v : Avatar.Manager) (s : State) : State :=
  {| questions := questions s; currentIdx := currentIdx s; answers := answers s;
     answerLocked := answerLocked s; avatar := v; panel := panel s;
     races := races s; delays := delays s; next_req := next_req s; region := region s |}.

Definition set_panel (v : option (Question * bool)) (s : State) : State :=
  {| questions := questions s; currentIdx := currentIdx s; answers := answers s;
     answerLocked := answerLocked s; avatar := avatar s; panel := v;
     races := races s; delays := delays s; next_req := next_req s; region := region s |}.

Definition set_races (v : list Race) (s : State) : State :=
  {| questions := questions s; currentIdx := currentIdx s; answers := answers s;
     answerLocked := answerLocked s; avatar := avatar s; panel := panel s;
     races := v; delays := delays s; next_req := next_req s; region := region s |}.

Definition set_delays (v : nat) (s : State) : State :=
  {| questions := questions s; currentIdx := currentIdx s; answers := answers s;
     answerLocked := answerLocked s; avatar := avatar s; panel := panel s;
     races := races s; delays := v; next_req := next_req s; region := region s |}.

Definition set_next_req (v : nat) (s : State) : State :=
  {| questions := questions s; currentIdx := currentIdx s; answers := answers s;
     answerLocked := answerLocked s; avatar := avatar s; panel := panel s;
     races := races s; delays := delays s; next_req := v; region := region s |}.

(** The constructor, with the manager [init] puts in [this.avatar]. *)
Definition new (manager : Avatar.Manager) (region : string) : State :=
  {| questions := QUESTIONS; currentIdx := 0%nat; answers := ∅;
     answerLocked := true; avatar := manager; panel := None;
     races := []; delays := 0%nat; next_req := 0%nat; region := region |}.

(** *** UI helpers *)

Definition _setOptionsEnabled (enabled : bool) : Prog State unit :=
  modify (λ s, set_panel ((λ b, (b.1, enabled)) <$> panel s) s);;
  emit (SetOptionsEnabled enabled).

Definition _updateProgress (current total : nat) : Prog State unit :=
  emit (SetProgress current total).

Definition _setDot (state : string) : Prog State unit := emit (SetDot state).

Definition _setStatusLabel (t : string) : Prog State unit :=
  emit (SetStatusLabel t).

Definition _setLoadingText (t : string) : Prog State unit :=
  emit (SetLoadingText t).

Definition _setHint (visible : bool) : Prog State unit := emit (SetHint visible).

Definition nat_text (n : nat) : string := pretty n.

Definition _renderQuestion (q : Question) : Prog State unit :=
  s ← get;
  emit (SetBadge ("Question " +:+ Js.String_ (id q) +:+ " / "
                  +:+ nat_text (length (questions s))));;
  emit (SetQuestionText (text q));;
  modify (set_panel (Some (q, false)));;
  emit (RenderOptions q).

Definition _showResults (data : Scoring.Report) : Prog State unit :=
  emit (ShowResults data).

(** *** The callbacks [init] gives to the avatar manager *)

(** The callback bodies never throw. *)
Definition body (p : Prog State unit) : State → State * list Effect :=
  λ s, let '(_, s1, l) := p s in (s1, l).

Definition callbacks : Avatar.Callbacks State := {|
  Avatar.onConnected := body (
    emit HideLoading;;
    _setDot "connected";;
    _setStatusLabel "Ready");
  Avatar.onDisconnected := body (
    _setDot "";;
    _setStatusLabel "Disconnected";;
    emit ShowReconnectOverlay);
  Avatar.onSpeakStart := body (
    emit UnmuteVideo;;
    modify (set_answerLocked true);;
    _setOptionsEnabled false;;
    _setDot "speaking";;
    _setStatusLabel "Speaking…";;
    _setHint true);
  Avatar.onSpeakEnd := body (
    modify (set_answerLocked false);;
    _setOptionsEnabled true;;
    _setDot "connected";;
    _setStatusLabel "Ready — select your answer";;
    _setHint false)
|}.

(** Run a manager operation on [this.avatar]. *)
Definition on_avatar {A} (p : Prog (Avatar.Manager * State) A) : Prog State A :=
  zoom (λ s, (avatar s, s)) (λ st _, set_avatar st.1 st.2) p.

(** *** Bounded speaks *)

Definition add_race (r : Race) : Prog State unit :=
  modify (λ s, set_races (races s ++ [r]) s).

(** [await Promise.race([this.avatar.speak(text), timeout(ms)])] up to the
    suspension.  [resume] is the code after the [await]; it runs at once when
    [speak] hands back a rejected promise. *)
Definition bounded_speak (text : string) (ms : Z) (timer_first : bool)
    (k : Kont) (resume : Js.Settlement unit → Prog State unit)
    : Prog State unit :=
  s ← get;
  let r := next_req s in
  modify (set_next_req (S r));;
  when timer_first (emit (SetTimeout ms));;
  p ← on_avatar (Avatar.speak callbacks r text);
  when (negb timer_first) (emit (SetTimeout ms));;
  match p with
  | Avatar.Pending =>
      add_race {| req := r; kont := k; unsettled := true;
                  sdk_pending := true; timer_pending := true |}
  | Avatar.AlreadyRejected e =>
      add_race {| req := r; kont := k; unsettled := false;
                  sdk_pending := false; timer_pending := true |};;
      resume (Js.Rejected e)
  end.

Section WithEnvironment.
(** What the two [close()] calls of [AvatarManager.disconnect] do. *)
Context (synth_close peer_close : Js.Completion unit).

(** *** [_finishInterview] *)

Definition after_result (data : Scoring.Report) (r : Js.Settlement unit)
    : Prog State unit :=
  try_catch (await r) (λ _, mret tt);;
  _showResults data;;
  emit (Enter M_disconnect);;
  zoom avatar set_avatar (Avatar.disconnect synth_close peer_close).

Definition resultText (data : Scoring.Report) : string :=
  "You scored " +:+ Js.String_ (Scoring.score data) +:+ " out of "
  +:+ Js.String_ (Scoring.total data) +:+ ", which is "
  +:+ from_option Js.String_ "NaN" (Scoring.percentage data) +:+ " percent. "
  +:+ "Your grade is " +:+ Scoring.grade_text (Scoring.grade data) +:+ ". "
  +:+ "Well done on completing the interview!".

Definition after_wait (r : Js.Settlement unit) : Prog State unit :=
  try_catch (await r) (λ _, mret tt);;
  s ← get;
  let data := Scoring._scoreAnswers (answers s) in
  bounded_speak (resultText data) 20000 false (KResult data)
    (after_result data).

Definition waitText : string :=
  "Thank you for completing the interview. "
  +:+ "Please wait a moment while I calculate your results.".

Definition _finishInterview : Prog State unit :=
  emit (Enter M_finishInterview);;
  _setOptionsEnabled false;;
  emit (SetBadge "Interview Complete");;
  emit (SetQuestionText "Calculating your results…");;
  modify (set_panel None);;
  emit ClearOptions;;
  s ← get;
  _updateProgress (length (questions s)) (length (questions s));;
  bounded_speak waitText 20000 false KWait after_wait.

(** *** [_askQuestion] *)

Definition unlockOptions : Prog State unit :=
  modify (set_answerLocked false);;
  _setOptionsEnabled true;;
  _setDot "connected";;
  _setStatusLabel "Select your answer";;
  _setHint false.

(** The [try { await ... } catch (err) { ... }] that ends [_askQuestion]. *)
Definition after_ask (idx : nat) (r : Js.Settlement unit) : Prog State unit :=
  try_catch (await r)
    (λ err,
       emit (ConsoleWarn ("[Interview] Speech failed/timed out for question "
                          +:+ nat_text (idx + 1) +:+ " " +:+ Js.message err));;
       unlockOptions).

Fixpoint join (sep : string) (l : list string) : string :=
  match l with
  | [] => ""
  | [x] => x
  | x :: rest => x +:+ sep +:+ join sep rest
  end.

Definition speech (idx : nat) (q : Question) : string :=
  let optionsText :=
    join ". " ((λ o, "Option " +:+ oid o +:+ ": " +:+ otext o) <$> options q) in
  "Question " +:+ nat_text (idx + 1) +:+ ". " +:+ text q +:+ ". "
  +:+ "The options are. " +:+ optionsText +:+ ". "
  +:+ "Please select your answer.".

Definition _askQuestion (idx : nat) : Prog State unit :=
  emit (Enter (M_askQuestion idx));;
  s ← get;
  if (length (questions s) <=? idx)%nat then
    _finishInterview
  else
    modify (set_currentIdx idx);;
    modify (set_answerLocked true);;
    match questions s !! idx with
    | None =>
        throw {| Js.message := "Cannot read properties of undefined" |}
    | Some q =>
        _updateProgress (idx + 1) (length (questions s));;
        _renderQuestion q;;
        _setOptionsEnabled false;;
        bounded_speak (speech idx q) 30000 true (KAsk idx) (after_ask idx)
    end.

(** *** [_startInterview] *)

Definition welcomeText : string :=
  "Hello! Welcome to your behavioral interview. "
  +:+ "I will ask you five questions. "
  +:+ "After I finish speaking each question, the answer options will become active. "
  +:+ "Select the option that best reflects your approach. "
  +:+ "Let's begin.".

Definition after_welcome (r : Js.Settlement unit) : Prog State unit :=
  try_catch (await r)
    (λ err,
       emit (ConsoleWarn ("[Interview] Welcome speech failed/timed out: "
                          +:+ Js.message err)));;
  _askQuestion 0.

Definition _startInterview : Prog State unit :=
  emit (Enter M_startInterview);;
  s ← get;
  _updateProgress 0 (length (questions s));;
  bounded_speak welcomeText 25000 true KWelcome after_welcome.

(** *** [_handleAnswer] *)

(** Up to [await new Promise(r => setTimeout(r, 700))]. *)
Definition _handleAnswer (questionId : Z) (optionId : string)
    : Prog State unit :=
  emit (Enter (M_handleAnswer questionId optionId));;
  s ← get;
  if answerLocked s then mret tt
  else
    modify (set_answerLocked true);;
    _setOptionsEnabled false;;
    modify (λ s, set_answers (<[Js.String_ questionId := optionId]> (answers s)) s);;
    emit (HighlightOption optionId);;
    emit (SetTimeout 700);;
    modify (λ s, set_delays (S (delays s)) s).

(** From the 700 ms timer on: [await this._askQuestion(this.currentIdx + 1)]. *)
Definition after_delay : Prog State unit :=
  s ← get;
  _askQuestion (currentIdx s + 1).

(** *** The event loop *)

(** The code that runs when the race of a bounded speak settles. *)
Definition resume (k : Kont) (r : Js.Settlement unit) : Prog State unit :=
  match k with
  | KWelcome => after_welcome r
  | KAsk idx => after_ask idx r
  | KWait => after_wait r
  | KResult data => after_result data r
  end.

Definition timeout_error (k : Kont) : Js.Error :=
  match k with
  | KWelcome | KAsk _ => {| Js.message := "Speech timeout" |}
  | KWait | KResult _ => {| Js.message := "timeout" |}
  end.

(** What the environment can do next. *)
Inductive Event :=
| SpeakResult (r : nat) (result : Avatar.SynthesisResult)
    (* the SDK calls the success callback of request [r] *)
| SpeakError (r : nat) (err : string)
    (* the SDK calls the error callback of request [r] *)
| RaceTimeout (r : nat)
    (* the timer racing against request [r] fires *)
| DelayElapsed
    (* a 700 ms timer of [_handleAnswer] fires *)
| Click (optionId : string)
    (* the user clicks an option button *)
| IceStateChange (state : string).
    (* the peer connection reports a new ICE connection state *)

Definition find_race (r : nat) (s : State) : option Race :=
  find (λ x, Nat.eqb (req x) r) (races s).

Definition update_race (r : nat) (f : Race → Race) : Prog State unit :=
  modify (λ s,
    set_races ((λ x, if Nat.eqb (req x) r then f x else x) <$> races s) s).

(** The race of request [r] settles with [how], unless it already has. *)
Definition settle_race (r : nat) (how : Js.Settlement unit) : Prog State unit :=
  s ← get;
  match find_race r s with
  | Some x =>
      if unsettled x then
        update_race r (set_unsettled false);;
        resume (kont x) how
      else mret tt
  | None => mret tt
  end.

(** Can the event happen in this state?  An SDK callback needs a request
    the SDK has not answered, a timer must be armed, a button must be in the
    page and enabled, the ICE handler sits on the peer connection. *)
Definition enabled (e : Event) (s : State) : bool :=
  match e with
  | SpeakResult r _ | SpeakError r _ =>
      from_option sdk_pending false (find_race r s)
  | RaceTimeout r => from_option timer_pending false (find_race r s)
  | DelayElapsed => (0 <? delays s)%nat
  | Click o =>
      match panel s with
      | Some (q, true) => bool_decide (o ∈ oid <$> options q)
      | _ => false
      end
  | IceStateChange _ => bool_decide (is_Some (Avatar._peerConn (avatar s)))
  end.

Definition handle (e : Event) : Prog State unit :=
  match e with
  | SpeakResult r result =>
      update_race r (set_sdk_pending false);;
      how ← on_avatar (Avatar.speak_result callbacks r result);
      settle_race r how
  | SpeakError r err =>
      update_race r (set_sdk_pending false);;
      how ← on_avatar (Avatar.speak_error callbacks r err);
      settle_race r how
  | RaceTimeout r =>
      s ← get;
      update_race r (set_timer_pending false);;
      settle_race r
        (Js.Rejected (from_option (timeout_error ∘ kont)
                        {| Js.message := "" |} (find_race r s)))
  | DelayElapsed =>
      modify (λ s, set_delays (pred (delays s)) s);;
      after_delay
  | Click o =>
      s ← get;
      match panel s with
      | Some (q, _) => _handleAnswer (id q) o
      | None => mret tt
      end
  | IceStateChange state =>
      on_avatar (Avatar.ice_state_change callbacks state)
  end.

(** One macrotask.  An event that cannot happen leaves everything as it
    is. *)
Definition step (e : Event) (s : State) : State * list Effect :=
  if enabled e s then
    let '(_, s1, l) := handle e s in (s1, l)
  else (s, []).

(** A run: the events in order, with the effects of all of them. *)
Fixpoint run (es : list Event) (s : State) : State * list Effect :=
  match es with
  | [] => (s, [])
  | e :: rest =>
      let '(s1, l1) := step e s in
      let '(s2, l2) := run rest s1 in
      (s2, l1 ++ l2)
  end.

(** The run starts when [init] calls [_startInterview]. *)
Definition start (s : State) : State * list Effect :=
  let '(_, s1, l) := _startInterview s in (s1, l).

Definition run_from_start (es : list Event) (s : State)
    : State * list Effect :=
  let '(s1, l1) := start s in
  let '(s2, l2) := run es s1 in
  (s2, l1 ++ l2).

(** Every event of the list can happen when its turn comes. *)
Fixpoint feasible (es : list Event) (s : State) : bool :=
  match es with
  | [] => true
  | e :: rest => enabled e s && feasible rest (step e s).1
  end.

(** *** [init] *)

(** [fetch(url).then(r => { if (!r.ok) throw ...; return r.text(); })] *)
Definition token (label : string) (f : Net.FetchOutcome)
    : Js.Settlement string :=
  match f with
  | Net.FetchRejects e => Js.Rejected e
  | Net.Response status statusText body =>
      if negb (Net.ok status) then
        Js.Rejected {| Js.message := label +:+ " token error "
                         +:+ Js.String_ status +:+ ": " +:+ statusText |}
      else
        match body with
        | Net.BodyText t => Js.Fulfilled t
        | Net.BodyFails e => Js.Rejected e
        end
  end.

(** [init()], up to the first suspension of [_startInterview].  The page
    has the elements the code looks up, [#avatar-loading] among them.  The
    click handler of the retry button is the only other caller of
    [init]. *)
Definition init (net : Net.InitEnv) (cenv : Avatar.ConnectEnv)
    : Prog State unit :=
  emit (Enter M_init);;
  _setLoadingText "Connecting to Azure…";;
  try_catch
    (emit (Fetch "/api/getSpeechToken");;
     emit (Fetch "/api/getIceToken");;
     tokens ← await (Net.all2 (token "Speech" (Net.speech_fetch net))
                       (token "ICE" (Net.ice_fetch net)) (Net.ice_first net));
     modify (set_avatar Avatar.new);;
     _setLoadingText "Initialising avatar…";;
     s ← get;
     on_avatar (Avatar.connect callbacks cenv tokens.1 (region s) tokens.2);;
     _startInterview)
    (λ err,
       emit (ConsoleError ("[Interview] Initialisation failed: "
                           +:+ Js.message err));;
       _setLoadingText ("⚠ " +:+ Js.or_str (Some (Js.message err)) "Unknown error");;
       emit ShowRetryButton).
End WithEnvironment.

End Choice.

(** ** The speech-input controller *)

Module Speech.

Record Question := { id : Z; text : string }.

Definition QUESTIONS : list Question := [
  {| id := 1; text := "Tell me about a time you had to manage multiple deadlines. How did you handle it?" |};
  {| id := 2; text := "Describe a situation where you disagreed with a team member. What did you do?" |};
  {| id := 3; text := "Have you ever realized mid-project that something was going wrong? How did you respond?" |};
  {| id := 4; text := "How do you handle critical feedback from a supervisor? Can you give an example?" |} ].

Definition RESPONSES : list string := [
  "Alright, thank you for sharing that.";
  "Got it, I appreciate your response.";
  "That's a great perspective, thank you.";
  "Thank you for your answer." ].

(** Who awaits a bounded speak ([_speak], 30 s). *)
Inductive Kont :=
| KWelcome             (* [_startInterview] *)
| KQuestion (idx : nat)  (* [_askQuestion(idx)], the question *)
| KAck (idx : nat)       (* [_askQuestion(idx)], the acknowledgement *)
| KBye.                (* [_finishInterview] *)

Record Race := {
  req : nat;
  kont : Kont;
  unsettled : bool;
  sdk_pending : bool;
  timer_pending : bool
}.

Definition set_unsettled (v : bool) (r : Race) : Race :=
  {| req := req r; kont := kont r; unsettled := v;
     sdk_pending := sdk_pending r; timer_pending := timer_pending r |}.

Definition set_sdk_pending (v : bool) (r : Race) : Race :=
  {| req := req r; kont := kont r; unsettled := unsettled r;
     sdk_pending := v; timer_pending := timer_pending r |}.

Definition set_timer_pending (v : bool) (r : Race) : Race :=
  {| req := req r; kont := kont r; unsettled := unsettled r;
     sdk_pending := sdk_pending r; timer_pending := v |}.

(** One call of [_listenForAnswer]: the question whose [_askQuestion] awaits
    it, whether its promise is still unresolved, whether its 30 s timer is
    armed, whether the recognizer still owes a callback, and how often the
    recognizer has been closed. *)
Record Listen := {
  lid : nat;
  asked : nat;
  unresolved : bool;
  l_timer_pending : bool;
  l_sdk_pending : bool;
  closes : nat
}.

Definition set_unresolved (v : bool) (l : Listen) : Listen :=
  {| lid := lid l; asked := asked l; unresolved := v;
     l_timer_pending := l_timer_pending l; l_sdk_pending := l_sdk_pending l;
     closes := closes l |}.

Definition set_l_timer_pending (v : bool) (l : Listen) : Listen :=
  {| lid := lid l; asked := asked l; unresolved := unresolved l;
     l_timer_pending := v; l_sdk_pending := l_sdk_pending l;
     closes := closes l |}.

Definition set_l_sdk_pending (v : bool) (l : Listen) : Listen :=
  {| lid := lid l; asked := asked l; unresolved := unresolved l;
     l_timer_pending := l_timer_pending l; l_sdk_pending := v;
     closes := closes l |}.

Definition close_recognizer (l : Listen) : Listen :=
  {| lid := lid l; asked := asked l; unresolved := unresolved l;
     l_timer_pending := l_timer_pending l; l_sdk_pending := l_sdk_pending l;
     closes := S (closes l) |}.

(** The controller's fields (this variant has neither [answers] nor
    [answerLocked]), the transcript box of the page, and what the event loop
    has pending.  As in the other variant the state is the one [init] hands
    to [_startInterview]. *)
Record State := {
  questions : list Question;
  currentIdx : nat;
  avatar : Avatar.Manager;
  speechToken : string;
  region : string;
  transcript : string;
  races : list Race;
  listens : list Listen;
  delays : list nat;     (* pending 600 ms timers, with the [idx] they close over *)
  next_req : nat;
  next_lid : nat
}.

Definition set_currentIdx (v : nat) (s : State) : State :=
  {| questions := questions s; currentIdx := v; avatar := avatar s;
     speechToken := speechToken s; region := region s;
     transcript := transcript s; races := races s; listens := listens s;
     delays := delays s; next_req := next_req s; next_lid := next_lid s |}.

Definition set_avatar (v : Avatar.Manager) (s : State) : State :=
  {| questions := questions s; currentIdx := currentIdx s; avatar := v;
     speechToken := speechToken s; region := region s;
     transcript := transcript s; races := races s; listens := listens s;
     delays := delays s; next_req := next_req s; next_lid := next_lid s |}.

Definition set_transcript (v : string) (s : State) : State :=
  {| questions := questions s; currentIdx := currentIdx s; avatar := avatar s;
     speechToken := speechToken s; region := region s;
     transcript := v; races := races s; listens := listens s;
     delays := delays s; next_req := next_req s; next_lid := next_lid s |}.

Definition set_races (v : list Race) (s : State) : State :=
  {| questions := questions s; currentIdx := currentIdx s; avatar := avatar s;
     speechToken := speechToken s; region := region s;
     transcript := transcript s; races := v; listens := listens s;
     delays := delays s; next_req := next_req s; next_lid := next_lid s |}.

Definition set_listens (v : list Listen) (s : State) : State :=
  {| questions := questions s; currentIdx := currentIdx s; avatar := avatar s;
     speechToken := speechToken s; region := region s;
     transcript := transcript s; races := races s; listens := v;
     delays := delays s; next_req := next_req s; next_lid := next_lid s |}.

Definition set_delays (v : list nat) (s : State) : State :=
  {| questions := questions s; currentIdx := currentIdx s; avatar := avatar s;
     speechToken := speechToken s; region := region s;
     transcript := transcript s; races := races s; listens := listens s;
     delays := v; next_req := next_req s; next_lid := next_lid s |}.

Definition set_next_req (v : nat) (s : State) : State :=
  {| questions := questions s; currentIdx := currentIdx s; avatar := avatar s;
     speechToken := speechToken s; region := region s;
     transcript := transcript s; races := races s; listens := listens s;
     delays := delays s; next_req := v; next_lid := next_lid s |}.

Definition set_next_lid (v : nat) (s : State) : State :=
  {| questions := questions s; currentIdx := currentIdx s; avatar := avatar s;
     speechToken := speechToken s; region := region s;
     transcript := transcript s; races := races s; listens := listens s;
     delays := delays s; next_req := next_req s; next_lid := v |}.

Definition new (manager : Avatar.Manager) (token region : string) : State :=
  {| questions := QUESTIONS; currentIdx := 0%nat; avatar := manager;
     speechToken := token; region := region; transcript := "";
     races := []; listens := []; delays := [];
     next_req := 0%nat; next_lid := 0%nat |}.

(** *** UI helpers *)

Definition _showMic (visible : bool) : Prog State unit := emit (ShowMic visible).

Definition _setMicStatus (t : string) : Prog State unit := emit (SetMicStatus t).

Definition _showTranscript (t : string) : Prog State unit :=
  modify (set_transcript t);;
  emit (ShowTranscript t).

Definition _updateProgress (current total : nat) : Prog State unit :=
  emit (SetProgress current total).

Definition _setDot (state : string) : Prog State unit := emit (SetDot state).

Definition _setStatusLabel (t : string) : Prog State unit :=
  emit (SetStatusLabel t).

Definition _setHint (visible : bool) : Prog State unit := emit (SetHint visible).

Definition nat_text (n : nat) : string := pretty n.

Definition _showQuestionText (q : Question) (idx : nat) : Prog State unit :=
  s ← get;
  emit (SetBadge ("Question " +:+ nat_text (idx + 1) +:+ " / "
                  +:+ nat_text (length (questions s))));;
  emit (SetQuestionText (text q)).

(** *** The callbacks [init] gives to the avatar manager *)

Definition body (p : Prog State unit) : State → State * list Effect :=
  λ s, let '(_, s1, l) := p s in (s1, l).

Definition callbacks : Avatar.Callbacks State := {|
  Avatar.onConnected := body (
    emit HideLoading;;
    _setDot "connected";;
    _setStatusLabel "Ready");
  Avatar.onDisconnected := body (
    _setDot "";;
    _setStatusLabel "Disconnected";;
    emit ShowReconnectOverlay);
  Avatar.onSpeakStart := body (
    emit UnmuteVideo;;
    _setDot "speaking";;
    _setStatusLabel "Speaking…";;
    _setHint true;;
    _showMic false);
  Avatar.onSpeakEnd := body (
    _setDot "connected";;
    _setStatusLabel "Listening…";;
    _setHint false)
|}.

Definition on_avatar {A} (p : Prog (Avatar.Manager * State) A) : Prog State A :=
  zoom (λ s, (avatar s, s)) (λ st _, set_avatar st.1 st.2) p.

(** *** [_speak] *)

Definition add_race (r : Race) : Prog State unit :=
  modify (λ s, set_races (races s ++ [r]) s).

(** [await this._speak(text)] up to the suspension inside [_speak]; [resume]
    is the rest of [_speak] and of its caller. *)
Definition _speak (text : string) (k : Kont)
    (resume : Js.Settlement unit → Prog State unit) : Prog State unit :=
  emit (Enter M_speak);;
  s ← get;
  let r := next_req s in
  modify (set_next_req (S r));;
  p ← on_avatar (Avatar.speak callbacks r text);
  emit (SetTimeout 30000);;
  match p with
  | Avatar.Pending =>
      add_race {| req := r; kont := k; unsettled := true;
                  sdk_pending := true; timer_pending := true |}
  | Avatar.AlreadyRejected e =>
      add_race {| req := r; kont := k; unsettled := false;
                  sdk_pending := false; timer_pending := true |};;
      resume (Js.Rejected e)
  end.

(** The [try { await ... } catch (err) { console.warn(...) }] of [_speak]. *)
Definition speak_done (r : Js.Settlement unit) : Prog State unit :=
  try_catch (await r)
    (λ err, emit (ConsoleWarn ("[Interview] speak() failed: " +:+ Js.message err))).

(** *** [_listenForAnswer] *)

(** What happens inside the [try] of [_listenForAnswer]: building the speech
    configuration or the recognizer may throw, [recognizeOnceAsync] may throw,
    or the recognition starts. *)
Inductive ListenSetup :=
| ConfigThrows (e : Js.Error)
| RecognizeThrows (e : Js.Error)
| Listening.

(** What the success callback of [recognizeOnceAsync] reads from its result:
    whether [result.reason] is [RecognizedSpeech], and [result.text]. *)
Record RecognitionResult := {
  recognized : bool;
  r_text : option string
}.

Section WithEnvironment.
(** The setup outcome of each call of [_listenForAnswer] and what the two
    [close()] calls of [AvatarManager.disconnect] do. *)
Context (listen_setup : nat → ListenSetup).
Context (synth_close peer_close : Js.Completion unit).

Definition update_listen (l : nat) (f : Listen → Listen) : Prog State unit :=
  modify (λ s,
    set_listens ((λ x, if Nat.eqb (lid x) l then f x else x) <$> listens s) s).

Definition find_listen (l : nat) (s : State) : option Listen :=
  find (λ x, Nat.eqb (lid x) l) (listens s).

(** *** [_finishInterview] *)

Definition after_bye (r : Js.Settlement unit) : Prog State unit :=
  speak_done r;;
  emit (Enter M_disconnect);;
  zoom avatar set_avatar (Avatar.disconnect synth_close peer_close);;
  emit ShowFinalPage.

Definition byeText : string :=
  "That concludes our interview. Thank you for your time and thoughtful responses. We will be in touch soon. Have a great day!".

Definition _finishInterview : Prog State unit :=
  emit (Enter M_finishInterview);;
  emit (SetBadge "Interview Complete");;
  emit (SetQuestionText "Wrapping up…");;
  _showMic false;;
  _showTranscript "";;
  s ← get;
  _updateProgress (length (questions s)) (length (questions s));;
  _speak byeText KBye after_bye.

(** *** [_askQuestion], from its end to its start *)

(** After the acknowledgement: [await new Promise(r => setTimeout(r, 600))]. *)
Definition after_ack (idx : nat) (r : Js.Settlement unit) : Prog State unit :=
  speak_done r;;
  emit (SetTimeout 600);;
  modify (λ s, set_delays (delays s ++ [idx]) s).

(** After [_listenForAnswer] resolved with [userSpeech]. *)
Definition after_listen (idx : nat) (userSpeech : string) : Prog State unit :=
  when (negb (String.eqb userSpeech "")) (_showTranscript userSpeech);;
  _speak (Js.or_str (RESPONSES !! idx) "Thank you for your answer.")
    (KAck idx) (after_ack idx).

(** [resolve(answer)] of the promise of listen [l]: only the first call
    counts. *)
Definition resolve_listen (l : nat) (answer : string) : Prog State unit :=
  s ← get;
  match find_listen l s with
  | Some x =>
      if unresolved x then
        update_listen l (set_unresolved false);;
        emit (ListenResolved l answer);;
        after_listen (asked x) answer
      else mret tt
  | None => mret tt
  end.

(** The executor of the promise built by [_listenForAnswer]. *)
Definition _listenForAnswer (idx : nat) : Prog State unit :=
  emit (Enter M_listenForAnswer);;
  s ← get;
  let l := next_lid s in
  modify (set_next_lid (S l));;
  modify (λ s, set_listens (listens s ++ [
    {| lid := l; asked := idx; unresolved := true; l_timer_pending := false;
       l_sdk_pending := false; closes := 0%nat |}]) s);;
  try_catch
    (match listen_setup l with
     | ConfigThrows e => throw e
     | RecognizeThrows e =>
         emit (NewRecognizer l);;
         _showMic true;;
         _setMicStatus "Listening…";;
         emit (SetTimeout 30000);;
         update_listen l (set_l_timer_pending true);;
         throw e
     | Listening =>
         emit (NewRecognizer l);;
         _showMic true;;
         _setMicStatus "Listening…";;
         emit (SetTimeout 30000);;
         update_listen l (set_l_timer_pending true);;
         emit (RecognizeOnceAsync l);;
         update_listen l (set_l_sdk_pending true)
     end)
    (λ _, _showMic false;; resolve_listen l "").

(** The [setTimeout] callback of [_listenForAnswer]. *)
Definition listen_timeout (l : nat) : Prog State unit :=
  update_listen l (set_l_timer_pending false);;
  emit (RecognizerClose l);;
  update_listen l close_recognizer;;
  _showMic false;;
  resolve_listen l "".

(** The success callback given to [recognizeOnceAsync]. *)
Definition listen_result (l : nat) (result : RecognitionResult)
    : Prog State unit :=
  update_listen l (set_l_sdk_pending false);;
  emit ClearTimeout;;
  update_listen l (set_l_timer_pending false);;
  emit (RecognizerClose l);;
  update_listen l close_recognizer;;
  _showMic false;;
  if recognized result && negb (String.eqb (Js.or_str (r_text result) "") "")
  then resolve_listen l (Js.or_str (r_text result) "")
  else resolve_listen l "".

(** The error callback given to [recognizeOnceAsync]. *)
Definition listen_error (l : nat) : Prog State unit :=
  update_listen l (set_l_sdk_pending false);;
  emit ClearTimeout;;
  update_listen l (set_l_timer_pending false);;
  emit (RecognizerClose l);;
  update_listen l close_recognizer;;
  _showMic false;;
  resolve_listen l "".

(** After the question has been spoken. *)
Definition after_question (idx : nat) (r : Js.Settlement unit)
    : Prog State unit :=
  speak_done r;;
  _listenForAnswer idx.

Definition _askQuestion (idx : nat) : Prog State unit :=
  emit (Enter (M_askQuestion idx));;
  s ← get;
  if (length (questions s) <=? idx)%nat then
    _finishInterview
  else
    modify (set_currentIdx idx);;
    match questions s !! idx with
    | None =>
        throw {| Js.message := "Cannot read properties of undefined" |}
    | Some q =>
        _updateProgress (idx + 1) (length (questions s));;
        _showQuestionText q idx;;
        _showTranscript "";;
        _speak ("Question " +:+ nat_text (idx + 1) +:+ ". " +:+ text q)
          (KQuestion idx) (after_question idx)
    end.

(** From the 600 ms timer on: [await this._askQuestion(idx + 1)]. *)
Definition after_delay (idx : nat) : Prog State unit :=
  _askQuestion (idx + 1).

(** *** [_startInterview] *)

Definition welcome : string :=
  "Hello! Welcome to your behavioral interview. I will ask you four questions. After I finish speaking each question, the microphone will activate. Simply speak your answer naturally and I will listen. Let's begin.".

Definition after_welcome (r : Js.Settlement unit) : Prog State unit :=
  speak_done r;;
  _askQuestion 0.

Definition _startInterview : Prog State unit :=
  emit (Enter M_startInterview);;
  s ← get;
  _updateProgress 0 (length (questions s));;
  _speak welcome KWelcome after_welcome.

(** *** The event loop *)

Definition resume (k : Kont) (r : Js.Settlement unit) : Prog State unit :=
  match k with
  | KWelcome => after_welcome r
  | KQuestion idx => after_question idx r
  | KAck idx => after_ack idx r
  | KBye => after_bye r
  end.

Inductive Event :=
| SpeakResult (r : nat) (result : Avatar.SynthesisResult)
| SpeakError (r : nat) (err : string)
| RaceTimeout (r : nat)
| Recognized (l : nat) (result : RecognitionResult)
    (* the recognizer calls the success callback of listen [l] *)
| RecognizeError (l : nat)
    (* the recognizer calls the error callback of listen [l] *)
| ListenTimeout (l : nat)
    (* the 30 s timer of listen [l] fires *)
| DelayElapsed
    (* the oldest 600 ms timer fires *)
| IceStateChange (state : string).

Definition find_race (r : nat) (s : State) : option Race :=
  find (λ x, Nat.eqb (req x) r) (races s).

Definition update_race (r : nat) (f : Race → Race) : Prog State unit :=
  modify (λ s,
    set_races ((λ x, if Nat.eqb (req x) r then f x else x) <$> races s) s).

Definition settle_race (r : nat) (how : Js.Settlement unit) : Prog State unit :=
  s ← get;
  match find_race r s with
  | Some x =>
      if unsettled x then
        update_race r (set_unsettled false);;
        resume (kont x) how
      else mret tt
  | None => mret tt
  end.

Definition enabled (e : Event) (s : State) : bool :=
  match e with
  | SpeakResult r _ | SpeakError r _ =>
      from_option sdk_pending false (find_race r s)
  | RaceTimeout r => from_option timer_pending false (find_race r s)
  | Recognized l _ | RecognizeError l =>
      from_option l_sdk_pending false (find_listen l s)
  | ListenTimeout l => from_option l_timer_pending false (find_listen l s)
  | DelayElapsed => bool_decide (delays s ≠ [])
  | IceStateChange _ => bool_decide (is_Some (Avatar._peerConn (avatar s)))
  end.

Definition handle (e : Event) : Prog State unit :=
  match e with
  | SpeakResult r result =>
      update_race r (set_sdk_pending false);;
      how ← on_avatar (Avatar.speak_result callbacks r result);
      settle_race r how
  | SpeakError r err =>
      update_race r (set_sdk_pending false);;
      how ← on_avatar (Avatar.speak_error callbacks r err);
      settle_race r how
  | RaceTimeout r =>
      update_race r (set_timer_pending false);;
      settle_race r (Js.Rejected {| Js.message := "timeout" |})
  | Recognized l result => listen_result l result
  | RecognizeError l => listen_error l
  | ListenTimeout l => listen_timeout l
  | DelayElapsed =>
      s ← get;
      match delays s with
      | idx :: rest => modify (set_delays rest);; after_delay idx
      | [] => mret tt
      end
  | IceStateChange state =>
      on_avatar (Avatar.ice_state_change callbacks state)
  end.

Definition step (e : Event) (s : State) : State * list Effect :=
  if enabled e s then
    let '(_, s1, l) := handle e s in (s1, l)
  else (s, []).

Fixpoint run (es : list Event) (s : State) : State * list Effect :=
  match es with
  | [] => (s, [])
  | e :: rest =>
      let '(s1, l1) := step e s in
      let '(s2, l2) := run rest s1 in
      (s2, l1 ++ l2)
  end.

Definition start (s : State) : State * list Effect :=
  let '(_, s1, l) := _startInterview s in (s1, l).

Definition run_from_start (es : list Event) (s : State)
    : State * list Effect :=
  let '(s1, l1) := start s in
  let '(s2, l2) := run es s1 in
  (s2, l1 ++ l2).

Fixpoint feasible (es : list Event) (s : State) : bool :=
  match es with
  | [] => true
  | e :: rest => enabled e s && feasible rest (step e s).1
  end.

(** *** [init] *)

Definition set_speechToken (v : string) (s : State) : State :=
  {| questions := questions s; currentIdx := currentIdx s; avatar := avatar s;
     speechToken := v; region := region s;
     transcript := transcript s; races := races s; listens := listens s;
     delays := delays s; next_req := next_req s; next_lid := next_lid s |}.

Definition token (label : string) (f : Net.FetchOutcome)
    : Js.Settlement string :=
  match f with
  | Net.FetchRejects e => Js.Rejected e
  | Net.Response status statusText body =>
      if negb (Net.ok status) then
        Js.Rejected {| Js.message := label +:+ " token error "
                         +:+ Js.String_ status |}
      else
        match body with
        | Net.BodyText t => Js.Fulfilled t
        | Net.BodyFails e => Js.Rejected e
        end
  end.

Definition init (net : Net.InitEnv) (cenv : Avatar.ConnectEnv)
    : Prog State unit :=
  emit (Enter M_init);;
  emit (SetLoadingText "Connecting to Azure…");;
  try_catch
    (emit (Fetch "/api/getSpeechToken");;
     emit (Fetch "/api/getIceToken");;
     tokens ← await (Net.all2 (token "Speech" (Net.speech_fetch net))
                       (token "ICE" (Net.ice_fetch net)) (Net.ice_first net));
     modify (set_speechToken tokens.1);;
     modify (set_avatar Avatar.new);;
     emit (SetLoadingText "Initialising avatar…");;
     s ← get;
     on_avatar (Avatar.connect callbacks cenv tokens.1 (region s) tokens.2);;
     _startInterview)
    (λ err,
       emit (ConsoleError ("[Interview] Init failed: " +:+ Js.message err));;
       emit (SetLoadingText
               ("⚠ " +:+ Js.or_str (Some (Js.message err)) "Unknown error"));;
       emit ShowRetryButton).
End WithEnvironment.

End Speech.

(** * Statements: auxiliary definitions *)

(** The row [_scoreAnswers] builds for a question. *)
Definition expected_row (answers : gmap string string) (q : Question)
    : Scoring.Row :=
  {| Scoring.r_id := id q; Scoring.r_text := text q;
     Scoring.r_options := options q;
     Scoring.selected := Scoring.selection answers q;
     Scoring.r_correct := correct q;
     Scoring.is_correct :=
       bool_decide (Scoring.selection answers q = correct q) |}.

(** The answers of the scenario: B, C, B, C, B for questions 1 to 5. *)
Definition all_correct : gmap string string :=
  list_to_map [("1", "B"); ("2", "C"); ("3", "B"); ("4", "C"); ("5", "B")].

(** Upper case as the claim has it, by table and not through the model of
    [toUpperCase]: a letter of the lower-case alphabet becomes the letter at
    the same place of the upper-case alphabet, any other character stays. *)
Definition lower_letters : string := "abcdefghijklmnopqrstuvwxyz".
Definition upper_letters : string := "ABCDEFGHIJKLMNOPQRSTUVWXYZ".

Fixpoint capital_of (lower upper : string) (c : ascii) : ascii :=
  match lower, upper with
  | String l lower, String u upper =>
      if Ascii.eqb c l then u else capital_of lower upper c
  | _, _ => c
  end.

Definition capital : ascii → ascii := capital_of lower_letters upper_letters.

Fixpoint upper_cased (s : string) : string :=
  match s with
  | EmptyString => EmptyString
  | String c rest => String (capital c) (upper_cased rest)
  end.

(** The answer the report shows for a question: what the record holds under
    the decimal numeral of the question id, nothing counting as the empty
    string, in upper case. *)
Definition shown_answer (answers : gmap string string) (q : Question)
    : string :=
  upper_cased (default "" (answers !! Js.String_ (id q))).

Definition report_row (answers : gmap string string) (q : Question)
    : Scoring.Row :=
  {| Scoring.r_id := id q; Scoring.r_text := text q;
     Scoring.r_options := options q;
     Scoring.selected := shown_answer answers q;
     Scoring.r_correct := correct q;
     Scoring.is_correct := bool_decide (shown_answer answers q = correct q) |}.

(** Every recorded answer is a string of ASCII characters, as the option
    tokens are. *)
Definition plain_answers (answers : gmap string string) : Prop :=
  map_Forall (λ _ answer, Js.plain answer = true) answers.

(** Every id is an integer that [String] prints as a decimal numeral. *)
Definition plain_ids (qs : list Question) : Prop :=
  Forall (λ q, Js.safe_integer (id q) = true) qs.

(** The right answers, typed in lower case. *)
Definition lower_case_answers : gmap string string :=
  list_to_map [("1", "b"); ("2", "c"); ("3", "b"); ("4", "c"); ("5", "b")].

(** A record with one right answer in lower case, one wrong answer, three
    questions left out and an entry that belongs to no question. *)
Definition partial_answers : gmap string string :=
  list_to_map [("1", "b"); ("3", "a"); ("9", "B")].

(** The manager can speak: it has a synthesizer and is connected. *)
Definition ready (m : Avatar.Manager) : bool :=
  match Avatar._synthesizer m with
  | Some _ => Avatar.isConnected m
  | None => false
  end.

(** How the SDK answers a [speakTextAsync] call: through the success callback
    or through the error callback. *)
Inductive SdkAnswer :=
| Succeeds (result : Avatar.SynthesisResult)
| Fails (err : string).

Definition answer_speak {C} (cb : Avatar.Callbacks C) (req : nat)
    (a : SdkAnswer) : Prog (Avatar.Manager * C) (Js.Settlement unit) :=
  match a with
  | Succeeds result => Avatar.speak_result cb req result
  | Fails err => Avatar.speak_error cb req err
  end.

(** The effects that mark the life of a speak request. *)
Definition lifecycle_mark (e : Effect) : bool :=
  match e with
  | OnSpeakStart | OnSpeakEnd | SpeakTextAsync _ _ | SpeakSettled _ _ => true
  | _ => false
  end.

(** The client's callbacks do their own work only: they do not show up as
    lifecycle marks themselves. *)
Definition plain_callbacks {C} (cb : Avatar.Callbacks C) : Prop :=
  ∀ c, Forall (λ e, lifecycle_mark e = false) (Avatar.onSpeakStart cb c).2
       ∧ Forall (λ e, lifecycle_mark e = false) (Avatar.onSpeakEnd cb c).2.

Definition connected_manager : Avatar.Manager :=
  {| Avatar._synthesizer := Some Avatar.AvatarSynthesizer;
     Avatar._peerConn := Some Avatar.RTCPeerConnection;
     Avatar.isConnected := true; Avatar.isSpeaking := false |}.

Definition completed_result : Avatar.SynthesisResult :=
  {| Avatar.completed := true; Avatar.reason := "SynthesizingAudioCompleted";
     Avatar.errorDetails := None |}.

(** The states of the multiple-choice controller a session can be in: those
    reached from the constructor's state by [_startInterview] and any
    sequence of events. *)
Definition choice_reachable (synth_close peer_close : Js.Completion unit)
    (s : Choice.State) : Prop :=
  ∃ manager region es,
    s = (Choice.run_from_start synth_close peer_close es
           (Choice.new manager region)).1.

(** The option buttons in the page are those of the current question. *)
Definition buttons_of_current (s : Choice.State) : Prop :=
  ∀ q b, Choice.panel s = Some (q, b) →
         Choice.questions s !! Choice.currentIdx s = Some q.

(** [_askQuestion(idx)] is suspended on its bounded speak [r]: the race is
    unsettled, the SDK has not answered and the timer has not fired. *)
Definition awaiting_ask (r idx : nat) (s : Choice.State) : Prop :=
  ∃ x, Choice.find_race r s = Some x
       ∧ Choice.kont x = Choice.KAsk idx
       ∧ Choice.unsettled x = true
       ∧ Choice.sdk_pending x = true
       ∧ Choice.timer_pending x = true.

(** The three ways the bounded speak [r] can settle. *)
Inductive Settling :=
| BySuccess (result : Avatar.SynthesisResult)
| ByError (err : string)
| ByTimeout.

Definition settling_event (r : nat) (w : Settling) : Choice.Event :=
  match w with
  | BySuccess result => Choice.SpeakResult r result
  | ByError err => Choice.SpeakError r err
  | ByTimeout => Choice.RaceTimeout r
  end.

(** The speak completed: the success callback ran with a completed result. *)
Definition succeeded (w : Settling) : bool :=
  match w with
  | BySuccess result => Avatar.completed result
  | _ => false
  end.

(** What decides how the interview goes on: the position, the answers, the
    lock, the buttons and the pending advance timers. *)
Definition flow (s : Choice.State)
    : list Question * nat * gmap string string * bool
      * option (Question * bool) * nat :=
  (Choice.questions s, Choice.currentIdx s, Choice.answers s,
   Choice.answerLocked s, Choice.panel s, Choice.delays s).

Definition is_warning (e : Effect) : bool :=
  match e with
  | ConsoleWarn _ => true
  | _ => false
  end.

Definition is_enter (e : Effect) : bool :=
  match e with
  | Enter _ => true
  | _ => false
  end.

(** The buttons of the page, enabled. *)
Definition enable (p : option (Question * bool)) : option (Question * bool) :=
  (λ b, (b.1, true)) <$> p.

(** The SDK answered: the speak settled through one of its two callbacks. *)
Definition answered (w : Settling) : bool :=
  match w with
  | ByTimeout => false
  | _ => true
  end.

(** The record of a bounded speak once it settled through [w]: a callback
    of the SDK leaves the timer armed, the timer leaves the SDK owing its
    callback. *)
Definition settled (w : Settling) (x : Choice.Race) : Choice.Race :=
  {| Choice.req := Choice.req x; Choice.kont := Choice.kont x;
     Choice.unsettled := false;
     Choice.sdk_pending := if answered w then false else Choice.sdk_pending x;
     Choice.timer_pending :=
       if answered w then Choice.timer_pending x else false |}.

(** The controller collecting the answer after the bounded speak [r] of
    [_askQuestion] settled through [w]: the lock is off and the buttons are
    enabled; the manager has [isSpeaking] reset when the SDK answered and is
    as it was when the timer fired; the record of request [r] is settled;
    everything else is as in [s]. *)
Definition collecting (r : nat) (w : Settling) (s : Choice.State)
    : Choice.State :=
  {| Choice.questions := Choice.questions s;
     Choice.currentIdx := Choice.currentIdx s;
     Choice.answers := Choice.answers s;
     Choice.answerLocked := false;
     Choice.avatar :=
       if answered w then Avatar.set_isSpeaking false (Choice.avatar s)
       else Choice.avatar s;
     Choice.panel := enable (Choice.panel s);
     Choice.races :=
       (λ x, if Nat.eqb (Choice.req x) r then settled w x else x)
       <$> Choice.races s;
     Choice.delays := Choice.delays s;
     Choice.next_req := Choice.next_req s;
     Choice.region := Choice.region s |}.

(** What the page is told when the options are unlocked, with the status
    label of the place that unlocks. *)
Definition unlocking (label : string) : list Effect :=
  [SetOptionsEnabled true; SetDot "connected"; SetStatusLabel label;
   SetHint false].

Definition is_page (e : Effect) : bool :=
  match e with
  | SetOptionsEnabled _ | SetDot _ | SetStatusLabel _ | SetHint _ => true
  | _ => false
  end.

(** The page after the speak settled: [onSpeakEnd] unlocks when the SDK
    answered, the [catch] of [_askQuestion] unlocks when the speak did not
    complete. *)
Definition unlocked_page (w : Settling) : list Effect :=
  (if answered w then unlocking "Ready — select your answer" else [])
  ++ (if succeeded w then [] else unlocking "Select your answer").

(** The error the [catch] of [_askQuestion] receives. *)
Definition failure_of (w : Settling) : option string :=
  match w with
  | BySuccess result =>
      if Avatar.completed result then None
      else Some ("Speech synthesis failed (reason " +:+ Avatar.reason result
                 +:+ "): "
                 +:+ Js.or_str (Avatar.errorDetails result) "unknown error")
  | ByError err => Some err
  | ByTimeout => Some "Speech timeout"
  end.

Definition warnings (l : list Effect) : list string :=
  omap (λ e, match e with ConsoleWarn t => Some t | _ => None end) l.

(** The record [_askQuestion(idx)] leaves for its bounded speak [r]: waiting
    for the SDK and the timer when the manager could speak, settled with
    only the timer left when the speak was refused at once. *)
Definition asked (r idx : nat) (could_speak : bool) : Choice.Race :=
  {| Choice.req := r; Choice.kont := Choice.KAsk idx;
     Choice.unsettled := could_speak; Choice.sdk_pending := could_speak;
     Choice.timer_pending := true |}.

(** The controller after [_askQuestion(idx)] found the manager unable to
    speak: question [q] is on the page with its buttons enabled and the lock
    is off. *)
Definition refused_ask (idx : nat) (q : Question) (s : Choice.State)
    : Choice.State :=
  {| Choice.questions := Choice.questions s;
     Choice.currentIdx := idx;
     Choice.answers := Choice.answers s;
     Choice.answerLocked := false;
     Choice.avatar := Choice.avatar s;
     Choice.panel := Some (q, true);
     Choice.races := Choice.races s ++ [asked (Choice.next_req s) idx false];
     Choice.delays := Choice.delays s;
     Choice.next_req := S (Choice.next_req s);
     Choice.region := Choice.region s |}.

(** The controller after [_askQuestion(idx)] started the speech of [q]. *)
Definition speaking_ask (idx : nat) (q : Question) (s : Choice.State)
    : Choice.State :=
  {| Choice.questions := Choice.questions s;
     Choice.currentIdx := idx;
     Choice.answers := Choice.answers s;
     Choice.answerLocked := true;
     Choice.avatar := Avatar.set_isSpeaking true (Choice.avatar s);
     Choice.panel := Some (q, false);
     Choice.races := Choice.races s ++ [asked (Choice.next_req s) idx true];
     Choice.delays := Choice.delays s;
     Choice.next_req := S (Choice.next_req s);
     Choice.region := Choice.region s |}.

(** The state in which the first question is being spoken: the welcome
    speech completed and [_askQuestion(0)] is suspended on request 1. *)
Definition asking_first : Choice.State :=
  (Choice.run_from_start (Js.Normal tt) (Js.Normal tt)
     [Choice.SpeakResult 0 completed_result]
     (Choice.new connected_manager "eastus2")).1.

(** The methods entered, in order. *)
Definition entered (l : list Effect) : list Method :=
  omap (λ e, match e with Enter m => Some m | _ => None end) l.

(** A session in which the speech of the last question outlasts its 30 s
    bound: the welcome and the first four questions go normally (each speech
    completes, the user clicks an option, the 700 ms timer fires); the timer
    of question 5 (request 5) fires first, the user clicks B, the speech then
    completes within the 700 ms pause, the user clicks A, and the two 700 ms
    timers fire. *)
Definition late_speech_end : list Choice.Event := [
  Choice.SpeakResult 0 completed_result;
  Choice.SpeakResult 1 completed_result; Choice.Click "B"; Choice.DelayElapsed;
  Choice.SpeakResult 2 completed_result; Choice.Click "C"; Choice.DelayElapsed;
  Choice.SpeakResult 3 completed_result; Choice.Click "B"; Choice.DelayElapsed;
  Choice.SpeakResult 4 completed_result; Choice.Click "C"; Choice.DelayElapsed;
  Choice.RaceTimeout 5; Choice.Click "B";
  Choice.SpeakResult 5 completed_result; Choice.Click "A";
  Choice.DelayElapsed; Choice.DelayElapsed ].

(** The same session when the speech of question 5 completes in time. *)
Definition timely_speech_end : list Choice.Event := [
  Choice.SpeakResult 0 completed_result;
  Choice.SpeakResult 1 completed_result; Choice.Click "B"; Choice.DelayElapsed;
  Choice.SpeakResult 2 completed_result; Choice.Click "C"; Choice.DelayElapsed;
  Choice.SpeakResult 3 completed_result; Choice.Click "B"; Choice.DelayElapsed;
  Choice.SpeakResult 4 completed_result; Choice.Click "C"; Choice.DelayElapsed;
  Choice.SpeakResult 5 completed_result; Choice.Click "B";
  Choice.DelayElapsed ].

(** The event settles the bounded speak [r]. *)
Definition settles (r : nat) (e : Choice.Event) : bool :=
  match e with
  | Choice.SpeakResult r' _ | Choice.SpeakError r' _ | Choice.RaceTimeout r' =>
      Nat.eqb r' r
  | _ => false
  end.

(** Nothing is outstanding: no bounded speak is unsettled, the SDK owes no
    callback, no 700 ms timer is pending; request numbers are fresh. *)
Definition quiet (s : Choice.State) : Prop :=
  Choice.delays s = 0%nat
  ∧ Forall (λ x, Choice.unsettled x = false ∧ Choice.sdk_pending x = false
                 ∧ (Choice.req x < Choice.next_req s)%nat) (Choice.races s).

(** The claim as the specification words it: from the moment a question is
    put on the page and spoken until an answer for it is recorded,
    [answerLocked] is true. *)
Definition locked_until_accepted (synth_close peer_close : Js.Completion unit)
    : Prop :=
  ∀ manager region es,
    let s0 := (Choice.start synth_close peer_close
                 (Choice.new manager region)).1 in
    let s := (Choice.run synth_close peer_close es s0).1 in
    Choice.feasible synth_close peer_close es s0 = true →
    ∀ q b, Choice.panel s = Some (q, b) →
           Choice.answers s !! Js.String_ (id q) = None →
           Choice.answerLocked s = true.

(** The welcome speech completes, the first question is spoken, its speech
    completes. *)
Definition first_question_spoken : list Choice.Event := [
  Choice.SpeakResult 0 completed_result;
  Choice.SpeakResult 1 completed_result ].

(** Events that do not settle request 0. *)
Definition idle_events : list Choice.Event := [
  Choice.Click "B"; Choice.IceStateChange "connected"; Choice.DelayElapsed ].

(** *** Speech-input variant *)

(** [_askQuestion(idx)] is suspended on [_listenForAnswer], listen [l]: the
    promise is unresolved, the timer is armed, the recognizer has not called
    back. *)
Definition listening (l idx : nat) (s : Speech.State) : Prop :=
  ∃ x, Speech.find_listen l s = Some x
       ∧ Speech.asked x = idx
       ∧ Speech.unresolved x = true
       ∧ Speech.l_timer_pending x = true
       ∧ Speech.l_sdk_pending x = true.

(** The three ways a listen that has started can end. *)
Inductive Hearing :=
| Heard (result : Speech.RecognitionResult)
| HearingFails
| HearingTimesOut.

Definition hearing_event (l : nat) (w : Hearing) : Speech.Event :=
  match w with
  | Heard result => Speech.Recognized l result
  | HearingFails => Speech.RecognizeError l
  | HearingTimesOut => Speech.ListenTimeout l
  end.

(** The transcript when speech was recognized and is not empty, the empty
    string otherwise. *)
Definition answer_of (w : Hearing) : string :=
  match w with
  | Heard result =>
      if Speech.recognized result
      then default "" (Speech.r_text result)
      else ""
  | _ => ""
  end.

(** The acknowledgement for question [idx]. *)
Definition acknowledgement (idx : nat) : string :=
  Js.or_str (Speech.RESPONSES !! idx) "Thank you for your answer.".

Definition listen_resolutions (l : list Effect) : list (nat * string) :=
  omap (λ e, match e with
             | ListenResolved lid answer => Some (lid, answer)
             | _ => None
             end) l.

Definition recognizer_closes (l : list Effect) : list nat :=
  omap (λ e, match e with RecognizerClose lid => Some lid | _ => None end) l.

Definition speak_requests (l : list Effect) : list (nat * string) :=
  omap (λ e, match e with
             | SpeakTextAsync r text => Some (r, text)
             | _ => None
             end) l.

Definition timeouts_set (l : list Effect) : list Z :=
  omap (λ e, match e with SetTimeout ms => Some ms | _ => None end) l.

(** What the speech-input controller keeps between events, the page's
    transcript box apart. *)
Definition speech_fields (s : Speech.State)
    : list Speech.Question * nat * string * string :=
  (Speech.questions s, Speech.currentIdx s, Speech.speechToken s,
   Speech.region s).

(** The recognizer hears [t]. *)
Definition heard (t : string) : Speech.RecognitionResult :=
  {| Speech.recognized := true; Speech.r_text := Some t |}.

(** The first question of a session in which the user says [t]: welcome,
    question, answer, acknowledgement, pause, and the second question starts. *)
Definition answer_run (t : string) : list Speech.Event := [
  Speech.SpeakResult 0 completed_result;
  Speech.SpeakResult 1 completed_result;
  Speech.Recognized 0 (heard t);
  Speech.SpeakResult 2 completed_result;
  Speech.DelayElapsed ].

Definition always_listening (l : nat) : Speech.ListenSetup := Speech.Listening.

Definition speech_start : Speech.State :=
  Speech.new connected_manager "token" "eastus2".

(** The state after [answer_run t]. *)
Definition after_answer (t : string) : Speech.State :=
  (Speech.run_from_start always_listening (Js.Normal tt) (Js.Normal tt)
     (answer_run t) speech_start).1.

(** The state in which the first question has been spoken and the
    controller listens. *)
Definition listening_first : Speech.State :=
  (Speech.run_from_start always_listening (Js.Normal tt) (Js.Normal tt)
     [Speech.SpeakResult 0 completed_result;
      Speech.SpeakResult 1 completed_result] speech_start).1.

(** The record of a listen after one of its callbacks ran: the recognizer
    is closed once more and the timer is off; a callback of the recognizer is
    no longer owed. *)
Definition called_back (w : Hearing) (x : Speech.Listen) : Speech.Listen :=
  {| Speech.lid := Speech.lid x; Speech.asked := Speech.asked x;
     Speech.unresolved := Speech.unresolved x;
     Speech.l_timer_pending := false;
     Speech.l_sdk_pending :=
       match w with
       | HearingTimesOut => Speech.l_sdk_pending x
       | _ => false
       end;
     Speech.closes := S (Speech.closes x) |}.

(** The controller after a callback of listen [l] that resolves nothing:
    only the record of that listen changes. *)
Definition late_state (l : nat) (w : Hearing) (s : Speech.State)
    : Speech.State :=
  Speech.set_listens
    ((λ x, if Nat.eqb (Speech.lid x) l then called_back w x else x)
     <$> Speech.listens s) s.

(** What such a callback still does: it closes the recognizer and hides the
    microphone; a callback of the recognizer clears the timer first. *)
Definition late_log (l : nat) (w : Hearing) : list Effect :=
  match w with
  | HearingTimesOut => [RecognizerClose l; ShowMic false]
  | _ => [ClearTimeout; RecognizerClose l; ShowMic false]
  end.

(** Whether the microphone area shows, by the last [_showMic] of the log. *)
Definition mic (log : list Effect) : option bool :=
  last (omap (λ e, match e with ShowMic v => Some v | _ => None end) log).

(** The first listen times out, the interview goes on, and the second
    listen has started when the recognizer of the first one calls back. *)
Definition second_listen_started : list Speech.Event := [
  Speech.SpeakResult 0 completed_result;
  Speech.SpeakResult 1 completed_result;
  Speech.ListenTimeout 0;
  Speech.SpeakResult 2 completed_result;
  Speech.DelayElapsed;
  Speech.SpeakResult 3 completed_result ].

(** *** Further parts of the sources *)

(** [_updateProgress(current, total)] of both controllers: the width of the
    progress bar in percent, [total > 0 ? Math.round((current / total) * 100)
    : 0], and whether the label reads "Starting…" ([current === 0]) rather
    than "Question current of total". *)
Definition progress_pct (current total : nat) : Js.Num :=
  if (0 <? total)%nat then
    Js.Math_round (Js.of_Z (Z.of_nat current) / Js.of_Z (Z.of_nat total)
                   * Js.of_Z 100)%float
  else Some 0.

Definition progress_label (current total : nat) : string :=
  if (current =? 0)%nat then "Starting…"
  else "Question " +:+ pretty current +:+ " of " +:+ pretty total.

(** The number of questions up to which [score / total * 100] on doubles
    rounds like the exact quotient. *)
Definition exact_limit : nat := 39.

(** Does the double computation agree with exact round-half-up for [score]
    out of [total]? *)
Definition rounds_exactly (total score : nat) : bool :=
  match Js.Math_round (Js.of_Z (Z.of_nat score) / Js.of_Z (Z.of_nat total)
                       * Js.of_Z 100)%float with
  | Some p => Z.eqb p ((200 * Z.of_nat score + Z.of_nat total)
                       / (2 * Z.of_nat total))
  | None => false
  end.

(** Forty questions, the first twenty-three with correct option B and id 1,
    the others with correct option C and id 2. *)
Definition forty_questions : list Question :=
  replicate 23 {| id := 1; text := "q"; options := []; correct := "B" |}
  ++ replicate 17 {| id := 2; text := "q"; options := []; correct := "C" |}.

(** The rest of [AvatarManager]: [stopSpeaking] and the [ontrack] handler
    that [connect] installs on the peer connection. *)
Module AvatarRest.

(** [stopSpeaking()] up to its [await]: whether [stopSpeakingAsync] is
    called. *)
Definition stopSpeaking_calls (m : Avatar.Manager) : bool :=
  match Avatar._synthesizer m with
  | Some _ => Avatar.isSpeaking m
  | None => false
  end.

(** [stopSpeaking()] from the settlement of [stopSpeakingAsync] on: the
    [try]/[catch] swallows a rejection, then [this.isSpeaking = false]. *)
Definition stopSpeaking_resume (how : Js.Settlement unit)
    : Prog Avatar.Manager unit :=
  try_catch (await how) (λ _, mret tt);;
  modify (Avatar.set_isSpeaking false).

(** The whole call when nothing else runs during the [await]. *)
Definition stopSpeaking (how : Js.Settlement unit) : Prog Avatar.Manager unit :=
  m ← get;
  if stopSpeaking_calls m then stopSpeaking_resume how else mret tt.

(** How one [videoEl.play()] ends. *)
Inductive PlayOutcome := Plays | PlayRejects | PlayHangs.

Inductive PlayEvent :=
| Play            (* [videoEl.play()] *)
| Unmute          (* [videoEl.muted = false] *)
| WarnPlayFailed  (* [console.warn('[AvatarManager] play() failed:', err)] *)
| RetryIn500.     (* [setTimeout(() => tryPlay(attempts - 1), 500)] *)

(** [tryPlay(attempts)]; [outcome k] is how the [k]-th call of [play()]
    ends, [k] counting the calls made so far. *)
Fixpoint tryPlay (attempts : nat) (outcome : nat → PlayOutcome) (k : nat)
    : list PlayEvent :=
  Play ::
  match outcome k with
  | Plays => [Unmute]
  | PlayHangs => []
  | PlayRejects =>
      WarnPlayFailed ::
      match attempts with
      | O => []
      | S fewer => RetryIn500 :: tryPlay fewer outcome (S k)
      end
  end.

(** The [ontrack] handler: with a video element and a first stream it sets
    the source and calls [tryPlay(3)]. *)
Definition ontrack (has_video has_stream : bool) (outcome : nat → PlayOutcome)
    : list PlayEvent :=
  if has_video && has_stream then tryPlay 3 outcome 0 else [].

Definition plays (l : list PlayEvent) : nat :=
  length (List.filter (λ e, match e with Play => true | _ => false end) l).

Definition unmutes (l : list PlayEvent) : nat :=
  length (List.filter (λ e, match e with Unmute => true | _ => false end) l).

End AvatarRest.

(** A connect environment in which everything works. *)
Definition working_connect : Avatar.ConnectEnv :=
  {| Avatar.json_parse := λ _,
       Js.Normal (Avatar.IceObject (Avatar.UrlsSingle (Some "turn:relay"))
                    (Some "user") (Some "secret"));
     Avatar.new_peer_connection := Js.Normal tt;
     Avatar.add_transceivers := Js.Normal tt;
     Avatar.speech_config := Js.Normal tt;
     Avatar.new_synthesizer := Js.Normal tt;
     Avatar.start_avatar := Js.Fulfilled tt |}.

(** [connect] gets as far as calling [startAvatarAsync]: the token parses to
    an object and every constructor before the call works. *)
Definition reaches_start (env : Avatar.ConnectEnv) (iceTokenRaw : string)
    : bool :=
  match Avatar.json_parse env iceTokenRaw, Avatar.new_peer_connection env,
        Avatar.add_transceivers env, Avatar.speech_config env,
        Avatar.new_synthesizer env with
  | Js.Normal (Avatar.IceObject _ _ _), Js.Normal _, Js.Normal _, Js.Normal _,
    Js.Normal _ => true
  | _, _, _, _, _ => false
  end.

(** The ICE connection states on which the manager gives the connection up. *)
Definition connection_lost (state : string) : bool :=
  String.eqb state "disconnected" || String.eqb state "failed"
  || String.eqb state "closed".

(** ** The multiple-choice controller: what holds in every state *)

(** Every stored answer sits under the id of a question of the interview
    and is the id of one of that question's options. *)
Definition answers_offered (s : Choice.State) : Prop :=
  ∀ k v, Choice.answers s !! k = Some v →
         ∃ q, q ∈ Choice.questions s ∧ k = Js.String_ (id q)
              ∧ v ∈ oid <$> options q.

Definition choice_sound (s : Choice.State) : Prop :=
  Choice.questions s = QUESTIONS
  ∧ (Choice.currentIdx s < length (Choice.questions s))%nat
  ∧ buttons_of_current s
  ∧ answers_offered s.

(** The questions, the answers and a position in range. *)
Definition core (qs : list Question) (ans : gmap string string)
    (s : Choice.State) : Prop :=
  Choice.questions s = qs ∧ Choice.answers s = ans
  ∧ (Choice.currentIdx s < length qs)%nat.

Definition is_click (e : Choice.Event) : bool :=
  match e with Choice.Click _ => true | _ => false end.

(** The event is the ICE handler running on a manager whose peer connection
    is gone. *)
Definition ice_without_peer (e : Choice.Event) (s : Choice.State) : bool :=
  match e with
  | Choice.IceStateChange _ =>
      negb (bool_decide (is_Some (Avatar._peerConn (Choice.avatar s))))
  | _ => false
  end.

(** The questions and the answers. *)
Definition kept (qs : list Question) (ans : gmap string string)
    (s : Choice.State) : Prop :=
  Choice.questions s = qs ∧ Choice.answers s = ans.

(** A method is suspended on its bounded speak [r] and will go on as [k]:
    the race is unsettled, the SDK has not answered and the timer has not
    fired. *)
Definition awaiting (r : nat) (k : Choice.Kont) (s : Choice.State) : Prop :=
  ∃ x, Choice.find_race r s = Some x
       ∧ Choice.kont x = k
       ∧ Choice.unsettled x = true
       ∧ Choice.sdk_pending x = true
       ∧ Choice.timer_pending x = true.

(** The reports put on the results screen, and the [close()] calls made. *)
Definition shown (l : list Effect) : list Scoring.Report :=
  omap (λ e, match e with ShowResults d => Some d | _ => None end) l.

Definition closes (l : list Effect) : list Effect :=
  List.filter (λ e, match e with
                    | SynthesizerClose | PeerClose => true
                    | _ => false
                    end) l.

Definition closes_due (m : Avatar.Manager) : list Effect :=
  (if Avatar._synthesizer m is Some _ then [SynthesizerClose] else [])
  ++ (if Avatar._peerConn m is Some _ then [PeerClose] else []).

Definition torn_down (m : Avatar.Manager) : Prop :=
  Avatar._synthesizer m = None ∧ Avatar._peerConn m = None
  ∧ Avatar.isConnected m = false.

(** The race the last bounded speak registered. *)
Definition newest_race (s : Choice.State) : option Choice.Race :=
  last (Choice.races s).

(** After the five questions went normally [_finishInterview] waits on its
    first speech, request 6; when that completes it waits on request 7. *)
Definition finishing : Choice.State :=
  (Choice.run_from_start (Js.Normal tt) (Js.Normal tt) timely_speech_end
     (Choice.new connected_manager "eastus2")).1.

Definition reporting : Choice.State :=
  (Choice.step (Js.Normal tt) (Js.Normal tt)
     (Choice.SpeakResult 6 completed_result) finishing).1.

(** ** [init] *)

(** The requests sent, the texts put in the loading overlay, and whether
    the retry button was added. *)
Definition fetches (l : list Effect) : list string :=
  omap (λ e, match e with Fetch url => Some url | _ => None end) l.

Definition loading_texts (l : list Effect) : list string :=
  omap (λ e, match e with SetLoadingText t => Some t | _ => None end) l.

Definition retry_offered (l : list Effect) : bool :=
  existsb (λ e, match e with ShowRetryButton => true | _ => false end) l.

Definition peers_created (l : list Effect) : nat :=
  length (List.filter (λ e, match e with
                            | NewPeerConnection _ _ _ => true
                            | _ => false
                            end) l).

(** [connect] works: it gets as far as [startAvatarAsync], which
    fulfils. *)
Definition connects (env : Avatar.ConnectEnv) (iceTokenRaw : string) : bool :=
  reaches_start env iceTokenRaw
  && match Avatar.start_avatar env with
     | Js.Fulfilled _ => true
     | Js.Rejected _ => false
     end.

(** What the overlay shows for an error: [err.message || 'Unknown error']
    after the warning sign. *)
Definition failure_text (e : Js.Error) : string :=
  "⚠ " +:+ Js.or_str (Some (Js.message e)) "Unknown error".

(** Both token requests fail. *)
Definition no_network : Net.InitEnv :=
  {| Net.speech_fetch := Net.FetchRejects {| Js.message := "Failed to fetch" |};
     Net.ice_fetch := Net.Response 503 "Service Unavailable" (Net.BodyText "");
     Net.ice_first := false |}.

(** ** The speech-input controller: listening *)

(** The event is the ICE handler running on a manager whose peer connection
    is gone. *)
Definition speech_ice_without_peer (e : Speech.Event) (s : Speech.State)
    : bool :=
  match e with
  | Speech.IceStateChange _ =>
      negb (bool_decide (is_Some (Avatar._peerConn (Speech.avatar s))))
  | _ => false
  end.

(** The recognizers built. *)
Definition recognizers_made (l : list Effect) : list nat :=
  omap (λ e, match e with NewRecognizer lid => Some lid | _ => None end) l.

(** Listen ids are handed out in order. *)
Definition fresh_listens (s : Speech.State) : Prop :=
  Forall (λ y, (Speech.lid y < Speech.next_lid s)%nat) (Speech.listens s).

(** A recognizer setup that fails in [recognizeOnceAsync]. *)
Definition recognize_throws (l : nat) : Speech.ListenSetup :=
  Speech.RecognizeThrows {| Js.message := "recognizer failed" |}.

(** ** The speech-input controller: one thing at a time *)

(** What the controller waits for: a bounded speak that has not settled, a
    listen that has not resolved, a 600 ms pause. *)
Inductive Pending :=
| PRace (k : Speech.Kont)
| PListen (idx : nat)
| PDelay (idx : nat).

Definition pend_races (s : Speech.State) : list Speech.Kont :=
  Speech.kont <$> List.filter Speech.unsettled (Speech.races s).

Definition pend_listens (s : Speech.State) : list nat :=
  Speech.asked <$> List.filter Speech.unresolved (Speech.listens s).

Definition pending (s : Speech.State) : list Pending :=
  (PRace <$> pend_races s) ++ (PListen <$> pend_listens s)
  ++ (PDelay <$> Speech.delays s).

(** The calls of [_askQuestion] and [_finishInterview] an interview with [n]
    questions is meant to make, in order, and those a log shows. *)
Definition script (n : nat) : list Method :=
  (M_askQuestion <$> seq 0 (S n)) ++ [M_finishInterview].

Definition marks (l : list Effect) : list Method :=
  omap (λ e, match e with
             | Enter (M_askQuestion i) => Some (M_askQuestion i)
             | Enter M_finishInterview => Some M_finishInterview
             | _ => None
             end) l.

(** How far in the script the interview is while it waits for [p]. *)
Definition place (n : nat) (p : Pending) : nat :=
  match p with
  | PRace Speech.KWelcome => 0
  | PRace (Speech.KQuestion i) | PRace (Speech.KAck i) | PListen i
  | PDelay i => S i
  | PRace Speech.KBye => n + 2
  end.

Definition in_range (n : nat) (p : Pending) : Prop :=
  match p with
  | PRace (Speech.KQuestion i) | PRace (Speech.KAck i) | PListen i
  | PDelay i => (i < n)%nat
  | _ => True
  end.

(** The interview is [c] calls into its script: it waits for one thing,
    which says so, or for nothing, at the end. *)
Definition placed (n c : nat) (ps : list Pending) : Prop :=
  match ps with
  | [] => c = (n + 2)%nat
  | [p] => place n p = c ∧ in_range n p
  | _ => False
  end.

Definition at_place (qs : list Speech.Question) (c : nat) (s : Speech.State)
    : Prop :=
  Speech.questions s = qs ∧ placed (length qs) c (pending s).

(** The questions and what is waited for. *)
Definition shape (qs : list Speech.Question) (rs : list Speech.Kont)
    (ls ds : list nat) (s : Speech.State) : Prop :=
  Speech.questions s = qs ∧ pend_races s = rs ∧ pend_listens s = ls
  ∧ Speech.delays s = ds.

(** A program that, run in a state satisfying [P], ends normally, leaves the
    interview placed, and makes exactly the calls of the script that lie
    between the place [c] and the place it leaves. *)
Definition run_to (qs : list Speech.Question) (P : Speech.State → Prop)
    (c : nat) (p : Prog Speech.State unit) : Prop :=
  ∀ s, P s →
    (p s).1.1 = Js.Normal tt
    ∧ at_place qs (c + length (marks (p s).2)) (p s).1.2
    ∧ marks (p s).2
      = take (length (marks (p s).2)) (drop c (script (length qs))).

(** A program that makes no call of the script. *)
Definition silent {S A} (p : Prog S A) : Prop := ∀ s, marks (p s).2 = [].

(** ** The multiple-choice controller: the order of the questions *)

(** The closing calls, made [j] times over. *)
Definition closing (n j : nat) : list Method :=
  concat (replicate j [M_askQuestion n; M_finishInterview]).

(** No bounded speak that [_startInterview] waits on is unsettled. *)
Definition no_welcome (s : Choice.State) : Prop :=
  Forall (λ x, Choice.unsettled x = true → Choice.kont x ≠ Choice.KWelcome)
    (Choice.races s).

(** The welcome is over and question [c] is the current one. *)
Definition asking (qs : list Question) (c : nat) (s : Choice.State) : Prop :=
  Choice.questions s = qs ∧ Choice.currentIdx s = c ∧ no_welcome s.

(** The welcome is being spoken: nothing else is pending, no button is in
    the page. *)
Definition welcoming (qs : list Question) (s : Choice.State) : Prop :=
  Choice.questions s = qs ∧ Choice.currentIdx s = 0%nat
  ∧ Choice.delays s = 0%nat ∧ Choice.panel s = None
  ∧ Choice.kont <$> List.filter Choice.unsettled (Choice.races s)
    = [Choice.KWelcome].

(** Before [_startInterview]. *)
Definition unstarted (qs : list Question) (s : Choice.State) : Prop :=
  Choice.questions s = qs ∧ Choice.currentIdx s = 0%nat
  ∧ Choice.delays s = 0%nat ∧ Choice.panel s = None
  ∧ List.filter Choice.unsettled (Choice.races s) = [].

(** The calls of [_askQuestion] and [_finishInterview] made so far fit the
    state: none during the welcome; afterwards the questions up to the
    current one, each once and in order, and then the closing calls, if
    any. *)
Definition in_script (qs : list Question) (made : list Method)
    (s : Choice.State) : Prop :=
  (made = [] ∧ welcoming qs s)
  ∨ ∃ j, asking qs (Choice.currentIdx s) s
         ∧ (Choice.currentIdx s < length qs)%nat
         ∧ made = (M_askQuestion <$> seq 0 (S (Choice.currentIdx s)))
                  ++ closing (length qs) j
         ∧ ((0 < j)%nat → S (Choice.currentIdx s) = length qs).

(** A program that, run in a state satisfying [P], ends normally with the
    calls it made and the state it leaves related by [R]. *)
Definition does {S} (P : S → Prop) (p : Prog S unit)
    (R : list Method → S → Prop) : Prop :=
  ∀ s, P s → (p s).1.1 = Js.Normal tt ∧ R (marks (p s).2) (p s).1.2.

(** * Properties *)

(** ** Scoring *)

Section ScoringFacts.
Import Scoring.
Context (answers : gmap string string).

Lemma or_str_default (o : option string) : Js.or_str o "" = default "" o.
Proof.
  destruct o as [v|]; simpl; [|done].
  destruct (String.eqb v "") eqn:E; [|done].
  by apply String.eqb_eq in E.
Qed.

Lemma eqb_bool_decide (a b : string) : String.eqb a b = bool_decide (a = b).
Proof.
  destruct (String.eqb a b) eqn:E.
  - apply String.eqb_eq in E. by rewrite bool_decide_eq_true_2.
  - apply String.eqb_neq in E. by rewrite bool_decide_eq_false_2.
Qed.

Lemma score_question_spec q sc :
  score_question answers q sc =
    (expected_row answers q,
     if bool_decide (selection answers q = correct q) then sc + 1 else sc).
Proof.
  unfold score_question, expected_row, selection.
  by rewrite or_str_default, eqb_bool_decide.
Qed.

(** The walk keeps the order of the questions and adds one to the counter
    per match. *)
Lemma map_questions_spec qs sc :
  map_questions answers qs sc =
    (expected_row answers <$> qs,
     sc + Z.of_nat (length (filter (λ q, selection answers q = correct q) qs))).
Proof.
  revert sc. induction qs as [|q qs IH]; intros sc.
  - simpl. f_equal. lia.
  - cbn [map_questions]. rewrite score_question_spec, IH.
    rewrite filter_cons. simpl. f_equal.
    case_bool_decide; case_decide; try done; simpl; lia.
Qed.
End ScoringFacts.

(** On five questions the double [score / 5 * 100] rounds to [20 * score]. *)
Lemma percentage_of_five (n : nat) :
  (n ≤ 5)%nat →
  Js.Math_round (Js.of_Z (Z.of_nat n) / Js.of_Z 5 * Js.of_Z 100)%float
  = Some (20 * Z.of_nat n).
Proof.
  intros Hn.
  destruct n as [|[|[|[|[|[|n]]]]]]; try (vm_compute; reflexivity).
  lia.
Qed.

Lemma grade_of_spec (p : Z) :
  (Scoring.grade_of (Some p) = Scoring.Excellent ↔ 80 ≤ p)
  ∧ (Scoring.grade_of (Some p) = Scoring.Good ↔ 60 ≤ p < 80)
  ∧ (Scoring.grade_of (Some p) = Scoring.Average ↔ 40 ≤ p < 60)
  ∧ (Scoring.grade_of (Some p) = Scoring.NeedsImprovement ↔ p < 40).
Proof.
  unfold Scoring.grade_of, Js.ge.
  destruct (80 <=? p) eqn:E1; [apply Z.leb_le in E1|apply Z.leb_gt in E1];
  (destruct (60 <=? p) eqn:E2; [apply Z.leb_le in E2|apply Z.leb_gt in E2]);
  (destruct (40 <=? p) eqn:E3; [apply Z.leb_le in E3|apply Z.leb_gt in E3]);
  repeat split; intros; try lia; try done.
Qed.

Lemma toUpperCase_ascii_capital (c : ascii) :
  Js.toUpperCase_ascii c = capital c.
Proof.
  destruct c as [[] [] [] [] [] [] [] []]; vm_compute; reflexivity.
Qed.

Lemma toUpperCase_upper_cased (s : string) : Js.toUpperCase s = upper_cased s.
Proof.
  induction s as [|c s IH]; [done|]. cbn [Js.toUpperCase upper_cased].
  by rewrite toUpperCase_ascii_capital, IH.
Qed.

Lemma selection_shown (answers : gmap string string) (q : Question) :
  Scoring.selection answers q = shown_answer answers q.
Proof. apply toUpperCase_upper_cased. Qed.

Lemma expected_row_report_row (answers : gmap string string) (q : Question) :
  expected_row answers q = report_row answers q.
Proof. unfold expected_row, report_row. by rewrite selection_shown. Qed.

(** The report in terms of the rows and the count the claim describes. *)
Lemma scoreAnswers_on_spec (qs : list Question) (answers : gmap string string) :
  let n := length (filter (λ q, shown_answer answers q = correct q) qs) in
  Scoring.scoreAnswers_on qs answers
  = let percentage :=
      Js.Math_round (Js.of_Z (Z.of_nat n) / Js.of_Z (Z.of_nat (length qs))
                     * Js.of_Z 100)%float in
    {| Scoring.score := Z.of_nat n; Scoring.total := Z.of_nat (length qs);
       Scoring.percentage := percentage;
       Scoring.grade := Scoring.grade_of percentage;
       Scoring.results := report_row answers <$> qs |}.
Proof.
  intros n. unfold Scoring.scoreAnswers_on.
  rewrite map_questions_spec, Z.add_0_l.
  rewrite (list_filter_iff _ (λ q, shown_answer answers q = correct q))
    by (intros q; by rewrite selection_shown).
  fold n. cbv zeta. f_equal.
  apply list_fmap_ext. intros _ q _. apply expected_row_report_row.
Qed.

(** C1. For every record of ASCII answers, [_scoreAnswers] walks the five
    questions in their original order, reading the record under the keys 1
    to 5; for each it takes the recorded answer, the empty string when there
    is none, with the letters a to z replaced by A to Z, and compares it with
    the question's correct option; [score] counts the matches, [total] is the
    number of questions, [percentage] is [score / total * 100] rounded half
    up, and the grade is Excellent from 80, Good from 60, Average from 40 and
    NeedsImprovement below.  All five answers right give 5, 5, 100 and
    Excellent, in upper case and in lower case alike; one right answer in
    lower case, one wrong answer and three questions left out give 1, 5, 20
    and NeedsImprovement. *)
Theorem scoreAnswers_correct (answers : gmap string string) :
  plain_answers answers →
  let r := Scoring._scoreAnswers answers in
  let sel := λ q, upper_cased (default "" (answers !! Js.String_ (id q))) in
  Scoring.results r =
    (λ q, {| Scoring.r_id := id q; Scoring.r_text := text q;
             Scoring.r_options := options q; Scoring.selected := sel q;
             Scoring.r_correct := correct q;
             Scoring.is_correct := bool_decide (sel q = correct q) |})
    <$> QUESTIONS
  ∧ (λ q, Js.String_ (id q)) <$> QUESTIONS = ["1"; "2"; "3"; "4"; "5"]
  ∧ Scoring.score r
    = Z.of_nat (length (filter (λ q, sel q = correct q) QUESTIONS))
  ∧ Scoring.total r = Z.of_nat (length QUESTIONS)
  ∧ (∃ p, Scoring.percentage r = Some p
          ∧ Scoring.is_round_half_up p (Scoring.score r * 100) (Scoring.total r)
          ∧ (Scoring.grade r = Scoring.Excellent ↔ 80 ≤ p)
          ∧ (Scoring.grade r = Scoring.Good ↔ 60 ≤ p < 80)
          ∧ (Scoring.grade r = Scoring.Average ↔ 40 ≤ p < 60)
          ∧ (Scoring.grade r = Scoring.NeedsImprovement ↔ p < 40))
  ∧ (let r5 := Scoring._scoreAnswers all_correct in
     Scoring.score r5 = 5 ∧ Scoring.total r5 = 5
     ∧ Scoring.percentage r5 = Some 100
     ∧ Scoring.grade r5 = Scoring.Excellent)
  ∧ (let r5 := Scoring._scoreAnswers lower_case_answers in
     Scoring.selected <$> Scoring.results r5 = ["B"; "C"; "B"; "C"; "B"]
     ∧ Scoring.is_correct <$> Scoring.results r5
       = [true; true; true; true; true]
     ∧ Scoring.score r5 = 5 ∧ Scoring.total r5 = 5
     ∧ Scoring.percentage r5 = Some 100
     ∧ Scoring.grade r5 = Scoring.Excellent)
  ∧ (let r1 := Scoring._scoreAnswers partial_answers in
     Scoring.selected <$> Scoring.results r1 = ["B"; ""; "A"; ""; ""]
     ∧ Scoring.is_correct <$> Scoring.results r1
       = [true; false; false; false; false]
     ∧ Scoring.score r1 = 1 ∧ Scoring.total r1 = 5
     ∧ Scoring.percentage r1 = Some 20
     ∧ Scoring.grade r1 = Scoring.NeedsImprovement).
Proof.
  intros _ r sel. subst r.
  assert (Hr : Scoring._scoreAnswers answers
               = Scoring.scoreAnswers_on QUESTIONS answers) by done.
  rewrite scoreAnswers_on_spec in Hr. cbv zeta in Hr.
  set (n := length (filter (λ q, shown_answer answers q = correct q)
                      QUESTIONS)) in Hr.
  assert (Hn : (n ≤ 5)%nat) by (subst n; apply (length_filter _ QUESTIONS)).
  change (Z.of_nat (length QUESTIONS)) with 5 in *.
  rewrite (percentage_of_five n Hn) in Hr.
  rewrite Hr. cbn [Scoring.results Scoring.score Scoring.total
                 Scoring.percentage Scoring.grade].
  split; [reflexivity|]. split; [reflexivity|]. split; [reflexivity|].
  split; [reflexivity|]. split; [|split; [|split]].
  - exists (20 * Z.of_nat n). split; [done|]. split.
    + unfold Scoring.is_round_half_up. lia.
    + apply grade_of_spec.
  - vm_compute. done.
  - vm_compute. done.
  - vm_compute. done.
Qed.

Lemma scoreAnswers_correct_witness :
  plain_answers lower_case_answers
  ∧ Scoring.score (Scoring._scoreAnswers lower_case_answers)
    = Z.of_nat (length (filter (λ q, shown_answer lower_case_answers q
                                     = correct q) QUESTIONS)).
Proof.
  assert (H : plain_answers lower_case_answers).
  { apply map_Forall_to_list. vm_compute. repeat constructor. }
  split; [exact H|].
  exact (proj1 (proj2 (proj2 (scoreAnswers_correct lower_case_answers H)))).
Defined.

(** ** Scoring: further properties *)

Lemma score_question_ext (a1 a2 : gmap string string) (q : Question) sc :
  Scoring.selection a1 q = Scoring.selection a2 q →
  Scoring.score_question a1 q sc = Scoring.score_question a2 q sc.
Proof. intros H. rewrite !score_question_spec. unfold expected_row. by rewrite H. Qed.

Lemma map_questions_ext (a1 a2 : gmap string string) (qs : list Question) sc :
  (∀ q, q ∈ qs → Scoring.selection a1 q = Scoring.selection a2 q) →
  Scoring.map_questions a1 qs sc = Scoring.map_questions a2 qs sc.
Proof.
  revert sc. induction qs as [|q qs IH]; intros sc H; [done|].
  cbn [Scoring.map_questions].
  rewrite (score_question_ext a1 a2 q sc) by (apply H; left).
  destruct (Scoring.score_question a2 q sc) as [row sc1].
  rewrite IH; [done|]. intros q' Hq'. apply H. by right.
Qed.

Lemma scoreAnswers_on_ext (qs : list Question) (a1 a2 : gmap string string) :
  (∀ q, q ∈ qs → Scoring.selection a1 q = Scoring.selection a2 q) →
  Scoring.scoreAnswers_on qs a1 = Scoring.scoreAnswers_on qs a2.
Proof.
  intros H. unfold Scoring.scoreAnswers_on.
  by rewrite (map_questions_ext a1 a2 qs 0 H).
Qed.

(** The report depends on the answer record only through the recorded
    answers of the questions asked, upper-cased, a missing answer counting as
    the empty string: entries under other keys and the letter case of an
    answer make no difference. *)
Theorem scoring_reads_selections (qs : list Question)
    (a1 a2 : gmap string string) :
  (∀ q, q ∈ qs → Scoring.selection a1 q = Scoring.selection a2 q) →
  Scoring.scoreAnswers_on qs a1 = Scoring.scoreAnswers_on qs a2.
Proof. apply scoreAnswers_on_ext. Qed.

Lemma scoring_reads_selections_witness :
  (∀ q, q ∈ QUESTIONS →
        Scoring.selection (<["1" := "b"]> ∅) q
        = Scoring.selection (<["9" := "D"]> (<["1" := "B"]> ∅)) q)
  ∧ Scoring._scoreAnswers (<["1" := "b"]> ∅)
    = Scoring._scoreAnswers (<["9" := "D"]> (<["1" := "B"]> ∅)).
Proof.
  assert (H : ∀ q, q ∈ QUESTIONS →
            Scoring.selection (<["1" := "b"]> ∅) q
            = Scoring.selection (<["9" := "D"]> (<["1" := "B"]> ∅)) q).
  { intros q Hq. unfold QUESTIONS in Hq.
    repeat (apply elem_of_cons in Hq as [->|Hq]; [vm_compute; reflexivity|]).
    by apply elem_of_nil in Hq. }
  split; [exact H|].
  apply (scoring_reads_selections QUESTIONS _ _ H).
Defined.

Lemma toUpperCase_ascii_idem (c : ascii) :
  Js.toUpperCase_ascii (Js.toUpperCase_ascii c) = Js.toUpperCase_ascii c.
Proof.
  destruct c as [[] [] [] [] [] [] [] []]; vm_compute; reflexivity.
Qed.

Lemma toUpperCase_idem (s : string) :
  Js.toUpperCase (Js.toUpperCase s) = Js.toUpperCase s.
Proof.
  induction s as [|c s IH]; [done|]. cbn.
  by rewrite toUpperCase_ascii_idem, IH.
Qed.

(** Upper-casing every recorded answer beforehand changes nothing, and an
    entry under a key that is no question id can be added or dropped. *)
Theorem scoring_ignores_case_and_strays (qs : list Question)
    (answers : gmap string string) (k v : string) :
  Scoring.scoreAnswers_on qs (Js.toUpperCase <$> answers)
  = Scoring.scoreAnswers_on qs answers
  ∧ (k ∉ (λ q, Js.String_ (id q)) <$> qs →
     Scoring.scoreAnswers_on qs (<[k := v]> answers)
     = Scoring.scoreAnswers_on qs answers
     ∧ Scoring.scoreAnswers_on qs (delete k answers)
       = Scoring.scoreAnswers_on qs answers).
Proof.
  split.
  - apply scoreAnswers_on_ext. intros q _. unfold Scoring.selection.
    rewrite lookup_fmap.
    destruct (answers !! Js.String_ (id q)) as [a|]; cbn; [|done].
    apply toUpperCase_idem.
  - intros Hk.
    assert (Hne : ∀ q, q ∈ qs → k ≠ Js.String_ (id q)).
    { intros q Hq ->. apply Hk. apply list_elem_of_fmap. by exists q. }
    split; apply scoreAnswers_on_ext; intros q Hq;
      unfold Scoring.selection.
    + by rewrite lookup_insert_ne by (by apply Hne).
    + by rewrite lookup_delete_ne by (by apply Hne).
Qed.

(** The shape of the report, for any list of questions whose ids are
    integers below 2^53 and any record of ASCII answers: one row per
    question, in the order of the list, with the question's id, text, options
    and correct option; the row's selection is the answer recorded under the
    decimal numeral of the id, the empty string when there is none, with a to
    z replaced by A to Z; the row is marked correct exactly when that is the
    correct option; the score counts the questions so marked and lies between
    0 and the total, which is the number of questions.  An unanswered
    question has the empty selection and is never counted unless its correct
    option is the empty string. *)
Theorem report_shape (qs : list Question) (answers : gmap string string) :
  plain_answers answers → plain_ids qs →
  let r := Scoring.scoreAnswers_on qs answers in
  let sel := λ q, upper_cased (default "" (answers !! Js.String_ (id q))) in
  Scoring.results r =
    (λ q, {| Scoring.r_id := id q; Scoring.r_text := text q;
             Scoring.r_options := options q; Scoring.selected := sel q;
             Scoring.r_correct := correct q;
             Scoring.is_correct := bool_decide (sel q = correct q) |})
    <$> qs
  ∧ Scoring.score r = Z.of_nat (length (filter (λ q, sel q = correct q) qs))
  ∧ Scoring.score r
    = Z.of_nat (length (filter (λ row, Scoring.is_correct row = true)
                          (Scoring.results r)))
  ∧ Scoring.total r = Z.of_nat (length qs)
  ∧ 0 ≤ Scoring.score r ≤ Scoring.total r
  ∧ Forall (λ p, answers !! Js.String_ (id p.1) = None →
                 Scoring.selected p.2 = ""
                 ∧ (correct p.1 ≠ "" → Scoring.is_correct p.2 = false))
      (zip qs (Scoring.results r)).
Proof.
  intros _ _ r sel. subst r. rewrite scoreAnswers_on_spec. cbv zeta.
  cbn [Scoring.results Scoring.score Scoring.total].
  assert (Hfilter :
    length (filter (λ row, Scoring.is_correct row = true)
              (report_row answers <$> qs))
    = length (filter (λ q, shown_answer answers q = correct q) qs)).
  { induction qs as [|q qs IH]; [done|].
    rewrite fmap_cons, !filter_cons. cbn [report_row Scoring.is_correct].
    destruct (decide (shown_answer answers q = correct q)) as [E|E];
      destruct (decide (bool_decide (shown_answer answers q = correct q)
                        = true)) as [E'|E'];
      try (apply bool_decide_eq_true in E'); try done.
    - cbn [length]. by rewrite IH.
    - exfalso. apply E'. by apply bool_decide_eq_true. }
  split; [reflexivity|]. split; [reflexivity|].
  split; [by rewrite Hfilter|]. split; [done|]. split.
  { pose proof (length_filter (λ q, shown_answer answers q = correct q) qs).
    lia. }
  clear Hfilter. induction qs as [|q qs IH]; [constructor|].
  cbn. constructor; [|exact IH].
  cbn. intros Hnone. unfold shown_answer. rewrite Hnone. cbn.
  split; [done|]. intros Hc. apply bool_decide_eq_false. congruence.
Qed.

Lemma report_shape_witness :
  plain_answers partial_answers ∧ plain_ids QUESTIONS
  ∧ Scoring.selected <$> Scoring.results
                           (Scoring.scoreAnswers_on QUESTIONS partial_answers)
    = ["B"; ""; "A"; ""; ""].
Proof.
  assert (Ha : plain_answers partial_answers).
  { apply map_Forall_to_list. vm_compute. repeat constructor. }
  assert (Hq : plain_ids QUESTIONS) by (repeat constructor).
  split; [exact Ha|]. split; [exact Hq|].
  rewrite (proj1 (report_shape QUESTIONS partial_answers Ha Hq)).
  vm_compute. reflexivity.
Defined.

(** *** Rounding on doubles *)

Lemma rounds_exactly_table :
  forallb (λ t, forallb (rounds_exactly t) (seq 0 (S t))) (seq 1 exact_limit)
  = true.
Proof. vm_compute. reflexivity. Qed.

Lemma rounds_exactly_upto (total score : nat) :
  (1 ≤ total ≤ exact_limit)%nat → (score ≤ total)%nat →
  Js.Math_round (Js.of_Z (Z.of_nat score) / Js.of_Z (Z.of_nat total)
                 * Js.of_Z 100)%float
  = Some ((200 * Z.of_nat score + Z.of_nat total) / (2 * Z.of_nat total)).
Proof.
  intros Ht Hs.
  pose proof rounds_exactly_table as H.
  rewrite forallb_forall in H.
  specialize (H total). rewrite in_seq in H.
  specialize (H ltac:(lia)).
  rewrite forallb_forall in H.
  specialize (H score). rewrite in_seq in H.
  specialize (H ltac:(lia)).
  unfold rounds_exactly in H.
  destruct (Js.Math_round _) as [p|]; [|done].
  apply Z.eqb_eq in H. by rewrite H.
Qed.

Lemma exact_round_spec (num den : Z) :
  0 < den → 0 ≤ num ≤ 100 * den →
  let p := (2 * num + den) / (2 * den) in
  Scoring.is_round_half_up p num den ∧ 0 ≤ p ≤ 100.
Proof.
  intros Hden Hnum p. unfold Scoring.is_round_half_up.
  pose proof (Z.div_mod (2 * num + den) (2 * den) ltac:(lia)) as Hdm.
  pose proof (Z.mod_pos_bound (2 * num + den) (2 * den) ltac:(lia)) as Hmod.
  fold p in Hdm.
  assert (0 ≤ p) by (apply Z.div_pos; lia).
  assert (p < 101) by (apply Z.div_lt_upper_bound; lia).
  replace ((2 * p - 1) * den) with (2 * den * p - den) by ring.
  replace ((2 * p + 1) * den) with (2 * den * p + den) by ring.
  repeat split; lia.
Qed.

(** With no question the percentage is NaN and the grade the lowest one.
    With 1 to 39 questions the percentage the doubles give is the exact
    round-half-up of [score / total * 100], a whole number from 0 to 100.
    The bound is sharp: 23 right out of 40 is 57.5 percent, and the doubles
    give 57. *)
Theorem percentage_rounding (qs : list Question)
    (answers : gmap string string) :
  (length qs ≤ exact_limit)%nat →
  let r := Scoring.scoreAnswers_on qs answers in
  match qs with
  | [] => Scoring.percentage r = None
          ∧ Scoring.grade r = Scoring.NeedsImprovement
  | _ => ∃ p, Scoring.percentage r = Some p
              ∧ Scoring.is_round_half_up p (Scoring.score r * 100)
                  (Scoring.total r)
              ∧ 0 ≤ p ≤ 100
  end
  ∧ Scoring.percentage
      (Scoring.scoreAnswers_on forty_questions (<["1" := "B"]> ∅)) = Some 57
  ∧ Scoring.is_round_half_up 58 (23 * 100) 40.
Proof.
  intros Hlen r. split; [|split; [vm_compute; reflexivity|]].
  2: { unfold Scoring.is_round_half_up. lia. }
  destruct qs as [|q0 qs']; [subst r; split; vm_compute; reflexivity|].
  subst r. set (qs := q0 :: qs') in *.
  unfold Scoring.scoreAnswers_on. rewrite map_questions_spec.
  cbn [Scoring.results Scoring.score Scoring.total Scoring.percentage].
  rewrite Z.add_0_l.
  pose proof (length_filter (λ q, Scoring.selection answers q = correct q)
                qs) as Hsc.
  set (n := length (filter _ qs)) in *.
  assert (Hq : (1 ≤ length qs)%nat) by (subst qs; cbn; lia).
  rewrite rounds_exactly_upto by lia.
  eexists. split; [reflexivity|].
  pose proof (exact_round_spec (Z.of_nat n * 100) (Z.of_nat (length qs))
                ltac:(lia) ltac:(lia)) as (H1 & H2).
  replace (200 * Z.of_nat n) with (2 * (Z.of_nat n * 100)) by lia.
  by split.
Qed.

Lemma percentage_rounding_witness :
  (length QUESTIONS ≤ exact_limit)%nat
  ∧ ∃ p, Scoring.percentage (Scoring.scoreAnswers_on QUESTIONS all_correct)
         = Some p ∧ 0 ≤ p ≤ 100.
Proof.
  assert (H : (length QUESTIONS ≤ exact_limit)%nat) by (vm_compute; lia).
  split; [exact H|].
  destruct (percentage_rounding QUESTIONS all_correct H)
    as ((p & Hp & _ & Hr) & _).
  by exists p.
Defined.

(** The progress bar of [_updateProgress]: with no question the width is 0
    percent, never NaN; with 1 to 39 questions and a position from 0 to the
    total it is the exact round-half-up percentage, a whole number from 0 to
    100, 0 at the start and 100 only once the position is within half a
    percent of the total.  The label reads "Starting…" exactly at
    position 0. *)
Theorem progress_bar (current total : nat) :
  (current ≤ total ≤ exact_limit)%nat →
  (total = 0%nat → progress_pct current total = Some 0)
  ∧ ((0 < total)%nat →
     ∃ p, progress_pct current total = Some p
          ∧ Scoring.is_round_half_up p (Z.of_nat current * 100)
              (Z.of_nat total)
          ∧ 0 ≤ p ≤ 100
          ∧ (current = 0%nat → p = 0)
          ∧ (current = total → p = 100))
  ∧ (progress_label current total = "Starting…" ↔ current = 0%nat).
Proof.
  intros Hct. split; [|split].
  - intros ->. reflexivity.
  - intros Ht. unfold progress_pct.
    replace (0 <? total)%nat with true by (symmetry; apply Nat.ltb_lt; lia).
    rewrite rounds_exactly_upto by lia.
    eexists. split; [reflexivity|].
    pose proof (exact_round_spec (Z.of_nat current * 100) (Z.of_nat total)
                  ltac:(lia) ltac:(lia)) as (H1 & H2).
    replace (200 * Z.of_nat current) with (2 * (Z.of_nat current * 100))
      by lia.
    split; [exact H1|]. split; [exact H2|]. split.
    + intros ->. cbn. apply Z.div_small. lia.
    + intros ->. unfold Scoring.is_round_half_up in H1.
      set (p := (2 * (Z.of_nat total * 100) + Z.of_nat total)
                / (2 * Z.of_nat total)) in *. nia.
  - unfold progress_label. destruct (current =? 0)%nat eqn:E.
    + apply Nat.eqb_eq in E. by split.
    + apply Nat.eqb_neq in E. split; [|done]. intros H. exfalso.
      revert H. generalize (pretty current +:+ " of " +:+ pretty total).
      intros s H. cbn in H. discriminate.
Qed.

Lemma progress_bar_witness :
  (3 ≤ 5 ≤ exact_limit)%nat ∧ progress_pct 3 5 = Some 60.
Proof.
  assert (H : (3 ≤ 5 ≤ exact_limit)%nat) by (unfold exact_limit; lia).
  split; [exact H|].
  destruct (progress_bar 3 5 H) as (_ & Hp & _).
  destruct (Hp ltac:(lia)) as (p & -> & Hr & _).
  unfold Scoring.is_round_half_up in Hr. f_equal. lia.
Defined.
(** ** Running programs *)

(** Unfold the program combinators and compute. *)
Ltac prog_unfold :=
  unfold mbind, mret, prog_bind, prog_ret, get, modify, emit, throw, extern,
    try_catch, await, when, zoom in *.

Ltac prog_run := repeat (progress (prog_unfold; cbn -[String.append] in *)).

(** A program keeps a property of the state: whatever it returns or throws,
    the state it leaves has the property when the state it got had it. *)
Definition keeps {S A} (P : S → Prop) (p : Prog S A) : Prop :=
  ∀ s, P s → P (p s).1.2.

Section Keeps.
Context {S : Type} (P : S → Prop).

Lemma keeps_ret {A} (a : A) : keeps P (mret a).
Proof. intros s H. exact H. Qed.

Lemma keeps_bind {A B} (m : Prog S A) (f : A → Prog S B) :
  keeps P m → (∀ a, keeps P (f a)) → keeps P (m ≫= f).
Proof.
  intros Hm Hf s H. specialize (Hm s H). prog_unfold.
  destruct (m s) as [[[a|e] s1] l1]; [|exact Hm].
  specialize (Hf a s1 Hm). cbn in *.
  by destruct (f a s1) as [[r s2] l2].
Qed.

Lemma keeps_get : keeps P get.
Proof. intros s H. exact H. Qed.

Lemma keeps_emit (e : Effect) : keeps P (emit e).
Proof. intros s H. exact H. Qed.

Lemma keeps_throw {A} (e : Js.Error) : keeps P (throw (A:=A) e).
Proof. intros s H. exact H. Qed.

Lemma keeps_extern {A} (c : Js.Completion A) : keeps P (extern c).
Proof. intros s H. exact H. Qed.

Lemma keeps_modify (f : S → S) : (∀ s, P s → P (f s)) → keeps P (modify f).
Proof. intros Hf s H. by apply Hf. Qed.

Lemma keeps_await {A} (p : Js.Settlement A) : keeps P (await p).
Proof. destruct p; intros s H; exact H. Qed.

Lemma keeps_when (b : bool) (p : Prog S unit) :
  keeps P p → keeps P (when b p).
Proof. destruct b; [done|]. intros _ s H. exact H. Qed.

Lemma keeps_try_catch {A} (body : Prog S A) (handler : Js.Error → Prog S A) :
  keeps P body → (∀ e, keeps P (handler e)) → keeps P (try_catch body handler).
Proof.
  intros Hb Hh s H. specialize (Hb s H). prog_unfold.
  destruct (body s) as [[[a|e] s1] l1]; [exact Hb|].
  specialize (Hh e s1 Hb). cbn in *.
  by destruct (handler e s1) as [[r s2] l2].
Qed.
End Keeps.

(** A program that never throws, and pre- and postconditions on the state. *)
Definition total {S A} (p : Prog S A) : Prop :=
  ∀ s, ∃ a, (p s).1.1 = Js.Normal a.

Definition hoare {S A} (P : S → Prop) (p : Prog S A) (Q : S → Prop) : Prop :=
  ∀ s, P s → Q (p s).1.2.

Section Hoare.
Context {S : Type}.

Lemma total_ret {A} (a : A) : total (S:=S) (mret a).
Proof. intros s. by exists a. Qed.

Lemma total_get : total (S:=S) get.
Proof. intros s. by exists s. Qed.

Lemma total_emit (e : Effect) : total (S:=S) (emit e).
Proof. intros s. by exists tt. Qed.

Lemma total_modify (f : S → S) : total (modify f).
Proof. intros s. by exists tt. Qed.

Lemma total_bind {A B} (m : Prog S A) (f : A → Prog S B) :
  total m → (∀ a, total (f a)) → total (m ≫= f).
Proof.
  intros Hm Hf s. destruct (Hm s) as [a Ha]. prog_unfold.
  destruct (m s) as [[r s1] l1]. cbn in Ha. subst r.
  destruct (Hf a s1) as [b Hb].
  destruct (f a s1) as [[r2 s2] l2]. cbn in *. by exists b.
Qed.

Lemma total_when (b : bool) (p : Prog S unit) : total p → total (when b p).
Proof. destruct b; [done|]. intros _ s. by exists tt. Qed.

Lemma total_try_catch {A} (body : Prog S A) (handler : Js.Error → Prog S A) :
  (∀ e, total (handler e)) → total (try_catch body handler).
Proof.
  intros Hh s. prog_unfold.
  destruct (body s) as [[[a|e] s1] l1]; [by exists a|].
  destruct (Hh e s1) as [b Hb].
  destruct (handler e s1) as [[r2 s2] l2]. cbn in *. by exists b.
Qed.

Lemma hoare_seq {A B} (P Q R : S → Prop) (m : Prog S A) (f : A → Prog S B) :
  total m → hoare P m Q → (∀ a, hoare Q (f a) R) → hoare P (m ≫= f) R.
Proof.
  intros Ht Hm Hf s HP. specialize (Hm s HP). destruct (Ht s) as [a Ha].
  prog_unfold. destruct (m s) as [[r s1] l1]. cbn in *. subst r.
  specialize (Hf a s1 Hm). by destruct (f a s1) as [[r2 s2] l2].
Qed.

Lemma hoare_get {B} (P Q : S → Prop) (f : S → Prog S B) :
  (∀ s0, P s0 → hoare (λ s, s = s0) (f s0) Q) → hoare P (get ≫= f) Q.
Proof.
  intros Hf s HP. specialize (Hf s HP s eq_refl). prog_unfold. cbn.
  by destruct (f s s) as [[r2 s2] l2].
Qed.

Lemma hoare_keeps {A} (P : S → Prop) (p : Prog S A) : keeps P p → hoare P p P.
Proof. intros H. exact H. Qed.

Lemma hoare_pre {A} (P P' Q : S → Prop) (p : Prog S A) :
  (∀ s, P s → P' s) → hoare P' p Q → hoare P p Q.
Proof. intros HP H s Hs. apply H, HP, Hs. Qed.

Lemma hoare_modify (P Q : S → Prop) (f : S → S) :
  (∀ s, P s → Q (f s)) → hoare P (modify f) Q.
Proof. intros H s Hs. by apply H. Qed.

Lemma hoare_emit (P : S → Prop) (e : Effect) : hoare P (emit e) P.
Proof. intros s Hs. exact Hs. Qed.
End Hoare.

(** Looking up by key in a list after updating the entries with a key. *)
Lemma find_update_same {A} (key : A → nat) (r : nat) (f : A → A)
    (l : list A) :
  (∀ x, key (f x) = key x) →
  find (λ x, Nat.eqb (key x) r)
    ((λ x, if Nat.eqb (key x) r then f x else x) <$> l)
  = f <$> find (λ x, Nat.eqb (key x) r) l.
Proof.
  intros Hf. induction l as [|y l IH]; [done|].
  cbn. destruct (Nat.eqb (key y) r) eqn:E.
  - cbn. by rewrite Hf, E.
  - cbn. rewrite E. apply IH.
Qed.

Lemma find_update_different {A} (key : A → nat) (r r' : nat) (f : A → A)
    (l : list A) :
  r' ≠ r → (∀ x, key (f x) = key x) →
  find (λ x, Nat.eqb (key x) r)
    ((λ x, if Nat.eqb (key x) r' then f x else x) <$> l)
  = find (λ x, Nat.eqb (key x) r) l.
Proof.
  intros Hne Hf. induction l as [|y l IH]; [done|].
  cbn. destruct (Nat.eqb (key y) r') eqn:E'.
  - apply Nat.eqb_eq in E'. rewrite Hf.
    destruct (Nat.eqb (key y) r) eqn:E;
      [apply Nat.eqb_eq in E; congruence|]. apply IH.
  - destruct (Nat.eqb (key y) r); [done|apply IH].
Qed.

Lemma find_appended {A} (key : A → nat) (r : nat) (x : A) (l : list A) :
  Forall (λ y, (key y < r)%nat) l → key x = r →
  find (λ y, Nat.eqb (key y) r) (l ++ [x]) = Some x.
Proof.
  intros Hl Hx. induction Hl as [|y l Hy Hl IH]; cbn.
  - by rewrite Hx, Nat.eqb_refl.
  - destruct (Nat.eqb (key y) r) eqn:E; [|exact IH].
    apply Nat.eqb_eq in E. lia.
Qed.

(** Break a program into its parts, leaving the state updates to check. *)
Ltac keeps_step :=
  lazymatch goal with
  | |- keeps _ (mret _) => apply keeps_ret
  | |- keeps _ get => apply keeps_get
  | |- keeps _ (emit _) => apply keeps_emit
  | |- keeps _ (throw _) => apply keeps_throw
  | |- keeps _ (extern _) => apply keeps_extern
  | |- keeps _ (await _) => apply keeps_await
  | |- keeps _ (_ ≫= _) => apply keeps_bind; [|intros ?]
  | |- keeps _ (try_catch _ _) => apply keeps_try_catch; [|intros ?]
  | |- keeps _ (when _ _) => apply keeps_when
  | |- keeps _ (modify _) => apply keeps_modify
  | |- keeps _ (match ?x with _ => _ end) => destruct x
  | |- keeps _ (if ?x then _ else _) => destruct x
  end.

Ltac keeps_auto := repeat keeps_step.

(** ** The avatar manager *)

(** C9. [disconnect] always completes normally, whatever the two [close()]
    calls do; it leaves the synthesizer and the peer connection [null] and
    [isConnected] false; a second call right after changes nothing in the
    manager and closes nothing. *)
Theorem disconnect_idempotent (m : Avatar.Manager)
    (synth1 peer1 synth2 peer2 : Js.Completion unit) :
  let first := Avatar.disconnect synth1 peer1 m in
  let second := Avatar.disconnect synth2 peer2 first.1.2 in
  first.1.1 = Js.Normal tt
  ∧ second.1.1 = Js.Normal tt
  ∧ Avatar._synthesizer first.1.2 = None
  ∧ Avatar._peerConn first.1.2 = None
  ∧ Avatar.isConnected first.1.2 = false
  ∧ Avatar.isSpeaking first.1.2 = Avatar.isSpeaking m
  ∧ second.1.2 = first.1.2
  ∧ second.2 = [ConsoleLog "[AvatarManager] Disconnected."].
Proof.
  destruct m as [[[]|] [[]|] conn speaking];
    destruct synth1 as [[]|e1], peer1 as [[]|e2];
    repeat split; reflexivity.
Qed.

Lemma choice_callbacks_plain : plain_callbacks Choice.callbacks.
Proof.
  intros c. split; cbn; repeat constructor.
Qed.

(** C10. When the synthesizer is missing or the manager is not connected,
    [speak] hands back a rejected promise, leaves the manager and the client
    untouched ([isSpeaking] included) and invokes no callback.  Otherwise it
    sets [isSpeaking], invokes [onSpeakStart] once and then starts the
    synthesis; whichever callback the SDK answers with, [isSpeaking] is reset,
    [onSpeakEnd] is invoked once, and only then the promise settles: resolved
    when the synthesis completed, rejected otherwise. *)
Theorem speak_lifecycle {C} (cb : Avatar.Callbacks C) (req : nat)
    (text : string) (m : Avatar.Manager) (c : C)
    (a : SdkAnswer) (m' : Avatar.Manager) (c' : C) :
  plain_callbacks cb →
  let called := Avatar.speak cb req text (m, c) in
  let answered := answer_speak cb req a (m', c') in
  if ready m then
    called.1.1 = Js.Normal Avatar.Pending
    ∧ called.1.2 = (Avatar.set_isSpeaking true m, (Avatar.onSpeakStart cb c).1)
    ∧ (∃ own, called.2 = OnSpeakStart :: own ++ [SpeakTextAsync req text]
              ∧ Forall (λ e, lifecycle_mark e = false) own)
    ∧ (∃ how own,
         answered.1.1 = Js.Normal how
         ∧ answered.2 = OnSpeakEnd :: own ++ [SpeakSettled req how]
         ∧ Forall (λ e, lifecycle_mark e = false) own
         ∧ (how = Js.Fulfilled tt
            ↔ ∃ result, a = Succeeds result ∧ Avatar.completed result = true))
    ∧ Avatar.isSpeaking answered.1.2.1 = false
    ∧ answered.1.2.2 = (Avatar.onSpeakEnd cb c').1
  else
    called.1.1 = Js.Normal (Avatar.AlreadyRejected Avatar.not_connected)
    ∧ called.1.2 = (m, c)
    ∧ called.2 = [SpeakSettled req (Js.Rejected Avatar.not_connected)].
Proof.
  intros Hcb called answered. subst called answered.
  destruct (Hcb c) as [Hstart _]. destruct (Hcb c') as [_ Hend].
  destruct m as [[[]|] peer [|] speaking]; cbn [ready Avatar._synthesizer
    Avatar.isConnected]; try (repeat split; reflexivity).
  unfold Avatar.speak, Avatar.invoke, Avatar.on_manager. prog_run.
  destruct (Avatar.onSpeakStart cb c) as [c1 l1] eqn:E1. prog_run.
  split; [done|]. split; [done|]. split.
  { by exists l1. }
  destruct a as [result|err];
    unfold answer_speak, Avatar.speak_result, Avatar.speak_error,
      Avatar.invoke, Avatar.on_manager; prog_run;
    destruct (Avatar.onSpeakEnd cb c') as [c2 l2] eqn:E2; prog_run.
  - destruct (Avatar.completed result) eqn:Ec; prog_run.
    + split; [|done].
      eexists _, l2. split; [done|]. split; [by rewrite ?app_nil_r|].
      split; [done|]. split; [|done]. intros _. by exists result.
    + split; [|done].
      eexists _, (l2 ++ [ConsoleError _]). split; [done|].
      split; [by rewrite <- ?app_assoc|].
      split; [apply Forall_app; split; [done|by repeat constructor]|].
      split; [done|]. intros (r & Hr & Hc). congruence.
  - split; [|done].
    eexists _, (l2 ++ [ConsoleError _]). split; [done|].
    split; [by rewrite <- ?app_assoc|].
    split; [apply Forall_app; split; [done|by repeat constructor]|].
    split; [done|]. intros (r & Hr & Hc). congruence.
Qed.

Lemma speak_lifecycle_witness :
  plain_callbacks Choice.callbacks
  ∧ (Avatar.speak Choice.callbacks 0 "Hello"
       (connected_manager, Choice.new connected_manager "eastus2")).1.1
    = Js.Normal Avatar.Pending.
Proof.
  split; [apply choice_callbacks_plain|].
  pose proof (speak_lifecycle Choice.callbacks 0 "Hello" connected_manager
    (Choice.new connected_manager "eastus2") (Succeeds completed_result)
    connected_manager (Choice.new connected_manager "eastus2")
    choice_callbacks_plain) as H.
  apply H.
Defined.

(** ** The avatar manager: further properties *)

(** *** Playing the incoming stream *)

Lemma tryPlay_counts (attempts : nat) (outcome : nat → AvatarRest.PlayOutcome)
    (k : nat) :
  let l := AvatarRest.tryPlay attempts outcome k in
  (1 ≤ AvatarRest.plays l ≤ S attempts)%nat
  ∧ (AvatarRest.unmutes l ≤ 1)%nat
  ∧ (AvatarRest.unmutes l = 1%nat
     ↔ ∃ j, (j ≤ attempts)%nat ∧ outcome (k + j)%nat = AvatarRest.Plays
            ∧ (∀ i, (i < j)%nat →
                    outcome (k + i)%nat = AvatarRest.PlayRejects)
            ∧ AvatarRest.plays l = S j)
  ∧ ((∀ i, (i ≤ attempts)%nat → outcome (k + i)%nat = AvatarRest.PlayRejects)
     → AvatarRest.plays l = S attempts).
Proof.
  revert k. induction attempts as [|a IH]; intros k l; subst l.
  - cbn [AvatarRest.tryPlay].
    destruct (outcome k) eqn:E.
    + cbn. split; [lia|]. split; [lia|]. split.
      * split; [intros _|done]. exists 0%nat. rewrite Nat.add_0_r.
        split; [lia|]. split; [done|]. split; [|done]. intros i Hi. lia.
      * intros H. specialize (H 0%nat ltac:(lia)). rewrite Nat.add_0_r in H.
        congruence.
    + cbn. split; [lia|]. split; [lia|]. split.
      * split; [done|]. intros (j & Hj & Ho & _).
        assert (j = 0%nat) as -> by lia. rewrite Nat.add_0_r in Ho.
        congruence.
      * done.
    + cbn. split; [lia|]. split; [lia|]. split.
      * split; [done|]. intros ([|j] & Hj & Ho & Hbefore & _).
        { rewrite Nat.add_0_r in Ho. congruence. }
        specialize (Hbefore 0%nat ltac:(lia)). rewrite Nat.add_0_r in Hbefore.
        congruence.
      * intros H. specialize (H 0%nat ltac:(lia)). rewrite Nat.add_0_r in H.
        congruence.
  - cbn [AvatarRest.tryPlay].
    destruct (outcome k) eqn:E.
    + cbn. split; [lia|]. split; [lia|]. split.
      * split; [intros _|done]. exists 0%nat. rewrite Nat.add_0_r.
        split; [lia|]. split; [done|]. split; [|done]. intros i Hi. lia.
      * intros H. specialize (H 0%nat ltac:(lia)). rewrite Nat.add_0_r in H.
        congruence.
    + specialize (IH (S k)). cbv zeta in IH.
      destruct IH as (Hp & Hu & Hiff & Hall).
      unfold AvatarRest.plays, AvatarRest.unmutes in *.
      cbn [List.filter length].
      split; [lia|]. split; [lia|]. split.
      * rewrite Hiff. split.
        -- intros (j & Hj & Ho & Hbefore & Hplays). exists (S j).
           split; [lia|]. split; [by rewrite Nat.add_succ_r|].
           split; [|lia].
           intros [|i] Hi; [by rewrite Nat.add_0_r|].
           rewrite Nat.add_succ_r. apply Hbefore. lia.
        -- intros ([|j] & Hj & Ho & Hbefore & Hplays).
           { rewrite Nat.add_0_r in Ho. congruence. }
           exists j. split; [lia|].
           split; [by rewrite Nat.add_succ_r in Ho|].
           split; [|lia]. intros i Hi.
           specialize (Hbefore (S i) ltac:(lia)).
           by rewrite Nat.add_succ_r in Hbefore.
      * intros H. rewrite Hall; [done|]. intros i Hi.
        specialize (H (S i) ltac:(lia)). by rewrite Nat.add_succ_r in H.
    + cbn. split; [lia|]. split; [lia|]. split.
      * split; [done|]. intros ([|j] & Hj & Ho & Hbefore & _).
        { rewrite Nat.add_0_r in Ho. congruence. }
        specialize (Hbefore 0%nat ltac:(lia)). rewrite Nat.add_0_r in Hbefore.
        congruence.
      * intros H. specialize (H 0%nat ltac:(lia)). rewrite Nat.add_0_r in H.
        congruence.
Qed.

(** The [ontrack] handler calls [play()] at most four times, only while the
    calls before were rejected, and unmutes the video at most once, exactly
    when one of these calls succeeds; four rejections end the retries;
    without a video element or a stream it does nothing. *)
Theorem ontrack_retries (has_video has_stream : bool)
    (outcome : nat → AvatarRest.PlayOutcome) :
  let l := AvatarRest.ontrack has_video has_stream outcome in
  (AvatarRest.plays l ≤ 4)%nat
  ∧ (AvatarRest.unmutes l ≤ 1)%nat
  ∧ (has_video && has_stream = false → l = [])
  ∧ (has_video && has_stream = true →
     (AvatarRest.unmutes l = 1%nat
      ↔ ∃ j, (j ≤ 3)%nat ∧ outcome j = AvatarRest.Plays
             ∧ (∀ i, (i < j)%nat → outcome i = AvatarRest.PlayRejects)
             ∧ AvatarRest.plays l = S j)
     ∧ ((∀ i, (i ≤ 3)%nat → outcome i = AvatarRest.PlayRejects) →
        AvatarRest.plays l = 4%nat ∧ AvatarRest.unmutes l = 0%nat))
  .
Proof.
  intros l. subst l. unfold AvatarRest.ontrack.
  destruct (has_video && has_stream) eqn:E.
  - pose proof (tryPlay_counts 3 outcome 0) as (Hp & Hu & Hiff & Hall).
    cbv zeta in *. cbn [Nat.add] in *.
    split; [lia|]. split; [lia|]. split; [done|]. intros _.
    split; [exact Hiff|].
    intros H. split; [by apply Hall|].
    destruct (decide (AvatarRest.unmutes (AvatarRest.tryPlay 3 outcome 0)
                      = 1%nat)) as [H1|H1]; [|lia].
    apply Hiff in H1 as (j & Hj & Ho & _). rewrite H in Ho by done.
    congruence.
  - cbn. split; [lia|]. split; [lia|]. split; [done|]. done.
Qed.

(** *** Connecting *)

(** [connect] on a manager that is not connected: it completes normally
    exactly when it leaves [isConnected] true, and the client's [onConnected]
    runs once in that case and not at all otherwise.  A token that does not
    parse, or parses to [null], is refused before anything is created: the
    manager and the client are untouched and no SDK call is made.  When
    [startAvatarAsync] rejects, the peer connection and the synthesizer stay
    in place with [isConnected] false. *)
Theorem connect_outcomes {C} (cb : Avatar.Callbacks C) (env : Avatar.ConnectEnv)
    (speechToken region iceTokenRaw : string) (m : Avatar.Manager) (c : C) :
  Avatar.isConnected m = false →
  let out := Avatar.connect cb env speechToken region iceTokenRaw (m, c) in
  (out.1.1 = Js.Normal tt ↔ Avatar.isConnected out.1.2.1 = true)
  ∧ (out.1.1 = Js.Normal tt →
     out.1.2 = ({| Avatar._synthesizer := Some Avatar.AvatarSynthesizer;
                   Avatar._peerConn := Some Avatar.RTCPeerConnection;
                   Avatar.isConnected := true;
                   Avatar.isSpeaking := Avatar.isSpeaking m |},
                (Avatar.onConnected cb c).1))
  ∧ (out.1.1 ≠ Js.Normal tt → out.1.2.2 = c)
  ∧ (match Avatar.json_parse env iceTokenRaw with
     | Js.Normal (Avatar.IceObject _ _ _) => True
     | _ => out.1.2 = (m, c) ∧ out.2 = []
     end)
  ∧ (if reaches_start env iceTokenRaw then
       match Avatar.start_avatar env with
       | Js.Fulfilled _ => out.1.1 = Js.Normal tt
       | Js.Rejected e =>
           out.1.1 = Js.Throw e
           ∧ out.1.2.1
             = {| Avatar._synthesizer := Some Avatar.AvatarSynthesizer;
                  Avatar._peerConn := Some Avatar.RTCPeerConnection;
                  Avatar.isConnected := false;
                  Avatar.isSpeaking := Avatar.isSpeaking m |}
       end
     else out.1.1 ≠ Js.Normal tt).
Proof.
  intros Hm out. subst out.
  destruct m as [synth peer conn speaking]. cbn in Hm. subst conn.
  destruct env as [parse np at_ sc ns sa].
  unfold Avatar.connect, Avatar.on_manager, Avatar.invoke, reaches_start.
  cbn [Avatar.json_parse Avatar.new_peer_connection Avatar.add_transceivers
       Avatar.speech_config Avatar.new_synthesizer Avatar.start_avatar].
  destruct (parse iceTokenRaw) as [[|urls user pw]|e0]; prog_run.
  1, 3: by repeat split; try done; intros ?; done.
  destruct np as [[]|e1], at_ as [[]|e2], sc as [[]|e3], ns as [[]|e4],
    sa as [[]|e5]; prog_run;
    destruct (Avatar.onConnected cb c) as [c1 l1] eqn:Ecb; prog_run;
    repeat split; try done; try (intros; congruence).
Qed.

Lemma connect_outcomes_witness :
  Avatar.isConnected Avatar.new = false
  ∧ (Avatar.connect Choice.callbacks working_connect "token" "eastus2" "{}"
       (Avatar.new, Choice.new Avatar.new "eastus2")).1.1 = Js.Normal tt.
Proof.
  split; [reflexivity|].
  apply (connect_outcomes Choice.callbacks working_connect "token" "eastus2"
           "{}" Avatar.new (Choice.new Avatar.new "eastus2") eq_refl).
Defined.

(** *** Speaking needs a live connection *)

(** [speak] goes to the SDK right after a [connect] that worked, and is
    rejected at once, without touching the manager or the client, after
    [disconnect], after a [connect] that failed, and after the peer
    connection reported "disconnected", "failed" or "closed", which also
    clears [isConnected] and runs [onDisconnected].  Any other ICE state
    changes nothing.  On a manager without peer connection (after
    [disconnect]) the ICE handler throws a TypeError before it logs or
    changes anything. *)
Theorem speak_needs_connection {C} (cb : Avatar.Callbacks C)
    (env : Avatar.ConnectEnv) (speechToken region iceTokenRaw state : string)
    (synth_close peer_close : Js.Completion unit)
    (m : Avatar.Manager) (c : C) (req : nat) (text : string) :
  let rejected st :=
    Avatar.speak cb req text st
    = (Js.Normal (Avatar.AlreadyRejected Avatar.not_connected), st,
       [SpeakSettled req (Js.Rejected Avatar.not_connected)]) in
  let connected :=
    (Avatar.connect cb env speechToken region iceTokenRaw
       (Avatar.new, c)) in
  let closed := (Avatar.disconnect synth_close peer_close m).1.2 in
  let changed := Avatar.ice_state_change cb state (m, c) in
  rejected (closed, c)
  ∧ (match Avatar._peerConn m with
     | None => changed = (Js.Throw Avatar.null_peer, (m, c), [])
     | Some _ =>
         changed.1.1 = Js.Normal tt
         ∧ if connection_lost state then
             rejected changed.1.2
             ∧ changed.1.2 = (Avatar.set_isConnected false m,
                              (Avatar.onDisconnected cb c).1)
           else changed.1.2 = (m, c)
     end)
  ∧ (match connected.1.1 with
     | Js.Normal _ =>
         (Avatar.speak cb req text connected.1.2).1.1
         = Js.Normal Avatar.Pending
     | Js.Throw _ => rejected connected.1.2
     end).
Proof.
  intros rejected connected closed changed.
  subst rejected connected closed changed. split; [|split].
  - destruct m as [[[]|] [[]|] conn speaking],
      synth_close as [[]|e1], peer_close as [[]|e2]; reflexivity.
  - unfold Avatar.ice_state_change, Avatar.ice_state_seen, Avatar.invoke,
      Avatar.on_manager, connection_lost.
    destruct m as [synth [peer|] conn speaking]; prog_run; [|done].
    destruct (String.eqb state "disconnected" || String.eqb state "failed"
              || String.eqb state "closed"); prog_run; [|done].
    destruct (Avatar.onDisconnected cb c) as [c1 l1]. prog_run.
    split; [done|]. split; [|done]. unfold Avatar.speak. prog_run.
    by destruct synth.
  - destruct env as [parse np at_ sc ns sa].
    unfold Avatar.connect, Avatar.on_manager, Avatar.invoke.
    cbn [Avatar.json_parse Avatar.new_peer_connection Avatar.add_transceivers
         Avatar.speech_config Avatar.new_synthesizer Avatar.start_avatar].
    destruct (parse iceTokenRaw) as [[|urls user pw]|e0]; prog_run;
      [reflexivity| |reflexivity].
    destruct np as [[]|e1], at_ as [[]|e2], sc as [[]|e3], ns as [[]|e4],
      sa as [[]|e5]; prog_run;
      destruct (Avatar.onConnected cb c) as [c1 l1] eqn:Ecb; prog_run;
      try reflexivity.
    unfold Avatar.speak, Avatar.invoke, Avatar.on_manager. prog_run.
    by destruct (Avatar.onSpeakStart cb c1).
Qed.

(** *** Interrupting *)

Lemma last_after {A} (a : A) (l tail : list A) (x : A) :
  last (a :: l ++ tail ++ [x]) = Some x.
Proof.
  change (a :: l ++ tail ++ [x]) with ((a :: l) ++ tail ++ [x]).
  by rewrite app_assoc, last_snoc.
Qed.

(** [stopSpeaking] never throws, whatever [stopSpeakingAsync] does.  On a
    manager that is speaking it resets [isSpeaking] and nothing else: the
    client's [onSpeakEnd] does not run and the promise of the interrupted
    [speak] stays unsettled until the SDK calls back, which still runs
    [onSpeakEnd] once and settles it.  Without a synthesizer, or when not
    speaking, it calls nothing and changes nothing, so a second call in a row
    does nothing. *)
Theorem stopSpeaking_silent {C} (cb : Avatar.Callbacks C)
    (how how' : Js.Settlement unit) (m : Avatar.Manager) (c : C)
    (req : nat) (text : string) (a : SdkAnswer) :
  let stopped := AvatarRest.stopSpeaking how m in
  let again := AvatarRest.stopSpeaking how' stopped.1.2 in
  stopped.1.1 = Js.Normal tt
  ∧ stopped.2 = []
  ∧ stopped.1.2
    = (if AvatarRest.stopSpeaking_calls m then Avatar.set_isSpeaking false m
       else m)
  ∧ AvatarRest.stopSpeaking_calls stopped.1.2 = false
  ∧ again = (Js.Normal tt, stopped.1.2, [])
  ∧ (ready m = true →
     let spoken := Avatar.speak cb req text (m, c) in
     let interrupted :=
       (AvatarRest.stopSpeaking how spoken.1.2.1).1.2 in
     let answered := answer_speak cb req a (interrupted, spoken.1.2.2) in
     AvatarRest.stopSpeaking_calls spoken.1.2.1 = true
     ∧ interrupted = Avatar.set_isSpeaking false m
     ∧ ready interrupted = true
     ∧ spoken.1.2.2 = (Avatar.onSpeakStart cb c).1
     ∧ answered.1.2.2 = (Avatar.onSpeakEnd cb (Avatar.onSpeakStart cb c).1).1
     ∧ ∃ settled, answered.1.1 = Js.Normal settled
                  ∧ last answered.2 = Some (SpeakSettled req settled)).
Proof.
  intros stopped again. subst stopped again.
  split; [by destruct m as [[[]|] peer conn [|]], how as [[]|e]|].
  split; [by destruct m as [[[]|] peer conn [|]], how as [[]|e]|].
  split; [by destruct m as [[[]|] peer conn [|]], how as [[]|e]|].
  split; [by destruct m as [[[]|] peer conn [|]], how as [[]|e]|].
  split; [by destruct m as [[[]|] peer conn [|]], how as [[]|e],
            how' as [[]|e']|].
  intros Hready. cbv zeta.
  destruct m as [[[]|] peer conn speaking]; cbn in Hready; [|discriminate].
  subst conn.
  unfold Avatar.speak, Avatar.invoke, Avatar.on_manager,
    AvatarRest.stopSpeaking, AvatarRest.stopSpeaking_resume.
  destruct how as [[]|e]; prog_run;
    destruct (Avatar.onSpeakStart cb c) as [c1 l1]; prog_run;
    (split; [reflexivity|]); (split; [reflexivity|]);
    (split; [reflexivity|]); (split; [reflexivity|]).
  all: destruct a as [result|err];
    unfold answer_speak, Avatar.speak_result, Avatar.speak_error,
      Avatar.invoke, Avatar.on_manager; prog_run;
    destruct (Avatar.onSpeakEnd cb c1) as [c2 l2]; prog_run;
    try destruct (Avatar.completed result); prog_run;
    (split; [reflexivity|]); eexists; (split; [reflexivity|]);
    first [ apply (last_after _ _ [])
          | apply (last_after _ _ [_]) ].
Qed.

Lemma stopSpeaking_silent_witness :
  ready connected_manager = true
  ∧ (AvatarRest.stopSpeaking (Js.Rejected {| Js.message := "busy" |})
       (Avatar.speak Choice.callbacks 0 "Hello"
          (connected_manager,
           Choice.new connected_manager "eastus2")).1.2.1).1.2
    = Avatar.set_isSpeaking false connected_manager.
Proof.
  split; [reflexivity|].
  pose proof (stopSpeaking_silent Choice.callbacks
    (Js.Rejected {| Js.message := "busy" |}) (Js.Fulfilled tt)
    connected_manager (Choice.new connected_manager "eastus2") 0 "Hello"
    (Succeeds completed_result)) as (_ & _ & _ & _ & _ & H).
  apply (H eq_refl).
Defined.

(** ** More rules for programs *)

Section MoreRules.
Context {S : Type}.

Lemma keeps_get_bind {B} (P : S → Prop) (f : S → Prog S B) :
  (∀ a, P a → keeps P (f a)) → keeps P (get ≫= f).
Proof.
  intros Hf s Hs. specialize (Hf s Hs s Hs). prog_unfold. cbn.
  by destruct (f s s) as [[r s2] l2].
Qed.

Lemma keeps_zoom {T A} (P : T → Prop) (Q : S → Prop) (proj : T → S)
    (inj : S → T → T) (p : Prog S A) :
  (∀ t, P t → Q (proj t)) → keeps Q p →
  (∀ s t, P t → Q s → P (inj s t)) → keeps P (zoom proj inj p).
Proof.
  intros H1 Hp H3 t Ht. unfold zoom.
  specialize (Hp (proj t) (H1 t Ht)).
  destruct (p (proj t)) as [[r s] l]. cbn in *. by apply H3.
Qed.

Lemma total_zoom {T A} (proj : T → S) (inj : S → T → T) (p : Prog S A) :
  total p → total (zoom proj inj p).
Proof.
  intros Hp t. unfold zoom. destruct (Hp (proj t)) as [a Ha].
  destruct (p (proj t)) as [[r s] l]. cbn in *. by exists a.
Qed.

Lemma total_if {A} (b : bool) (p q : Prog S A) :
  total p → total q → total (if b then p else q).
Proof. by destruct b. Qed.

Lemma total_await_caught (r : Js.Settlement unit) (h : Js.Error → Prog S unit) :
  (∀ e, total (h e)) → total (try_catch (await r) h).
Proof. apply total_try_catch. Qed.
End MoreRules.

Lemma prog_eta {S A} (p : Js.Completion A * S * list Effect) :
  (let '(r, s, l) := p in (r, s, [] ++ l)) = p.
Proof. by destruct p as [[r s] l]. Qed.

(** The ICE handler with and without a peer connection. *)
Lemma ice_state_change_live {C} (cb : Avatar.Callbacks C) (state : string)
    (st : Avatar.Manager * C) :
  is_Some (Avatar._peerConn st.1) →
  Avatar.ice_state_change cb state st = Avatar.ice_state_seen cb state st.
Proof.
  intros [p Hp]. unfold Avatar.ice_state_change. prog_unfold. cbn.
  rewrite Hp. apply prog_eta.
Qed.

Lemma ice_state_change_dead {C} (cb : Avatar.Callbacks C) (state : string)
    (st : Avatar.Manager * C) :
  Avatar._peerConn st.1 = None →
  Avatar.ice_state_change cb state st = (Js.Throw Avatar.null_peer, st, []).
Proof.
  intros Hp. unfold Avatar.ice_state_change. prog_unfold. cbn.
  by rewrite Hp.
Qed.

Lemma keeps_invoke {C} (P : C → Prop) (mark : Effect)
    (f : C → C * list Effect) :
  (∀ c, P c → P (f c).1) →
  keeps (λ st : Avatar.Manager * C, P st.2) (Avatar.invoke mark f).
Proof.
  intros Hf st Hst. unfold Avatar.invoke. specialize (Hf st.2 Hst).
  by destruct (f st.2) as [c l].
Qed.

Lemma total_invoke {C} (mark : Effect) (f : C → C * list Effect) :
  total (S:=Avatar.Manager * C) (Avatar.invoke mark f).
Proof.
  intros st. unfold Avatar.invoke. destruct (f st.2) as [c l]. by exists tt.
Qed.

(** The manager's operations never throw, [connect] and the ICE handler
    apart. *)
Lemma total_speak {C} (cb : Avatar.Callbacks C) r text :
  total (Avatar.speak cb r text).
Proof.
  unfold Avatar.speak, Avatar.on_manager.
  apply total_bind; [apply total_get|intros st].
  destruct (Avatar._synthesizer st.1), (Avatar.isConnected st.1);
    repeat (apply total_bind;
            [first [apply total_emit|apply total_modify|apply total_invoke]
            |intros]);
    apply total_ret.
Qed.

Lemma total_answer_speak {C} (cb : Avatar.Callbacks C) r a :
  total (answer_speak cb r a).
Proof.
  destruct a as [result|err]; cbn [answer_speak];
    unfold Avatar.speak_result, Avatar.speak_error, Avatar.on_manager;
    try destruct (Avatar.completed result);
    repeat (apply total_bind;
            [first [apply total_emit|apply total_modify|apply total_invoke]
            |intros]);
    apply total_ret.
Qed.

Lemma total_ice_state_seen {C} (cb : Avatar.Callbacks C) state :
  total (Avatar.ice_state_seen cb state).
Proof.
  unfold Avatar.ice_state_seen, Avatar.on_manager.
  apply total_bind; [apply total_emit|intros].
  apply total_when.
  apply total_bind; [apply total_modify|intros]. apply total_invoke.
Qed.

Lemma total_disconnect synth_close peer_close :
  total (Avatar.disconnect synth_close peer_close).
Proof.
  unfold Avatar.disconnect.
  apply total_bind; [apply total_get|intros m].
  apply total_bind.
  { destruct (Avatar._synthesizer m); [|apply total_ret].
    apply total_bind; [|intros; apply total_modify].
    apply total_try_catch. intros. apply total_ret. }
  intros _. apply total_bind; [apply total_get|intros m'].
  apply total_bind.
  { destruct (Avatar._peerConn m'); [|apply total_ret].
    apply total_bind; [|intros; apply total_modify].
    apply total_try_catch. intros. apply total_ret. }
  intros _. apply total_bind; [apply total_modify|intros]. apply total_emit.
Qed.

(** Take a program apart for [total]. *)
Ltac total_step :=
  lazymatch goal with
  | |- total (mret _) => apply total_ret
  | |- total get => apply total_get
  | |- total (emit _) => apply total_emit
  | |- total (modify _) => apply total_modify
  | |- total (_ ≫= _) => apply total_bind; [|intros ?]
  | |- total (try_catch _ _) => apply total_try_catch; intros ?
  | |- total (when _ _) => apply total_when
  | |- total (zoom _ _ _) => apply total_zoom
  | |- total (Avatar.speak _ _ _) => apply total_speak
  | |- total (Avatar.speak_result _ ?r ?x) =>
      apply (total_answer_speak _ r (Succeeds x))
  | |- total (Avatar.speak_error _ ?r ?x) =>
      apply (total_answer_speak _ r (Fails x))
  | |- total (Avatar.ice_state_seen _ _) => apply total_ice_state_seen
  | |- total (Avatar.disconnect _ _) => apply total_disconnect
  | |- total (match ?x with _ => _ end) => destruct x eqn:?
  | |- total (if ?x then _ else _) => destruct x eqn:?
  end.

Ltac total_auto := repeat total_step.

(** ** Programs and the calls they log *)

Ltac head_of t := lazymatch t with ?f _ => head_of f | _ => t end.

Section Silent.
Context {S : Type}.

Lemma marks_app l1 l2 : marks (l1 ++ l2) = marks l1 ++ marks l2.
Proof. apply omap_app. Qed.

Lemma silent_ret {A} (a : A) : silent (S:=S) (mret a).
Proof. by intros s. Qed.

Lemma silent_get : silent (S:=S) get.
Proof. by intros s. Qed.

Lemma silent_modify (f : S → S) : silent (modify f).
Proof. by intros s. Qed.

Lemma silent_throw {A} (e : Js.Error) : silent (S:=S) (throw (A:=A) e).
Proof. by intros s. Qed.

Lemma silent_extern {A} (c : Js.Completion A) : silent (S:=S) (extern c).
Proof. by intros s. Qed.

Lemma silent_await {A} (r : Js.Settlement A) : silent (S:=S) (await r).
Proof. by destruct r; intros s. Qed.

Lemma silent_emit (e : Effect) : marks [e] = [] → silent (S:=S) (emit e).
Proof. by intros He s. Qed.

Lemma silent_bind {A B} (m : Prog S A) (f : A → Prog S B) :
  silent m → (∀ a, silent (f a)) → silent (m ≫= f).
Proof.
  intros Hm Hf s. specialize (Hm s). prog_unfold.
  destruct (m s) as [[[a|e] s1] l1]; cbn [fst snd] in *; [|done].
  specialize (Hf a s1). destruct (f a s1) as [[r2 s2] l2]. cbn [fst snd] in *.
  by rewrite marks_app, Hm, Hf.
Qed.

Lemma silent_try_catch {A} (body : Prog S A) (h : Js.Error → Prog S A) :
  silent body → (∀ e, silent (h e)) → silent (try_catch body h).
Proof.
  intros Hb Hh s. specialize (Hb s). prog_unfold.
  destruct (body s) as [[[a|e] s1] l1]; cbn [fst snd] in *; [done|].
  specialize (Hh e s1). destruct (h e s1) as [[r2 s2] l2]. cbn [fst snd] in *.
  by rewrite marks_app, Hb, Hh.
Qed.

Lemma silent_when (b : bool) (p : Prog S unit) : silent p → silent (when b p).
Proof. by destruct b. Qed.

Lemma silent_zoom {T A} (proj : T → S) (inj : S → T → T) (p : Prog S A) :
  silent p → silent (zoom proj inj p).
Proof.
  intros Hp t. unfold zoom. specialize (Hp (proj t)).
  by destruct (p (proj t)) as [[r s] l].
Qed.
End Silent.

Lemma silent_invoke_body (mark : Effect) (p : Prog Speech.State unit) :
  marks [mark] = [] → silent p →
  silent (S:=Avatar.Manager * Speech.State)
    (Avatar.invoke mark (Speech.body p)).
Proof.
  intros Hm Hp st. unfold Avatar.invoke, Speech.body. specialize (Hp st.2).
  destruct (p st.2) as [[r s1] l]. cbn [fst snd] in *.
  change (mark :: l) with ([mark] ++ l). by rewrite marks_app, Hm, Hp.
Qed.

Lemma silent_invoke_choice_body (mark : Effect) (p : Prog Choice.State unit) :
  marks [mark] = [] → silent p →
  silent (S:=Avatar.Manager * Choice.State)
    (Avatar.invoke mark (Choice.body p)).
Proof.
  intros Hm Hp st. unfold Avatar.invoke, Choice.body. specialize (Hp st.2).
  destruct (p st.2) as [[r s1] l]. cbn [fst snd] in *.
  change (mark :: l) with ([mark] ++ l). by rewrite marks_app, Hm, Hp.
Qed.

Ltac silent_step :=
  lazymatch goal with
  | |- silent (mret _) => apply silent_ret
  | |- silent get => apply silent_get
  | |- silent (emit _) => apply silent_emit; reflexivity
  | |- silent (modify _) => apply silent_modify
  | |- silent (throw _) => apply silent_throw
  | |- silent (extern _) => apply silent_extern
  | |- silent (await _) => apply silent_await
  | |- silent (_ ≫= _) => apply silent_bind; [|intros ?]
  | |- silent (try_catch _ _) => apply silent_try_catch; [|intros ?]
  | |- silent (when _ _) => apply silent_when
  | |- silent (zoom _ _ _) => apply silent_zoom
  | |- silent (Avatar.invoke _ _) =>
      cbn [Avatar.onConnected Avatar.onDisconnected Avatar.onSpeakStart
           Avatar.onSpeakEnd Speech.callbacks Choice.callbacks];
      first [apply silent_invoke_body|apply silent_invoke_choice_body];
      [reflexivity|]
  | |- silent (match ?x with _ => _ end) => destruct x eqn:?
  | |- silent (if ?x then _ else _) => destruct x eqn:?
  | |- silent ?p => let h := head_of p in unfold h
  end.

Ltac silent_auto := repeat silent_step.


(** Lists of pending things *)

Lemma filter_update_flags {A B} (key : A → nat) (flag : A → bool) (g : A → B)
    (f : A → A) (r : nat) (l : list A) :
  (∀ x, flag (f x) = flag x) → (∀ x, g (f x) = g x) →
  g <$> List.filter flag ((λ x, if Nat.eqb (key x) r then f x else x) <$> l)
  = g <$> List.filter flag l.
Proof.
  intros Hflag Hg. induction l as [|y l IH]; [done|].
  cbn. destruct (Nat.eqb (key y) r).
  - rewrite Hflag. destruct (flag y); cbn; by rewrite ?Hg, IH.
  - destruct (flag y); cbn; by rewrite IH.
Qed.

Lemma filter_cleared {A} (key : A → nat) (flag : A → bool) (clear : A → A)
    (r : nat) (l : list A) :
  (∀ y, flag (clear y) = false) → List.filter flag l = [] →
  List.filter flag ((λ y, if Nat.eqb (key y) r then clear y else y) <$> l)
  = [].
Proof.
  intros Hc. induction l as [|y l IH]; [done|].
  cbn. destruct (flag y) eqn:Ey; [done|]. intros Hl.
  destruct (Nat.eqb (key y) r); [rewrite Hc|rewrite Ey]; by apply IH.
Qed.

Lemma found_in_filter {A} (key : A → nat) (flag : A → bool) (r : nat)
    (l : list A) (x : A) :
  find (λ y, Nat.eqb (key y) r) l = Some x → flag x = true →
  List.filter flag l ≠ [].
Proof.
  induction l as [|y l IH]; [done|]. cbn.
  destruct (Nat.eqb (key y) r).
  - intros [= ->] Hx. by rewrite Hx.
  - intros Hf Hx. destruct (flag y); [done|]. by apply IH.
Qed.

Lemma settle_single {A B} (key : A → nat) (flag : A → bool) (clear : A → A)
    (g : A → B) (r : nat) (l : list A) (x : A) (b : B) :
  (∀ y, flag (clear y) = false) →
  find (λ y, Nat.eqb (key y) r) l = Some x → flag x = true →
  g <$> List.filter flag l = [b] →
  g x = b
  ∧ List.filter flag ((λ y, if Nat.eqb (key y) r then clear y else y) <$> l)
    = [].
Proof.
  intros Hc. induction l as [|y l IH]; [done|]. cbn.
  destruct (Nat.eqb (key y) r) eqn:Ek.
  - intros [= ->] Hx. rewrite Hx, Hc. cbn. intros [= Hg Hl].
    split; [done|]. apply fmap_nil_inv in Hl. by apply filter_cleared.
  - intros Hf Hx. destruct (flag y) eqn:Ey.
    + cbn. intros [= Hg Hl]. apply fmap_nil_inv in Hl.
      by destruct (found_in_filter key flag r l x Hf Hx).
    + intros Hl. by apply IH.
Qed.

Lemma hoare_post {S A} (P Q Q' : S → Prop) (p : Prog S A) :
  (∀ s, Q s → Q' s) → hoare P p Q → hoare P p Q'.
Proof. intros HQ H s Hs. apply HQ, H, Hs. Qed.


(** ** The multiple-choice controller *)

Create HintDb choice.
#[local] Hint Unfold Choice._setOptionsEnabled Choice._updateProgress
  Choice._setDot Choice._setStatusLabel Choice._setLoadingText Choice._setHint
  Choice._renderQuestion Choice._showResults Choice.body Choice.callbacks
  Choice.on_avatar Choice.add_race Choice.bounded_speak Choice.after_result
  Choice.after_wait Choice._finishInterview Choice.unlockOptions
  Choice.after_ask Choice._askQuestion Choice.after_welcome
  Choice._startInterview Choice._handleAnswer Choice.after_delay Choice.resume
  Choice.update_race Choice.settle_race Choice.handle
  Avatar.speak Avatar.speak_result Avatar.speak_error Avatar.ice_state_change
  Avatar.ice_state_seen Avatar.invoke Avatar.on_manager Avatar.disconnect : choice.

Ltac choice_run :=
  repeat (progress (autounfold with choice in *; prog_unfold;
                    cbn -[String.append Scoring._scoreAnswers] in * )).

Lemma find_update_race (r : nat) (f : Choice.Race → Choice.Race)
    (l : list Choice.Race) :
  (∀ x, Choice.req (f x) = Choice.req x) →
  find (λ x, Nat.eqb (Choice.req x) r)
    ((λ x, if Nat.eqb (Choice.req x) r then f x else x) <$> l)
  = f <$> find (λ x, Nat.eqb (Choice.req x) r) l.
Proof. apply (find_update_same Choice.req). Qed.

Section ChoiceFacts.
Context (synth_close peer_close : Js.Completion unit).

(** *** The buttons in the page belong to the current question *)

Lemma buttons_frame (s s' : Choice.State) :
  Choice.questions s' = Choice.questions s →
  Choice.currentIdx s' = Choice.currentIdx s →
  (Choice.panel s' = None ∨ fst <$> Choice.panel s' = fst <$> Choice.panel s) →
  buttons_of_current s → buttons_of_current s'.
Proof.
  intros Hq Hc Hp H q b Hs'. rewrite Hq, Hc.
  destruct Hp as [Hp|Hp]; [congruence|].
  rewrite Hs' in Hp. destruct (Choice.panel s) as [[q0 b0]|] eqn:E; [|done].
  cbn in Hp. injection Hp as <-. by apply (H q b0).
Qed.

Lemma buttons_setOptionsEnabled (b : bool) :
  keeps buttons_of_current (Choice._setOptionsEnabled b).
Proof.
  unfold Choice._setOptionsEnabled. keeps_auto. intros s.
  apply buttons_frame; try done. right. cbn.
  by destruct (Choice.panel s) as [[q0 b0]|].
Qed.

Lemma buttons_on_avatar_speak (r : nat) (text : string) :
  keeps buttons_of_current
    (Choice.on_avatar (Avatar.speak Choice.callbacks r text)).
Proof.
  intros s. destruct s as [qs cur ans locked [synth peer conn speaking] panel
                             races delays next region].
  destruct synth as [[]|], conn; choice_run; try done.
  apply buttons_frame; try done. right. cbn. by destruct panel as [[q0 b0]|].
Qed.

Lemma buttons_speak_end (r : nat) (a : SdkAnswer) :
  keeps buttons_of_current
    (Choice.on_avatar (answer_speak Choice.callbacks r a)).
Proof.
  intros s. destruct s as [qs cur ans locked [synth peer conn speaking] panel
                             races delays next region].
  destruct a as [result|err]; [destruct (Avatar.completed result) eqn:E|];
    unfold answer_speak; choice_run; rewrite ?E; choice_run;
    (apply buttons_frame; try done; right; cbn;
     by destruct panel as [[q0 b0]|]).
Qed.

Lemma buttons_bounded_speak text ms tf k resume :
  (∀ r, keeps buttons_of_current (resume r)) →
  keeps buttons_of_current (Choice.bounded_speak text ms tf k resume).
Proof.
  intros Hr. unfold Choice.bounded_speak, Choice.add_race.
  keeps_auto; try done.
  apply buttons_on_avatar_speak.
Qed.

Lemma buttons_disconnect :
  keeps buttons_of_current
    (zoom Choice.avatar Choice.set_avatar
       (Avatar.disconnect synth_close peer_close)).
Proof.
  intros s. destruct s as [qs cur ans locked [synth peer conn speaking] panel
                             races delays next region].
  destruct synth as [[]|], peer as [[]|], synth_close as [[]|],
    peer_close as [[]|]; choice_run; done.
Qed.

Lemma buttons_after_result data r :
  keeps buttons_of_current (Choice.after_result synth_close peer_close data r).
Proof.
  unfold Choice.after_result, Choice._showResults. keeps_auto.
  apply buttons_disconnect.
Qed.

Lemma buttons_after_wait r :
  keeps buttons_of_current (Choice.after_wait synth_close peer_close r).
Proof.
  unfold Choice.after_wait. keeps_auto.
  apply buttons_bounded_speak. intros. apply buttons_after_result.
Qed.

Lemma buttons_after_ask idx r :
  keeps buttons_of_current (Choice.after_ask idx r).
Proof.
  unfold Choice.after_ask, Choice.unlockOptions, Choice._setDot,
    Choice._setStatusLabel, Choice._setHint.
  keeps_auto; try done. apply buttons_setOptionsEnabled.
Qed.

Lemma total_setOptionsEnabled (b : bool) : total (Choice._setOptionsEnabled b).
Proof.
  unfold Choice._setOptionsEnabled.
  apply total_bind; [apply total_modify|intros; apply total_emit].
Qed.

Lemma buttons_finish :
  hoare (λ _, True) (Choice._finishInterview synth_close peer_close)
    buttons_of_current.
Proof.
  unfold Choice._finishInterview, Choice._updateProgress.
  apply (hoare_seq _ (λ _, True)); [apply total_emit|done|intros _].
  apply (hoare_seq _ (λ _, True));
    [apply total_setOptionsEnabled|done|intros _].
  apply (hoare_seq _ (λ _, True)); [apply total_emit|done|intros _].
  apply (hoare_seq _ (λ _, True)); [apply total_emit|done|intros _].
  apply (hoare_seq _ buttons_of_current);
    [apply total_modify|by intros s _ q b|intros _].
  apply hoare_keeps. keeps_auto.
  apply buttons_bounded_speak. intros. apply buttons_after_wait.
Qed.

(** [_askQuestion] puts the buttons of the question it makes current. *)
Lemma buttons_askQuestion idx s :
  buttons_of_current (Choice._askQuestion synth_close peer_close idx s).1.2.
Proof.
  cut (hoare (λ _, True) (Choice._askQuestion synth_close peer_close idx)
         buttons_of_current); [intros H; exact (H s I)|].
  clear s. unfold Choice._askQuestion.
  apply (hoare_seq _ (λ _, True)); [apply total_emit|done|intros _].
  apply hoare_get. intros s0 _.
  destruct (length (Choice.questions s0) <=? idx)%nat eqn:Hlen.
  { eapply hoare_pre; [|apply buttons_finish]. done. }
  apply Nat.leb_gt in Hlen.
  destruct (lookup_lt_is_Some_2 _ idx Hlen) as [q Hq]. rewrite Hq.
  unfold Choice._updateProgress, Choice._renderQuestion.
  apply (hoare_seq _ (λ s, Choice.questions s = Choice.questions s0
                           ∧ Choice.currentIdx s = idx));
    [apply total_modify|by intros s ->|intros _].
  apply (hoare_seq _ (λ s, Choice.questions s = Choice.questions s0
                           ∧ Choice.currentIdx s = idx));
    [apply total_modify|by intros s [? ?]|intros _].
  apply (hoare_seq _ (λ s, Choice.questions s = Choice.questions s0
                           ∧ Choice.currentIdx s = idx));
    [apply total_emit|by intros s [? ?]|intros _].
  apply (hoare_seq _ buttons_of_current).
  - apply total_bind; [apply total_get|intros].
    repeat (apply total_bind; [first [apply total_emit|apply total_modify]
                              |intros]).
    apply total_emit.
  - apply hoare_get. intros s1 [Hqs Hcur].
    apply (hoare_seq _ (λ s, s = s1));
      [apply total_emit|apply hoare_emit|intros _].
    apply (hoare_seq _ (λ s, s = s1));
      [apply total_emit|apply hoare_emit|intros _].
    apply (hoare_seq _ buttons_of_current);
      [apply total_modify| |intros _; apply hoare_emit].
    intros s -> q' b' Hp. cbn in Hp. injection Hp as <- <-. cbn.
    by rewrite Hqs, Hcur.
  - intros _. apply hoare_keeps. keeps_auto.
    + apply buttons_setOptionsEnabled.
    + apply buttons_bounded_speak. intros. apply buttons_after_ask.
Qed.

Lemma buttons_resume k r :
  keeps buttons_of_current (Choice.resume synth_close peer_close k r).
Proof.
  destruct k; cbn [Choice.resume].
  - intros s _. unfold Choice.after_welcome.
    destruct r as [[]|e]; prog_run;
      pose proof (buttons_askQuestion 0 s) as H;
      by destruct (Choice._askQuestion synth_close peer_close 0 s)
        as [[r2 s2] l2].
  - apply buttons_after_ask.
  - apply buttons_after_wait.
  - apply buttons_after_result.
Qed.

Lemma buttons_settle_race r how :
  keeps buttons_of_current (Choice.settle_race synth_close peer_close r how).
Proof.
  unfold Choice.settle_race, Choice.update_race. keeps_auto; try done.
  apply buttons_resume.
Qed.

Lemma buttons_handleAnswer questionId optionId :
  keeps buttons_of_current (Choice._handleAnswer questionId optionId).
Proof.
  unfold Choice._handleAnswer. keeps_auto; try done.
  apply buttons_setOptionsEnabled.
Qed.

Lemma buttons_handle e :
  keeps buttons_of_current (Choice.handle synth_close peer_close e).
Proof.
  destruct e; cbn [Choice.handle]; unfold Choice.update_race.
  - keeps_auto; try done; [|apply buttons_settle_race].
    apply (buttons_speak_end r (Succeeds result)).
  - keeps_auto; try done; [|apply buttons_settle_race].
    apply (buttons_speak_end r (Fails err)).
  - keeps_auto; try done. apply buttons_settle_race.
  - keeps_auto; try done. unfold Choice.after_delay. intros s _.
    prog_unfold. cbn.
    pose proof (buttons_askQuestion (Choice.currentIdx s + 1) s) as H.
    by destruct (Choice._askQuestion synth_close peer_close
                   (Choice.currentIdx s + 1) s) as [[r2 s2] l2].
  - keeps_auto. apply buttons_handleAnswer.
  - intros s. destruct s as [qs cur ans locked [synth peer conn speaking]
                               panel races delays next region].
    destruct peer as [p|]; choice_run; [|done].
    destruct (String.eqb state "disconnected" || String.eqb state "failed"
              || String.eqb state "closed"); choice_run; done.
Qed.

Lemma buttons_step e s :
  buttons_of_current s →
  buttons_of_current (Choice.step synth_close peer_close e s).1.
Proof.
  intros H. unfold Choice.step.
  destruct (Choice.enabled e s); [|done].
  pose proof (buttons_handle e s H) as H'.
  by destruct (Choice.handle synth_close peer_close e s) as [[r s1] l].
Qed.

Lemma buttons_run es s :
  buttons_of_current s →
  buttons_of_current (Choice.run synth_close peer_close es s).1.
Proof.
  revert s. induction es as [|e es IH]; intros s H; [done|].
  cbn [Choice.run].
  pose proof (buttons_step e s H) as H1.
  destruct (Choice.step synth_close peer_close e s) as [s1 l1].
  specialize (IH s1 H1).
  by destruct (Choice.run synth_close peer_close es s1) as [s2 l2].
Qed.

Lemma buttons_reachable s :
  choice_reachable synth_close peer_close s → buttons_of_current s.
Proof.
  intros (manager & region & es & ->).
  unfold Choice.run_from_start, Choice.start.
  assert (H0 : buttons_of_current (Choice.new manager region)) by (by intros q b).
  assert (H1 : keeps buttons_of_current
                 (Choice._startInterview synth_close peer_close)).
  { unfold Choice._startInterview, Choice._updateProgress. keeps_auto.
    apply buttons_bounded_speak. intros r.
    apply (buttons_resume Choice.KWelcome r). }
  specialize (H1 _ H0).
  destruct (Choice._startInterview synth_close peer_close
              (Choice.new manager region)) as [[r s1] l1].
  pose proof (buttons_run es s1 H1) as H2.
  by destruct (Choice.run synth_close peer_close es s1) as [s2 l2].
Qed.

Lemma askQuestion_normal (idx : nat) (s : Choice.State) :
  (Choice._askQuestion synth_close peer_close idx s).1.1 = Js.Normal tt.
Proof.
  destruct s as [qs cur ans locked [synth peer conn speaking] panel races
                   delays next region].
  unfold Choice._askQuestion. prog_run.
  destruct (length qs <=? idx)%nat eqn:Hlen.
  - destruct synth as [[]|], conn, synth_close as [[]|],
      peer_close as [[]|], peer as [[]|]; choice_run; reflexivity.
  - apply Nat.leb_gt in Hlen.
    destruct (lookup_lt_is_Some_2 qs idx Hlen) as [q Hq]. rewrite Hq.
    destruct synth as [[]|], conn; choice_run; reflexivity.
Qed.

(** What [_askQuestion(idx)] does for a question that is there: it arms
    the 30 s timer, and either starts the speech and waits, locked, or, on a
    manager that cannot speak, logs the warning and unlocks at once. *)
Lemma askQuestion_spec (idx : nat) (q : Question) (s : Choice.State) :
  Choice.questions s !! idx = Some q →
  let ask := Choice._askQuestion synth_close peer_close idx s in
  timeouts_set ask.2 = [30000]
  ∧ ask.1.2 = (if ready (Choice.avatar s) then speaking_ask idx q s
               else refused_ask idx q s)
  ∧ existsb is_warning ask.2 = negb (ready (Choice.avatar s))
  ∧ List.filter is_page ask.2
    = SetOptionsEnabled false
      :: (if ready (Choice.avatar s)
          then [SetOptionsEnabled false; SetDot "speaking";
                SetStatusLabel "Speaking…"; SetHint true]
          else unlocking "Select your answer").
Proof.
  intros Hq ask. subst ask.
  destruct s as [qs cur ans locked [synth peer conn speaking] panel races
                   delays next region].
  cbn in Hq. unfold Choice._askQuestion. prog_run.
  assert (Hlen : (length qs <=? idx)%nat = false).
  { apply Nat.leb_gt. by apply lookup_lt_is_Some_1. }
  rewrite Hlen, Hq.
  destruct synth as [[]|], conn; choice_run; by repeat split.
Qed.

Lemma races_settled_answered (r : nat) (w : Settling)
    (races : list Choice.Race) :
  answered w = true →
  (λ y, if Nat.eqb (Choice.req y) r then Choice.set_unsettled false y else y)
  <$> ((λ y, if Nat.eqb (Choice.req y) r
             then Choice.set_sdk_pending false y else y) <$> races)
  = (λ x, if Nat.eqb (Choice.req x) r then settled w x else x) <$> races.
Proof.
  intros Hw. rewrite <- list_fmap_compose. apply list_fmap_ext.
  intros _ x _. cbn. unfold settled. rewrite Hw.
  destruct (Nat.eqb (Choice.req x) r) eqn:E; cbn; by rewrite E.
Qed.

Lemma races_settled_timeout (r : nat) (races : list Choice.Race) :
  (λ y, if Nat.eqb (Choice.req y) r then Choice.set_unsettled false y else y)
  <$> ((λ y, if Nat.eqb (Choice.req y) r
             then Choice.set_timer_pending false y else y) <$> races)
  = (λ x, if Nat.eqb (Choice.req x) r then settled ByTimeout x else x)
    <$> races.
Proof.
  rewrite <- list_fmap_compose. apply list_fmap_ext.
  intros _ x _. cbn. unfold settled. cbn.
  destruct (Nat.eqb (Choice.req x) r) eqn:E; cbn; by rewrite E.
Qed.

(** Each way the bounded speak of [_askQuestion(idx)] can settle, from the
    state in which it waits. *)
Lemma settling_spec (s : Choice.State) (r idx : nat) (w : Settling) :
  awaiting_ask r idx s →
  let out := Choice.handle synth_close peer_close (settling_event r w) s in
  Choice.enabled (settling_event r w) s = true
  ∧ out.1.1 = Js.Normal tt
  ∧ Forall (λ e, is_enter e = false) out.2
  ∧ existsb is_warning out.2 = negb (succeeded w)
  ∧ out.1.2 = collecting r w s
  ∧ List.filter is_page out.2 = unlocked_page w
  ∧ warnings out.2
    = from_option
        (λ msg, ["[Interview] Speech failed/timed out for question "
                 +:+ Choice.nat_text (idx + 1) +:+ " " +:+ msg])
        [] (failure_of w)
  ∧ timeouts_set out.2 = [].
Proof.
  intros (x & Hfind & Hk & Hu & Hsdk & Htimer) out. subst out.
  destruct s as [qs cur ans locked [synth peer conn speaking] panel races
                   delays next region].
  unfold Choice.find_race in Hfind. cbn in Hfind.
  assert (Hen : Choice.enabled (settling_event r w)
                  {| Choice.questions := qs; Choice.currentIdx := cur;
                     Choice.answers := ans; Choice.answerLocked := locked;
                     Choice.avatar :=
                       {| Avatar._synthesizer := synth;
                          Avatar._peerConn := peer;
                          Avatar.isConnected := conn;
                          Avatar.isSpeaking := speaking |};
                     Choice.panel := panel; Choice.races := races;
                     Choice.delays := delays; Choice.next_req := next;
                     Choice.region := region |} = true).
  { destruct w; unfold Choice.enabled, Choice.find_race; cbn;
      by rewrite Hfind. }
  split; [done|]. clear Hen.
  assert (Hset : ∀ f, (∀ y, Choice.req (f y) = Choice.req y) →
            find (λ y, Nat.eqb (Choice.req y) r)
              ((λ y, if Nat.eqb (Choice.req y) r then f y else y) <$> races)
            = Some (f x)).
  { intros f Hf. by rewrite find_update_race, Hfind. }
  unfold collecting. cbn [Choice.questions Choice.currentIdx Choice.answers
    Choice.avatar Choice.panel Choice.races Choice.delays Choice.next_req
    Choice.region].
  destruct w as [result|err|];
    [rewrite <- (races_settled_answered r (BySuccess result)) by done
    |rewrite <- (races_settled_answered r (ByError err)) by done
    |rewrite <- (races_settled_timeout r)];
    cbn [settling_event succeeded answered failure_of unlocked_page];
    unfold Choice.handle, Choice.update_race, Choice.on_avatar,
      Avatar.speak_result, Avatar.speak_error, Avatar.invoke,
      Avatar.on_manager, Choice.callbacks, Choice.body,
      Choice._setOptionsEnabled, Choice._setDot, Choice._setStatusLabel,
      Choice._setHint, Choice.settle_race, Choice.find_race;
    try destruct (Avatar.completed result) eqn:Ec;
    prog_run; rewrite ?Hfind; prog_run; rewrite Hset by done; prog_run;
    rewrite Hu; prog_run; rewrite Hk;
    unfold Choice.resume, Choice.after_ask, Choice.unlockOptions,
      Choice._setOptionsEnabled, Choice._setDot, Choice._setStatusLabel,
      Choice._setHint; prog_run.
  all: split; [done|].
  all: split; [by repeat constructor|].
  all: split; [done|].
  all: split; [unfold enable; destruct panel as [[q b]|]; reflexivity|].
  all: split; [cbn; rewrite ?Ec; reflexivity|].
  all: split; [cbn; rewrite ?Ec; reflexivity|]. all: done.
Qed.

(** The next click does the same whichever way the speak settled. *)
Lemma click_after_settling (r : nat) (w1 w2 : Settling) (o : string)
    (s : Choice.State) :
  let a := Choice.step synth_close peer_close (Choice.Click o)
             (collecting r w1 s) in
  let b := Choice.step synth_close peer_close (Choice.Click o)
             (collecting r w2 s) in
  Choice.enabled (Choice.Click o) (collecting r w1 s)
  = Choice.enabled (Choice.Click o) (collecting r w2 s)
  ∧ a.2 = b.2 ∧ flow a.1 = flow b.1.
Proof.
  destruct s as [qs cur ans locked av panel races delays next region].
  unfold Choice.step, Choice.enabled, collecting, enable.
  cbn [Choice.panel fmap option_fmap option_map].
  destruct panel as [[q b]|]; cbn; [|done].
  destruct (bool_decide (o ∈ oid <$> options q)); [|done].
  unfold Choice._handleAnswer, Choice._setOptionsEnabled. prog_run. done.
Qed.

(** C4. While [_askQuestion(idx)] waits for its bounded speak, each way
    the speak can settle (the success callback, the error callback, the
    30 s timer) can happen, ends without an exception, and leaves the
    controller collecting the answer: [answerLocked] is false, the buttons
    are enabled, the position, the answers and the pending timers are as
    before, the same in the three cases; no method is entered, so nothing
    advances; a warning is logged exactly when the speak did not complete.
    The whole state afterwards is [collecting]: beyond the lock and the
    buttons only the record of the request changes, and [isSpeaking] is
    reset when the SDK answered, not when the timer fired.  The page is
    unlocked by [onSpeakEnd], by the [catch], or by both; the warning carries
    the question number and the error; no timer is armed.  The click that
    follows can happen after one way of settling exactly when it can after
    another, and does the same.
    [_askQuestion] itself never throws.  For a question that is there it arms
    one timer, of 30000 ms.  On a manager that can speak it leaves the
    controller locked, waiting for the SDK and the timer; on a manager that
    cannot, the speak is refused at once, the warning is logged and the
    controller is left collecting the answer, [answerLocked] false and the
    buttons enabled, with only the timer outstanding. *)
Theorem ask_settles (s : Choice.State) (r idx : nat) (w : Settling) :
  awaiting_ask r idx s →
  let out := Choice.handle synth_close peer_close (settling_event r w) s in
  Choice.enabled (settling_event r w) s = true
  ∧ out.1.1 = Js.Normal tt
  ∧ Choice.answerLocked out.1.2 = false
  ∧ flow out.1.2
    = (Choice.questions s, Choice.currentIdx s, Choice.answers s, false,
       enable (Choice.panel s), Choice.delays s)
  ∧ Forall (λ e, is_enter e = false) out.2
  ∧ existsb is_warning out.2 = negb (succeeded w)
  ∧ out.1.2 = collecting r w s
  ∧ List.filter is_page out.2 = unlocked_page w
  ∧ warnings out.2
    = from_option
        (λ msg, ["[Interview] Speech failed/timed out for question "
                 +:+ Choice.nat_text (idx + 1) +:+ " " +:+ msg])
        [] (failure_of w)
  ∧ timeouts_set out.2 = []
  ∧ (∀ w2 o,
       let a := Choice.step synth_close peer_close (Choice.Click o) out.1.2 in
       let b := Choice.step synth_close peer_close (Choice.Click o)
                  (collecting r w2 s) in
       Choice.enabled (Choice.Click o) out.1.2
       = Choice.enabled (Choice.Click o) (collecting r w2 s)
       ∧ a.2 = b.2 ∧ flow a.1 = flow b.1)
  ∧ (∀ i s0,
       let ask := Choice._askQuestion synth_close peer_close i s0 in
       ask.1.1 = Js.Normal tt
       ∧ ∀ q, Choice.questions s0 !! i = Some q →
           timeouts_set ask.2 = [30000]
           ∧ ask.1.2 = (if ready (Choice.avatar s0) then speaking_ask i q s0
                        else refused_ask i q s0)
           ∧ existsb is_warning ask.2 = negb (ready (Choice.avatar s0))
           ∧ List.filter is_page ask.2
             = SetOptionsEnabled false
               :: (if ready (Choice.avatar s0)
                   then [SetOptionsEnabled false; SetDot "speaking";
                         SetStatusLabel "Speaking…"; SetHint true]
                   else unlocking "Select your answer")).
Proof.
  intros Hs out.
  destruct (settling_spec s r idx w Hs)
    as (Hen & Hnorm & Henter & Hwarn & Hstate & Hpage & Htext & Htimers).
  fold out in Hnorm, Henter, Hwarn, Hstate, Hpage, Htext, Htimers.
  split; [exact Hen|]. split; [exact Hnorm|].
  split; [by rewrite Hstate|]. split; [by rewrite Hstate|].
  split; [exact Henter|]. split; [exact Hwarn|]. split; [exact Hstate|].
  split; [exact Hpage|]. split; [exact Htext|]. split; [exact Htimers|].
  split.
  - intros w2 o. rewrite Hstate. apply click_after_settling.
  - intros i s0. split; [apply askQuestion_normal|].
    intros q Hq. by apply askQuestion_spec.
Qed.

(** *** Submitting an answer *)


(** C3. [_handleAnswer] never throws.  While [answerLocked] is true it
    changes nothing: the state is the same (answers, position and pending
    timers included) and nothing is set in motion.  While it is false the
    call sets [answerLocked] before it suspends, stores the option under the
    given question id, keeps the position and arms one 700 ms timer; until
    something unlocks again every further call changes nothing.  When the
    timer fires, [_askQuestion(currentIdx + 1)] is what runs.  In every state
    a session can reach, a click that can happen calls [_handleAnswer] with
    the id of the current question. *)
Theorem handleAnswer_gate (s : Choice.State) (questionId : Z)
    (optionId : string) :
  let out := Choice._handleAnswer questionId optionId s in
  out.1.1 = Js.Normal tt
  ∧ (if Choice.answerLocked s then
       out.1.2 = s ∧ out.2 = [Enter (M_handleAnswer questionId optionId)]
     else
       Choice.answerLocked out.1.2 = true
       ∧ Choice.answers out.1.2
         = <[Js.String_ questionId := optionId]> (Choice.answers s)
       ∧ Choice.currentIdx out.1.2 = Choice.currentIdx s
       ∧ Choice.delays out.1.2 = S (Choice.delays s)
       ∧ out.2 = [Enter (M_handleAnswer questionId optionId);
                  SetOptionsEnabled false; HighlightOption optionId;
                  SetTimeout 700]
       ∧ (∀ q' o', (Choice._handleAnswer q' o' out.1.2).1.2 = out.1.2))
  ∧ (∀ s', Choice.handle synth_close peer_close Choice.DelayElapsed s'
           = Choice._askQuestion synth_close peer_close
               (Choice.currentIdx s' + 1)
               (Choice.set_delays (pred (Choice.delays s')) s'))
  ∧ (∀ manager region es o,
       let s' := (Choice.run_from_start synth_close peer_close es
                    (Choice.new manager region)).1 in
       if Choice.enabled (Choice.Click o) s' then
         ∃ q, Choice.questions s' !! Choice.currentIdx s' = Some q
              ∧ Choice.handle synth_close peer_close (Choice.Click o) s'
                = Choice._handleAnswer (id q) o s'
       else Choice.step synth_close peer_close (Choice.Click o) s' = (s', [])).
Proof.
  intros out. subst out. split; [|split; [|split]].
  - destruct s as [qs cur ans [|] av panel races delays next region];
      unfold Choice._handleAnswer; choice_run; reflexivity.
  - destruct s as [qs cur ans [|] av panel races delays next region];
      unfold Choice._handleAnswer; choice_run; repeat split; reflexivity.
  - intros s'. cbn [Choice.handle]. unfold Choice.after_delay.
    prog_unfold. cbn. by rewrite !prog_eta.
  - intros manager region es o s'.
    assert (Hb : buttons_of_current s').
    { apply buttons_reachable. by exists manager, region, es. }
    unfold Choice.step. destruct (Choice.enabled (Choice.Click o) s') eqn:E;
      [|done].
    cbn [Choice.enabled] in E.
    destruct (Choice.panel s') as [[q b]|] eqn:Hp; [|done].
    exists q. split; [by apply (Hb q b)|].
    cbn [Choice.handle]. prog_unfold. cbn. rewrite Hp. by rewrite prog_eta.
Qed.

(** *** The lock while a question is spoken *)

Lemma find_update_other (r r' : nat) (f : Choice.Race → Choice.Race)
    (l : list Choice.Race) :
  r' ≠ r → (∀ x, Choice.req (f x) = Choice.req x) →
  find (λ x, Nat.eqb (Choice.req x) r)
    ((λ x, if Nat.eqb (Choice.req x) r' then f x else x) <$> l)
  = find (λ x, Nat.eqb (Choice.req x) r) l.
Proof. apply (find_update_different Choice.req). Qed.

Lemma find_fresh (r : nat) (x : Choice.Race) (l : list Choice.Race) :
  Forall (λ y, (Choice.req y < r)%nat) l → Choice.req x = r →
  find (λ y, Nat.eqb (Choice.req y) r) (l ++ [x]) = Some x.
Proof. apply (find_appended Choice.req). Qed.

(** What holds while [_askQuestion(idx)] waits for its speak [r] and nothing
    else is outstanding. *)
Definition speaking_locked (r idx : nat) (s : Choice.State) : Prop :=
  Choice.answerLocked s = true
  ∧ Choice.delays s = 0%nat
  ∧ awaiting_ask r idx s
  ∧ Forall (λ x, Choice.req x ≠ r →
                 Choice.unsettled x = false ∧ Choice.sdk_pending x = false)
      (Choice.races s).

Lemma speaking_locked_ask (s : Choice.State) (idx : nat) :
  quiet s → ready (Choice.avatar s) = true →
  (idx < length (Choice.questions s))%nat →
  speaking_locked (Choice.next_req s) idx
    (Choice._askQuestion synth_close peer_close idx s).1.2.
Proof.
  intros [Hd Hr] Hready Hidx.
  destruct s as [qs cur ans locked [synth peer conn speaking] panel races
                   delays next region].
  cbn in Hd, Hr, Hready, Hidx. subst delays.
  destruct synth as [[]|]; [|done]. cbn in Hready. subst conn.
  unfold Choice._askQuestion. prog_run.
  apply Nat.leb_gt in Hidx as Hlen. rewrite Hlen.
  destruct (lookup_lt_is_Some_2 qs idx Hidx) as [q Hq]. rewrite Hq.
  choice_run. unfold speaking_locked, awaiting_ask, Choice.find_race. cbn.
  split; [done|]. split; [done|]. split.
  - eexists. split.
    + apply find_fresh; [|done].
      eapply Forall_impl; [exact Hr|]. by intros x (_ & _ & H).
    + by repeat split.
  - apply Forall_app. split.
    + eapply Forall_impl; [exact Hr|]. by intros x (H1 & H2 & _) _.
    + constructor; [|constructor]. cbn. intros H. by destruct H.
Qed.

Lemma speaking_locked_step (r idx : nat) (e : Choice.Event)
    (s : Choice.State) :
  settles r e = false → speaking_locked r idx s →
  speaking_locked r idx (Choice.step synth_close peer_close e s).1.
Proof.
  intros He Hsame. pose proof Hsame as (Hl & Hd & (x & Hfind & Hx) & Hothers).
  unfold Choice.step. destruct (Choice.enabled e s) eqn:Hen; [|exact Hsame].
  destruct s as [qs cur ans locked [synth peer conn speaking] panel races
                   delays next region].
  cbn in Hl, Hd, Hothers. subst locked delays.
  unfold Choice.find_race in Hfind. cbn in Hfind.
  assert (Hquiet : ∀ r' y, r' ≠ r →
            find (λ y, Nat.eqb (Choice.req y) r') races = Some y →
            Choice.unsettled y = false ∧ Choice.sdk_pending y = false).
  { intros r' y Hne Hy. apply find_some in Hy as [Hin Hreq].
    apply Nat.eqb_eq in Hreq.
    rewrite Forall_forall in Hothers. apply list_elem_of_In in Hin.
    apply (Hothers y Hin). congruence. }
  destruct e as [r' result|r' err|r'| |o|state]; cbn in He, Hen.
  - apply Nat.eqb_neq in He. unfold Choice.find_race in Hen. cbn in Hen.
    destruct (find (λ y, Nat.eqb (Choice.req y) r') races) as [y|] eqn:Hy;
      [|done]. cbn in Hen.
    destruct (Hquiet r' y He Hy) as [_ H]. congruence.
  - apply Nat.eqb_neq in He. unfold Choice.find_race in Hen. cbn in Hen.
    destruct (find (λ y, Nat.eqb (Choice.req y) r') races) as [y|] eqn:Hy;
      [|done]. cbn in Hen.
    destruct (Hquiet r' y He Hy) as [_ H]. congruence.
  - apply Nat.eqb_neq in He. unfold Choice.find_race in Hen. cbn in Hen.
    destruct (find (λ y, Nat.eqb (Choice.req y) r') races) as [y|] eqn:Hy;
      [|done].
    destruct (Hquiet r' y He Hy) as [Hu _].
    unfold Choice.handle, Choice.update_race, Choice.settle_race,
      Choice.find_race. prog_run. rewrite Hy. prog_run.
    rewrite find_update_race, Hy by done. cbn. rewrite Hu. cbn.
    unfold speaking_locked, awaiting_ask, Choice.find_race. cbn.
    split; [done|]. split; [done|]. split.
    + exists x. by rewrite find_update_other, Hfind.
    + apply Forall_fmap. eapply Forall_impl; [exact Hothers|].
      intros z Hz. cbn.
      destruct (Nat.eqb (Choice.req z) r'); cbn; apply Hz.
  - done.
  - unfold Choice.handle, Choice._handleAnswer. prog_run.
    destruct panel as [[q b]|]; prog_run; exact Hsame.
  - unfold Choice.handle, Choice.on_avatar, Avatar.ice_state_change,
      Avatar.ice_state_seen,
      Avatar.invoke, Avatar.on_manager, Choice.callbacks, Choice.body,
      Choice._setDot, Choice._setStatusLabel.
    destruct peer as [p|]; [|done]. prog_run.
    destruct (String.eqb state "disconnected" || String.eqb state "failed"
              || String.eqb state "closed"); prog_run;
      (split; [done|]; split; [done|]; split; [|done];
       exists x; by split).
Qed.

Lemma speaking_locked_run (r idx : nat) (es : list Choice.Event)
    (s : Choice.State) :
  Forall (λ e, settles r e = false) es → speaking_locked r idx s →
  speaking_locked r idx (Choice.run synth_close peer_close es s).1.
Proof.
  intros Hes. revert s. induction Hes as [|e es He Hes IH]; intros s H;
    [done|].
  cbn [Choice.run].
  pose proof (speaking_locked_step r idx e s He H) as H1.
  destruct (Choice.step synth_close peer_close e s) as [s1 l1].
  specialize (IH s1 H1).
  by destruct (Choice.run synth_close peer_close es s1) as [s2 l2].
Qed.

(** Each way of settling unlocks. *)
Lemma settle_unlocks (s : Choice.State) (r idx : nat) (w : Settling) :
  awaiting_ask r idx s →
  Choice.answerLocked
    (Choice.step synth_close peer_close (settling_event r w) s).1 = false.
Proof.
  intros (x & Hfind & Hk & Hu & Hsdk & Htimer).
  destruct s as [qs cur ans locked [synth peer conn speaking] panel races
                   delays next region].
  unfold Choice.find_race in Hfind. cbn in Hfind.
  unfold Choice.step.
  replace (Choice.enabled (settling_event r w) _) with true
    by (destruct w; unfold Choice.enabled, Choice.find_race; cbn;
        by rewrite Hfind).
  assert (Hset : ∀ f, (∀ y, Choice.req (f y) = Choice.req y) →
            find (λ y, Nat.eqb (Choice.req y) r)
              ((λ y, if Nat.eqb (Choice.req y) r then f y else y) <$> races)
            = Some (f x)).
  { intros f Hf. by rewrite find_update_race, Hfind. }
  destruct w as [result|err|]; cbn [settling_event];
    unfold Choice.handle, Choice.update_race, Choice.on_avatar,
      Avatar.speak_result, Avatar.speak_error, Avatar.invoke,
      Avatar.on_manager, Choice.callbacks, Choice.body,
      Choice._setOptionsEnabled, Choice._setDot, Choice._setStatusLabel,
      Choice._setHint, Choice.settle_race, Choice.find_race;
    try destruct (Avatar.completed result) eqn:Ec;
    prog_run; rewrite ?Hfind; prog_run; rewrite Hset by done; prog_run;
    rewrite Hu; prog_run; rewrite Hk;
    unfold Choice.resume, Choice.after_ask, Choice.unlockOptions,
      Choice._setOptionsEnabled, Choice._setDot, Choice._setStatusLabel,
      Choice._setHint; prog_run; reflexivity.
Qed.

(** C5, as the code has it.  When a question starts being spoken with
    nothing else outstanding, [answerLocked] is true from then until the
    bounded speak of that question settles: no click, timer of an earlier
    speak or connection event in between clears it.  Each way of settling
    (speak-end callback, error, 30 s timer) sets it to false, which is what
    lets the answer in. *)
Theorem locked_while_spoken (s : Choice.State) (idx : nat)
    (es : list Choice.Event) :
  quiet s → ready (Choice.avatar s) = true →
  (idx < length (Choice.questions s))%nat →
  Forall (λ e, settles (Choice.next_req s) e = false) es →
  let r := Choice.next_req s in
  let asked := (Choice._askQuestion synth_close peer_close idx s).1.2 in
  let later := (Choice.run synth_close peer_close es asked).1 in
  Choice.answerLocked asked = true
  ∧ Choice.answerLocked later = true
  ∧ awaiting_ask r idx later
  ∧ ∀ w, Choice.answerLocked
           (Choice.step synth_close peer_close (settling_event r w) later).1
         = false.
Proof.
  intros Hq Hready Hidx Hes r asked later.
  pose proof (speaking_locked_ask s idx Hq Hready Hidx) as H0.
  pose proof (speaking_locked_run r idx es asked Hes H0) as H1.
  destruct H0 as (Hl0 & _). destruct H1 as (Hl1 & _ & Haw & _).
  split; [exact Hl0|]. split; [exact Hl1|]. split; [exact Haw|].
  intros w. by apply (settle_unlocks later r idx w).
Qed.

End ChoiceFacts.

Lemma ask_settles_witness :
  awaiting_ask 1 0 asking_first
  ∧ Choice.answerLocked
      (Choice.handle (Js.Normal tt) (Js.Normal tt) (Choice.RaceTimeout 1)
         asking_first).1.2 = false.
Proof.
  assert (H : awaiting_ask 1 0 asking_first).
  { eexists. split; [vm_compute; reflexivity|]. by repeat split. }
  split; [exact H|].
  exact (proj1 (proj2 (proj2 (ask_settles (Js.Normal tt) (Js.Normal tt)
                                  asking_first 1 0 ByTimeout H)))).
Defined.

Lemma locked_while_spoken_witness :
  let s := Choice.new connected_manager "eastus2" in
  quiet s ∧ ready (Choice.avatar s) = true
  ∧ (0 < length (Choice.questions s))%nat
  ∧ Forall (λ e, settles (Choice.next_req s) e = false) idle_events
  ∧ Choice.answerLocked
      (Choice.run (Js.Normal tt) (Js.Normal tt) idle_events
         (Choice._askQuestion (Js.Normal tt) (Js.Normal tt) 0 s).1.2).1
    = true.
Proof.
  assert (H1 : quiet (Choice.new connected_manager "eastus2"))
    by (split; [reflexivity|constructor]).
  assert (H2 : ready (Choice.avatar (Choice.new connected_manager "eastus2"))
               = true) by reflexivity.
  assert (H3 : (0 < length (Choice.questions
                              (Choice.new connected_manager "eastus2")))%nat)
    by (simpl; lia).
  assert (H4 : Forall (λ e, settles 0 e = false) idle_events)
    by (repeat constructor).
  split; [exact H1|]. split; [exact H2|]. split; [exact H3|].
  split; [exact H4|].
  apply (locked_while_spoken (Js.Normal tt) (Js.Normal tt)
           (Choice.new connected_manager "eastus2") 0 idle_events
           H1 H2 H3 H4).
Defined.

(** C5 as worded fails: after the speech of the first question completes,
    the question is on the page, no answer has been accepted, and
    [answerLocked] is false, set so by [onSpeakEnd]. *)
Lemma unlocked_before_answer :
  let s0 := (Choice.start (Js.Normal tt) (Js.Normal tt)
               (Choice.new connected_manager "eastus2")).1 in
  let s := (Choice.run (Js.Normal tt) (Js.Normal tt) first_question_spoken
              s0).1 in
  Choice.feasible (Js.Normal tt) (Js.Normal tt) first_question_spoken s0 = true
  ∧ id <$> (fst <$> Choice.panel s) = Some 1
  ∧ Choice.answers s = ∅
  ∧ Choice.answerLocked s = false
  ∧ ¬ locked_until_accepted (Js.Normal tt) (Js.Normal tt).
Proof.
  assert (H : Choice.feasible (Js.Normal tt) (Js.Normal tt)
                first_question_spoken
                (Choice.start (Js.Normal tt) (Js.Normal tt)
                   (Choice.new connected_manager "eastus2")).1 = true)
    by (vm_compute; reflexivity).
  split; [exact H|]. split; [vm_compute; reflexivity|].
  split; [vm_compute; reflexivity|]. split; [vm_compute; reflexivity|].
  intros Hclaim.
  specialize (Hclaim connected_manager "eastus2" first_question_spoken H).
  cbv zeta in Hclaim.
  destruct (Choice.panel (Choice.run (Js.Normal tt) (Js.Normal tt)
              first_question_spoken
              (Choice.start (Js.Normal tt) (Js.Normal tt)
                 (Choice.new connected_manager "eastus2")).1).1)
    as [[q b]|] eqn:Hp; [|vm_compute in Hp; discriminate].
  specialize (Hclaim q b eq_refl).
  vm_compute in Hp. injection Hp as <- <-.
  vm_compute in Hclaim. specialize (Hclaim eq_refl). discriminate.
Qed.

(** C2 at the failing session: every event of [late_speech_end] can happen
    when its turn comes, and [_askQuestion(5)] and with it
    [_finishInterview] are entered twice.  When the speech of question 5
    ends in time they are entered once. *)
Theorem finish_entered_twice :
  let s0 := Choice.new connected_manager "eastus2" in
  Choice.feasible (Js.Normal tt) (Js.Normal tt) late_speech_end
    (Choice.start (Js.Normal tt) (Js.Normal tt) s0).1 = true
  ∧ entered (Choice.run_from_start (Js.Normal tt) (Js.Normal tt)
               late_speech_end s0).2
    = [M_startInterview; M_askQuestion 0;
       M_handleAnswer 1 "B"; M_askQuestion 1;
       M_handleAnswer 2 "C"; M_askQuestion 2;
       M_handleAnswer 3 "B"; M_askQuestion 3;
       M_handleAnswer 4 "C"; M_askQuestion 4;
       M_handleAnswer 5 "B"; M_handleAnswer 5 "A";
       M_askQuestion 5; M_finishInterview;
       M_askQuestion 5; M_finishInterview]
  ∧ entered (Choice.run_from_start (Js.Normal tt) (Js.Normal tt)
               timely_speech_end s0).2
    = [M_startInterview; M_askQuestion 0;
       M_handleAnswer 1 "B"; M_askQuestion 1;
       M_handleAnswer 2 "C"; M_askQuestion 2;
       M_handleAnswer 3 "B"; M_askQuestion 3;
       M_handleAnswer 4 "C"; M_askQuestion 4;
       M_handleAnswer 5 "B";
       M_askQuestion 5; M_finishInterview].
Proof. vm_compute. repeat split; reflexivity. Qed.

(** ** The multiple-choice controller, continued *)

Lemma keeps_on_avatar {A} (P : Choice.State → Prop)
    (p : Prog (Avatar.Manager * Choice.State) A) :
  (∀ m s, P s → P (Choice.set_avatar m s)) →
  keeps (λ st, P st.2) p → keeps P (Choice.on_avatar p).
Proof.
  intros Hm Hp. unfold Choice.on_avatar.
  apply (keeps_zoom P (λ st, P st.2)); [done|done|].
  intros st t _ Hst. by apply Hm.
Qed.

Lemma keeps_zoom_avatar {A} (P : Choice.State → Prop)
    (p : Prog Avatar.Manager A) :
  (∀ m s, P s → P (Choice.set_avatar m s)) →
  keeps P (zoom Choice.avatar Choice.set_avatar p).
Proof.
  intros Hm. apply (keeps_zoom P (λ _, True)); [done|by intros ? ?|].
  intros m t Ht _. by apply Hm.
Qed.

Lemma keeps_on_manager {C} (P : C → Prop) (f : Avatar.Manager → Avatar.Manager) :
  keeps (λ st : Avatar.Manager * C, P st.2) (Avatar.on_manager f).
Proof. by intros st Hst. Qed.

Lemma keeps_invoke_body (P : Choice.State → Prop) (mark : Effect)
    (p : Prog Choice.State unit) :
  keeps P p →
  keeps (λ st : Avatar.Manager * Choice.State, P st.2)
    (Avatar.invoke mark (Choice.body p)).
Proof.
  intros Hp. apply keeps_invoke. intros c Hc. specialize (Hp c Hc).
  unfold Choice.body. by destruct (p c) as [[r s1] l].
Qed.


(** Take a program of the controller apart for [keeps], down to its state
    updates; what was read from the state is known to satisfy the
    property. *)
Ltac frame_step :=
  lazymatch goal with
  | |- keeps _ (mret _) => apply keeps_ret
  | |- keeps _ (get ≫= _) => apply keeps_get_bind; intros ? ?
  | |- keeps _ get => apply keeps_get
  | |- keeps _ (emit _) => apply keeps_emit
  | |- keeps _ (throw _) => apply keeps_throw
  | |- keeps _ (extern _) => apply keeps_extern
  | |- keeps _ (await _) => apply keeps_await
  | |- keeps _ (_ ≫= _) => apply keeps_bind; [|intros ?]
  | |- keeps _ (try_catch _ _) => apply keeps_try_catch; [|intros ?]
  | |- keeps _ (when _ _) => apply keeps_when
  | |- keeps _ (modify _) => apply keeps_modify
  | |- keeps _ (Choice.on_avatar _) => apply keeps_on_avatar
  | |- keeps _ (zoom Choice.avatar Choice.set_avatar _) =>
      apply keeps_zoom_avatar
  | |- keeps _ (Avatar.on_manager _) => apply keeps_on_manager
  | |- keeps _ (Avatar.invoke _ _) =>
      cbn [Avatar.onConnected Avatar.onDisconnected Avatar.onSpeakStart
           Avatar.onSpeakEnd Choice.callbacks];
      apply keeps_invoke_body
  | |- keeps _ (match ?x with _ => _ end) => destruct x eqn:?
  | |- keeps _ (if ?x then _ else _) => destruct x eqn:?
  | |- keeps _ ?p => let h := head_of p in unfold h
  end.

Ltac frame_auto := repeat frame_step.

Ltac core_leaf :=
  unfold core, kept in *; cbn; intros;
  repeat match goal with H : _ ∧ _ |- _ => destruct H end;
  repeat match goal with
         | H : (_ <=? _)%nat = false |- _ => apply Nat.leb_gt in H
         end;
  subst; repeat split; try congruence; try lia.

(** The same for [total]. *)
Ltac total_more :=
  repeat first
    [ total_step
    | lazymatch goal with
      | |- total (Choice.on_avatar _) => unfold Choice.on_avatar
      | |- total ?p => let h := head_of p in unfold h
      end ].


Ltac prefix_of l tail :=
  lazymatch l with
  | tail => constr:(@nil Effect)
  | ?a :: ?l' => let p := prefix_of l' tail in constr:(a :: p)
  end.

Ltac pre_run :=
  repeat (progress (prog_unfold; cbn -[String.append Choice.resume] in * )).

Ltac fin_run :=
  repeat (progress (prog_unfold;
                    cbn -[String.append Scoring._scoreAnswers
                          Choice.resultText] in * )).

Section ChoiceMore.
Context (synth_close peer_close : Js.Completion unit).

(** *** No handler throws *)

Lemma total_bounded_speak text ms tf k resume :
  (∀ r, total (resume r)) → total (Choice.bounded_speak text ms tf k resume).
Proof. intros Hr. total_more. apply Hr. Qed.

Lemma total_after_result data r :
  total (Choice.after_result synth_close peer_close data r).
Proof. total_more. Qed.

Lemma total_after_wait r : total (Choice.after_wait synth_close peer_close r).
Proof.
  unfold Choice.after_wait. total_more.
Qed.

Lemma total_finishInterview :
  total (Choice._finishInterview synth_close peer_close).
Proof.
  unfold Choice._finishInterview. total_more.
Qed.

Lemma total_askQuestion idx :
  total (Choice._askQuestion synth_close peer_close idx).
Proof.
  unfold Choice._askQuestion.
  apply total_bind; [apply total_emit|intros _].
  apply total_bind; [apply total_get|intros s].
  destruct (length (Choice.questions s) <=? idx)%nat eqn:Hlen;
    [apply total_finishInterview|].
  apply Nat.leb_gt in Hlen.
  destruct (lookup_lt_is_Some_2 _ idx Hlen) as [q ->].
  total_more.
Qed.

Lemma total_resume k r : total (Choice.resume synth_close peer_close k r).
Proof.
  destruct k; cbn [Choice.resume].
  - unfold Choice.after_welcome.
    apply total_bind; [total_more|intros _; apply total_askQuestion].
  - total_more.
  - apply total_after_wait.
  - apply total_after_result.
Qed.

Lemma total_settle_race r how :
  total (Choice.settle_race synth_close peer_close r how).
Proof.
  unfold Choice.settle_race.
  apply total_bind; [apply total_get|intros s].
  destruct (Choice.find_race r s) as [x|]; [|apply total_ret].
  destruct (Choice.unsettled x); [|apply total_ret].
  apply total_bind; [total_more|intros _; apply total_resume].
Qed.

Lemma choice_ice_live (state : string) (s : Choice.State) :
  Choice.enabled (Choice.IceStateChange state) s = true →
  Choice.handle synth_close peer_close (Choice.IceStateChange state) s
  = Choice.on_avatar (Avatar.ice_state_seen Choice.callbacks state) s.
Proof.
  cbn [Choice.enabled Choice.handle]. intros H%bool_decide_eq_true.
  unfold Choice.on_avatar, zoom. by rewrite ice_state_change_live.
Qed.

Lemma choice_ice_dead (state : string) (s : Choice.State) :
  Avatar._peerConn (Choice.avatar s) = None →
  Choice.handle synth_close peer_close (Choice.IceStateChange state) s
  = (Js.Throw Avatar.null_peer, s, []).
Proof.
  intros H. cbn [Choice.handle]. unfold Choice.on_avatar, zoom.
  rewrite ice_state_change_dead by done. by destruct s.
Qed.

Lemma total_handle e :
  (∀ state, e ≠ Choice.IceStateChange state) →
  total (Choice.handle synth_close peer_close e).
Proof.
  intros He. destruct e; cbn [Choice.handle].
  - apply total_bind; [total_more|intros _].
    apply total_bind; [total_more|intros how; apply total_settle_race].
  - apply total_bind; [total_more|intros _].
    apply total_bind; [total_more|intros how; apply total_settle_race].
  - apply total_bind; [apply total_get|intros s].
    apply total_bind; [total_more|intros _; apply total_settle_race].
  - apply total_bind; [apply total_modify|intros _].
    unfold Choice.after_delay.
    apply total_bind; [apply total_get|intros s; apply total_askQuestion].
  - total_more.
  - by destruct (He state).
Qed.

Lemma total_ice_seen state :
  total (Choice.on_avatar (Avatar.ice_state_seen Choice.callbacks state)).
Proof. total_more. Qed.

(** [_startInterview] never throws, and no event handler does, with one
    exception: the ICE handler throws a TypeError, before it logs or changes
    anything, when the manager has no peer connection, which is so after
    [disconnect].  An event that can happen never throws.  In particular
    [_askQuestion] never reads a question that is not there, and the errors
    of a failed or timed-out speak and of [close()] are all caught. *)
Theorem choice_never_throws (s : Choice.State) :
  (Choice._startInterview synth_close peer_close s).1.1 = Js.Normal tt
  ∧ (∀ e, (Choice.handle synth_close peer_close e s).1.1
          = if ice_without_peer e s then Js.Throw Avatar.null_peer
            else Js.Normal tt)
  ∧ (∀ e, if Choice.enabled e s then ice_without_peer e s = false
          else Choice.step synth_close peer_close e s = (s, []))
  ∧ (∀ state,
       if ice_without_peer (Choice.IceStateChange state) s
       then Choice.handle synth_close peer_close
              (Choice.IceStateChange state) s
            = (Js.Throw Avatar.null_peer, s, [])
       else True).
Proof.
  split; [|split; [|split]].
  - assert (H : total (Choice._startInterview synth_close peer_close)).
    { unfold Choice._startInterview.
      apply total_bind; [apply total_emit|intros _].
      apply total_bind; [apply total_get|intros s0].
      apply total_bind; [total_more|intros _].
      apply total_bounded_speak. intros r.
      apply (total_resume Choice.KWelcome r). }
    destruct (H s) as [[] ->]. reflexivity.
  - intros e.
    assert (Hice : ∀ state, e = Choice.IceStateChange state →
              (Choice.handle synth_close peer_close e s).1.1
              = if ice_without_peer e s then Js.Throw Avatar.null_peer
                else Js.Normal tt).
    { intros state ->. cbn [ice_without_peer].
      destruct (Avatar._peerConn (Choice.avatar s)) as [p|] eqn:Hp.
      - rewrite bool_decide_eq_true_2 by (by exists p). cbn [negb].
        rewrite choice_ice_live
          by (cbn; rewrite Hp; by apply bool_decide_eq_true_2).
        destruct (total_ice_seen state s) as [[] ->]. reflexivity.
      - rewrite bool_decide_eq_false_2 by (by intros [? ?]). cbn [negb].
        by rewrite choice_ice_dead. }
    destruct e as [r result|r err|r| |o|state];
      [| | | | |exact (Hice state eq_refl)].
    all: cbn [ice_without_peer];
      match goal with
      | |- (Choice.handle _ _ ?e _).1.1 = _ =>
          destruct (total_handle e ltac:(intros ? H; discriminate H) s) as [[] ->]
      end; reflexivity.
  - intros e. unfold Choice.step.
    destruct (Choice.enabled e s) eqn:E; [|done].
    destruct e; try done. cbn in *. by rewrite E.
  - intros state. cbn [ice_without_peer].
    destruct (Avatar._peerConn (Choice.avatar s)) as [p|] eqn:Hp.
    + by rewrite bool_decide_eq_true_2 by (by exists p).
    + rewrite bool_decide_eq_false_2 by (by intros [? ?]). cbn [negb].
      by apply choice_ice_dead.
Qed.

(** *** What holds in every state *)

Lemma core_handle qs ans e :
  is_click e = false →
  keeps (core qs ans) (Choice.handle synth_close peer_close e).
Proof.
  destruct e; try done; intros _; frame_auto; core_leaf.
Qed.

Lemma kept_handle qs ans e :
  is_click e = false →
  keeps (kept qs ans) (Choice.handle synth_close peer_close e).
Proof.
  destruct e; try done; intros _; frame_auto; core_leaf.
Qed.

Lemma core_start qs ans :
  keeps (core qs ans) (Choice._startInterview synth_close peer_close).
Proof. frame_auto; core_leaf. Qed.

Lemma handleAnswer_core (questionId : Z) (optionId : string)
    (s : Choice.State) :
  let s' := (Choice._handleAnswer questionId optionId s).1.2 in
  Choice.questions s' = Choice.questions s
  ∧ Choice.currentIdx s' = Choice.currentIdx s
  ∧ Choice.panel s' = (if Choice.answerLocked s then Choice.panel s
                       else (λ b, (b.1, false)) <$> Choice.panel s)
  ∧ Choice.answers s'
    = if Choice.answerLocked s then Choice.answers s
      else <[Js.String_ questionId := optionId]> (Choice.answers s).
Proof.
  destruct s as [qs cur ans [|] av panel races delays next region];
    unfold Choice._handleAnswer; choice_run; done.
Qed.

Lemma click_handle (o : string) (s : Choice.State) :
  Choice.enabled (Choice.Click o) s = true →
  ∃ q, Choice.panel s = Some (q, true) ∧ o ∈ oid <$> options q
       ∧ Choice.handle synth_close peer_close (Choice.Click o) s
         = Choice._handleAnswer (id q) o s.
Proof.
  cbn [Choice.enabled]. intros E.
  destruct (Choice.panel s) as [[q [|]]|] eqn:Hp; try done.
  exists q. split; [done|]. split; [by apply bool_decide_eq_true in E|].
  cbn [Choice.handle]. prog_unfold. cbn. rewrite Hp. by rewrite prog_eta.
Qed.

Lemma sound_step e s :
  choice_sound s → choice_sound (Choice.step synth_close peer_close e s).1.
Proof.
  intros (Hq & Hi & Hb & Ha).
  pose proof (buttons_step synth_close peer_close e s Hb) as Hb'.
  unfold Choice.step in *.
  destruct (Choice.enabled e s) eqn:E; [|done].
  destruct (is_click e) eqn:Hc.
  - destruct e as [| | | |o|]; try done.
    destruct (click_handle o s E) as (q & Hp & Ho & Hh).
    rewrite Hh in *.
    destruct (handleAnswer_core (id q) o s) as (Hq' & Hi' & _ & Ha').
    destruct (Choice._handleAnswer (id q) o s) as [[r s1] l]. cbn in *.
    split; [congruence|]. split; [congruence|]. split; [done|].
    intros k v Hkv. rewrite Hq'. rewrite Ha' in Hkv.
    destruct (Choice.answerLocked s); [by apply Ha|].
    destruct (decide (k = Js.String_ (id q))) as [->|Hne].
    + rewrite lookup_insert_eq in Hkv. injection Hkv as <-.
      exists q. split; [|done].
      eapply list_elem_of_lookup_2. by apply (Hb q true).
    + rewrite lookup_insert_ne in Hkv by done. by apply Ha.
  - assert (H0 : core (Choice.questions s) (Choice.answers s) s) by done.
    pose proof (core_handle _ _ e Hc s H0) as (Hq' & Ha' & Hi').
    destruct (Choice.handle synth_close peer_close e s) as [[r s1] l].
    cbn in *.
    split; [congruence|]. split; [congruence|]. split; [done|].
    intros k v Hkv. rewrite Hq'. rewrite Ha' in Hkv. by apply Ha.
Qed.

Lemma sound_run es s :
  choice_sound s → choice_sound (Choice.run synth_close peer_close es s).1.
Proof.
  revert s. induction es as [|e es IH]; intros s H; [done|].
  cbn [Choice.run].
  pose proof (sound_step e s H) as H1.
  destruct (Choice.step synth_close peer_close e s) as [s1 l1].
  specialize (IH s1 H1).
  by destruct (Choice.run synth_close peer_close es s1) as [s2 l2].
Qed.

(** In every state a session reaches the questions are the five of the
    source, [currentIdx] is the index of one of them, the option buttons in
    the page are those of the current question, and every stored answer is
    an option of the question whose id it is stored under. *)
Theorem reachable_sound (s : Choice.State) :
  choice_reachable synth_close peer_close s → choice_sound s.
Proof.
  intros Hr. pose proof (buttons_reachable synth_close peer_close s Hr) as Hb.
  destruct Hr as (manager & region & es & ->).
  unfold Choice.run_from_start, Choice.start in *.
  assert (H0 : core QUESTIONS ∅ (Choice.new manager region)).
  { repeat split. cbn. lia. }
  pose proof (core_start _ _ _ H0) as (Hq & Ha & Hi).
  assert (Hb1 : buttons_of_current
                  (Choice.run_from_start synth_close peer_close []
                     (Choice.new manager region)).1).
  { apply (buttons_reachable synth_close peer_close).
    by exists manager, region, []. }
  unfold Choice.run_from_start, Choice.start in Hb1.
  destruct (Choice._startInterview synth_close peer_close
              (Choice.new manager region)) as [[r s1] l1].
  cbn in Hq, Ha, Hi, Hb1.
  assert (H1 : choice_sound s1).
  { split; [done|]. split; [by rewrite Hq|]. split.
    - exact Hb1.
    - intros k v Hkv. rewrite Ha in Hkv. by rewrite lookup_empty in Hkv. }
  pose proof (sound_run es s1 H1) as H2.
  by destruct (Choice.run synth_close peer_close es s1) as [s2 l2].
Qed.

(** Only a click stores an answer: every other event leaves [answers] as it
    is, a click that is accepted stores the clicked option under the id of
    the question whose buttons are in the page, and no event removes an
    answer. *)
Theorem answers_only_grow (e : Choice.Event) (s : Choice.State) :
  let s' := (Choice.step synth_close peer_close e s).1 in
  dom (Choice.answers s) ⊆ dom (Choice.answers s')
  ∧ match e with
    | Choice.Click o =>
        match Choice.panel s with
        | Some (q, true) =>
            if bool_decide (o ∈ oid <$> options q) && negb (Choice.answerLocked s)
            then Choice.answers s' = <[Js.String_ (id q) := o]> (Choice.answers s)
            else Choice.answers s' = Choice.answers s
        | _ => Choice.answers s' = Choice.answers s
        end
    | _ => Choice.answers s' = Choice.answers s
    end.
Proof.
  intros s'. subst s'. unfold Choice.step.
  destruct (Choice.enabled e s) eqn:E.
  - destruct (is_click e) eqn:Hc.
    + destruct e as [| | | |o|]; try done.
      destruct (click_handle o s E) as (q & Hp & Ho & Hh).
      rewrite Hh, Hp.
      destruct (handleAnswer_core (id q) o s) as (_ & _ & _ & Ha').
      destruct (Choice._handleAnswer (id q) o s) as [[r s1] l]. cbn in *.
      rewrite (bool_decide_eq_true_2 _ Ho). rewrite Ha'.
      destruct (Choice.answerLocked s); cbn; [done|].
      split; [|done]. rewrite dom_insert. apply union_subseteq_r.
    + assert (H0 : kept (Choice.questions s) (Choice.answers s) s) by done.
      pose proof (kept_handle _ _ e Hc s H0) as (_ & Ha').
      destruct (Choice.handle synth_close peer_close e s) as [[r s1] l].
      cbn in *. rewrite Ha'. by destruct e.
  - cbn. split; [done|].
    destruct e as [| | | |o|]; try done. cbn [Choice.enabled] in E.
    destruct (Choice.panel s) as [[q [|]]|]; try done.
    by rewrite E.
Qed.

(** *** The end of the interview *)

(** When the race a method waits on settles, the flags of the race are
    updated, the manager's callback runs, and the method goes on from
    there; none of that speaks, arms a timer, shows results or closes
    anything. *)
Lemma settle_resumes (s : Choice.State) (r : nat) (k : Choice.Kont)
    (w : Settling) :
  awaiting r k s →
  ∃ how s1 l1,
    Choice.handle synth_close peer_close (settling_event r w) s
    = (let '(res, s2, l2) := Choice.resume synth_close peer_close k how s1 in
       (res, s2, l1 ++ l2))
    ∧ Choice.enabled (settling_event r w) s = true
    ∧ (Choice.questions s1, Choice.currentIdx s1, Choice.answers s1,
       Choice.delays s1, Choice.next_req s1)
      = (Choice.questions s, Choice.currentIdx s, Choice.answers s,
         Choice.delays s, Choice.next_req s)
    ∧ (Avatar._synthesizer (Choice.avatar s1),
       Avatar._peerConn (Choice.avatar s1),
       Avatar.isConnected (Choice.avatar s1))
      = (Avatar._synthesizer (Choice.avatar s),
         Avatar._peerConn (Choice.avatar s),
         Avatar.isConnected (Choice.avatar s))
    ∧ speak_requests l1 = [] ∧ timeouts_set l1 = [] ∧ shown l1 = []
    ∧ closes l1 = [] ∧ entered l1 = [].
Proof.
  intros (x & Hfind & Hk & Hu & Hsdk & Htimer).
  destruct s as [qs cur ans locked [synth peer conn speaking] panel races
                   delays next region].
  unfold Choice.find_race in Hfind. cbn in Hfind.
  assert (Hset : ∀ f, (∀ y, Choice.req (f y) = Choice.req y) →
            find (λ y, Nat.eqb (Choice.req y) r)
              ((λ y, if Nat.eqb (Choice.req y) r then f y else y) <$> races)
            = Some (f x)).
  { intros f Hf. by rewrite find_update_race, Hfind. }
  destruct w as [result|err|]; cbn [settling_event];
    unfold Choice.enabled, Choice.handle, Choice.update_race,
      Choice.on_avatar,
      Avatar.speak_result, Avatar.speak_error, Avatar.invoke,
      Avatar.on_manager, Choice.callbacks, Choice.body,
      Choice._setOptionsEnabled, Choice._setDot, Choice._setStatusLabel,
      Choice._setHint, Choice.settle_race, Choice.find_race;
    try destruct (Avatar.completed result) eqn:Ec;
    pre_run; rewrite ?Hfind; pre_run; rewrite Hset by done; pre_run;
    rewrite Hu, ?Hsdk, ?Htimer; pre_run; rewrite Hk.
  all: match goal with
       | |- context [Choice.resume _ _ _ ?how ?s1] => exists how, s1
       end; eexists;
    (split;
     [match goal with
      | |- context [Choice.resume ?a ?b ?c ?how ?s1] =>
          destruct (Choice.resume a b c how s1) as [[res s2] l2]
      end;
      match goal with
      | |- (_, _, ?L) = (_, _, ?e ++ ?t) =>
          let p := prefix_of L t in unify e p
      end; reflexivity
     |repeat split; reflexivity]).
Qed.

Lemma after_wait_spec (how : Js.Settlement unit) (s : Choice.State) :
  let out := Choice.after_wait synth_close peer_close how s in
  let data := Scoring._scoreAnswers (Choice.answers s) in
  out.1.1 = Js.Normal tt
  ∧ (Choice.questions out.1.2, Choice.currentIdx out.1.2,
     Choice.answers out.1.2, Choice.delays out.1.2)
    = (Choice.questions s, Choice.currentIdx s, Choice.answers s,
       Choice.delays s)
  ∧ if ready (Choice.avatar s) then
      speak_requests out.2 = [(Choice.next_req s, Choice.resultText data)]
      ∧ timeouts_set out.2 = [20000]
      ∧ newest_race out.1.2
        = Some {| Choice.req := Choice.next_req s;
                  Choice.kont := Choice.KResult data;
                  Choice.unsettled := true; Choice.sdk_pending := true;
                  Choice.timer_pending := true |}
      ∧ shown out.2 = [] ∧ closes out.2 = []
    else
      speak_requests out.2 = [] ∧ shown out.2 = [data]
      ∧ closes out.2 = closes_due (Choice.avatar s)
      ∧ torn_down (Choice.avatar out.1.2).
Proof.
  intros out data. subst out data.
  destruct s as [qs cur ans locked [synth peer conn speaking] panel races
                   delays next region].
    unfold Choice.resume, Choice.after_wait, Choice.bounded_speak,
      Choice.add_race, Choice.on_avatar, Avatar.speak, Avatar.invoke,
      Avatar.on_manager, Choice.callbacks, Choice.body,
      Choice._setOptionsEnabled, Choice._setDot, Choice._setStatusLabel,
      Choice._setHint, Choice.after_result, Choice._showResults,
      Avatar.disconnect.
  destruct how as [[]|e].
  all: destruct synth as [[]|], conn; fin_run.
  all: try (split; [reflexivity|]; split; [reflexivity|];
            split; [reflexivity|]; split; [reflexivity|];
            split; [|split; reflexivity];
            unfold newest_race; cbn -[Scoring._scoreAnswers last];
            apply last_snoc).
  all: destruct peer as [[]|], synth_close as [[]|], peer_close as [[]|];
    fin_run; repeat split; reflexivity.
Qed.

(** When the first speech of [_finishInterview] settles, in whichever way,
    the answers are scored as they are then.  With a manager that can speak
    the result is spoken under a 20 s bound and [_finishInterview] waits
    again; otherwise the speak is rejected at once, the results screen is
    shown with the report and the avatar is disconnected in the same
    task. *)
Theorem wait_then_report (s : Choice.State) (r : nat) (w : Settling) :
  awaiting r Choice.KWait s →
  let out := Choice.handle synth_close peer_close (settling_event r w) s in
  let data := Scoring._scoreAnswers (Choice.answers s) in
  Choice.enabled (settling_event r w) s = true
  ∧ out.1.1 = Js.Normal tt
  ∧ (Choice.questions out.1.2, Choice.currentIdx out.1.2,
     Choice.answers out.1.2, Choice.delays out.1.2)
    = (Choice.questions s, Choice.currentIdx s, Choice.answers s,
       Choice.delays s)
  ∧ if ready (Choice.avatar s) then
      speak_requests out.2 = [(Choice.next_req s, Choice.resultText data)]
      ∧ timeouts_set out.2 = [20000]
      ∧ newest_race out.1.2
        = Some {| Choice.req := Choice.next_req s;
                  Choice.kont := Choice.KResult data;
                  Choice.unsettled := true; Choice.sdk_pending := true;
                  Choice.timer_pending := true |}
      ∧ shown out.2 = [] ∧ closes out.2 = []
    else
      speak_requests out.2 = [] ∧ shown out.2 = [data]
      ∧ closes out.2 = closes_due (Choice.avatar s)
      ∧ torn_down (Choice.avatar out.1.2).
Proof.
  intros Haw out data.
  destruct (settle_resumes s r Choice.KWait w Haw)
    as (how & s1 & l1 & Heq & Hen & Hcore & Hav & H1 & H2 & H3 & H4 & H5).
  subst out data. rewrite Heq. cbn [Choice.resume].
  pose proof (after_wait_spec how s1) as Hspec. cbv zeta in Hspec.
  injection Hcore as Hq Hi Ha Hd Hn. injection Hav as Hsy Hpe Hco.
  assert (Hready : ready (Choice.avatar s1) = ready (Choice.avatar s))
    by (unfold ready; by rewrite Hsy, Hco).
  assert (Hdue : closes_due (Choice.avatar s1) = closes_due (Choice.avatar s))
    by (unfold closes_due; by rewrite Hsy, Hpe).
  rewrite Hready, Hdue, Ha, Hn in Hspec.
  destruct (Choice.after_wait synth_close peer_close how s1) as [[res s2] l2].
  cbn [fst snd] in *.
  destruct Hspec as (Hres & Hflow & Hrest).
  split; [done|]. split; [done|]. split; [congruence|].
  unfold speak_requests, timeouts_set, shown, closes in *.
  rewrite !omap_app, List.filter_app, H1, H2, H3, H4. exact Hrest.
Qed.

(** When the second speech of [_finishInterview] settles, in whichever
    way, the results screen is shown once, with the report computed before
    the speech, and then the avatar is disconnected: [close()] is called on
    what is there, a failing [close()] stops nothing, and the manager ends
    without synthesizer, without peer connection and not connected.  The
    questions, the position and the answers stay as they are. *)
Theorem results_then_disconnect (s : Choice.State) (r : nat)
    (data : Scoring.Report) (w : Settling) :
  awaiting r (Choice.KResult data) s →
  let out := Choice.handle synth_close peer_close (settling_event r w) s in
  Choice.enabled (settling_event r w) s = true
  ∧ out.1.1 = Js.Normal tt
  ∧ shown out.2 = [data]
  ∧ entered out.2 = [M_disconnect]
  ∧ closes out.2 = closes_due (Choice.avatar s)
  ∧ torn_down (Choice.avatar out.1.2)
  ∧ (Choice.questions out.1.2, Choice.currentIdx out.1.2,
     Choice.answers out.1.2, Choice.delays out.1.2)
    = (Choice.questions s, Choice.currentIdx s, Choice.answers s,
       Choice.delays s).
Proof.
  intros (x & Hfind & Hk & Hu & Hsdk & Htimer) out. subst out.
  destruct s as [qs cur ans locked [synth peer conn speaking] panel races
                   delays next region].
  unfold Choice.find_race in Hfind. cbn in Hfind.
  split.
  { destruct w; unfold Choice.enabled, Choice.find_race; cbn;
      by rewrite Hfind. }
  assert (Hset : ∀ f, (∀ y, Choice.req (f y) = Choice.req y) →
            find (λ y, Nat.eqb (Choice.req y) r)
              ((λ y, if Nat.eqb (Choice.req y) r then f y else y) <$> races)
            = Some (f x)).
  { intros f Hf. by rewrite find_update_race, Hfind. }
  destruct w as [result|err|]; cbn [settling_event succeeded];
    unfold Choice.handle, Choice.update_race, Choice.on_avatar,
      Avatar.speak_result, Avatar.speak_error, Avatar.invoke,
      Avatar.on_manager, Choice.callbacks, Choice.body,
      Choice._setOptionsEnabled, Choice._setDot, Choice._setStatusLabel,
      Choice._setHint, Choice.settle_race, Choice.find_race;
    try destruct (Avatar.completed result) eqn:Ec;
    prog_run; rewrite ?Hfind; prog_run; rewrite Hset by done; prog_run;
    rewrite Hu; prog_run; rewrite Hk;
    unfold Choice.resume, Choice.after_result, Choice._showResults,
      Avatar.disconnect;
    destruct synth as [[]|], peer as [[]|], synth_close as [[]|],
      peer_close as [[]|]; prog_run; done.
Qed.

End ChoiceMore.


Lemma reachable_sound_witness :
  choice_reachable (Js.Normal tt) (Js.Normal tt) finishing
  ∧ choice_sound finishing.
Proof.
  assert (H : choice_reachable (Js.Normal tt) (Js.Normal tt) finishing)
    by (exists connected_manager, "eastus2", timely_speech_end; reflexivity).
  split; [exact H|].
  exact (reachable_sound (Js.Normal tt) (Js.Normal tt) finishing H).
Defined.

Lemma wait_then_report_witness :
  awaiting 6 Choice.KWait finishing
  ∧ (Choice.handle (Js.Normal tt) (Js.Normal tt)
       (settling_event 6 ByTimeout) finishing).1.1 = Js.Normal tt.
Proof.
  assert (H : awaiting 6 Choice.KWait finishing).
  { eexists. split; [vm_compute; reflexivity|]. repeat split; reflexivity. }
  split; [exact H|].
  exact (proj1 (proj2 (wait_then_report (Js.Normal tt) (Js.Normal tt)
                         finishing 6 ByTimeout H))).
Defined.

Lemma results_then_disconnect_witness :
  awaiting 7 (Choice.KResult (Scoring._scoreAnswers (Choice.answers finishing)))
    reporting
  ∧ shown (Choice.handle (Js.Normal tt) (Js.Normal tt)
             (settling_event 7 (BySuccess completed_result)) reporting).2
    = [Scoring._scoreAnswers (Choice.answers finishing)].
Proof.
  assert (H : awaiting 7 (Choice.KResult
                            (Scoring._scoreAnswers (Choice.answers finishing)))
                reporting).
  { eexists. split; [vm_compute; reflexivity|].
    split; [vm_compute; reflexivity|]. repeat split; reflexivity. }
  split; [exact H|].
  exact (proj1 (proj2 (proj2 (results_then_disconnect (Js.Normal tt)
                                (Js.Normal tt) reporting 7 _
                                (BySuccess completed_result) H)))).
Defined.

(** ** The multiple-choice controller: questions in order *)

Section Does.
Context {S : Type}.

Lemma does_pre (P P' : S → Prop) p R :
  (∀ s, P s → P' s) → does P' p R → does P p R.
Proof. intros HP H s Hs. apply H, HP, Hs. Qed.

Lemma does_post (P : S → Prop) p (R R' : list Method → S → Prop) :
  (∀ m s, R m s → R' m s) → does P p R → does P p R'.
Proof. intros HR H s Hs. destruct (H s Hs) as [Hn Hr]. split; [done|by apply HR]. Qed.

Lemma does_quiet (P Q : S → Prop) p :
  hoare P p Q → total p → silent p → does P p (λ m s, m = [] ∧ Q s).
Proof.
  intros Hh Ht Hs s HP. destruct (Ht s) as [[] Hn]. split; [done|].
  split; [apply Hs|by apply Hh].
Qed.

Lemma does_bind {A} (P Q : S → Prop) (m : Prog S A) (f : A → Prog S unit) R :
  hoare P m Q → total m → silent m → (∀ a, does Q (f a) R) →
  does P (m ≫= f) R.
Proof.
  intros Hh Ht Hs Hf s HP. specialize (Hh s HP). destruct (Ht s) as [a Hn].
  specialize (Hs s). prog_unfold.
  destruct (m s) as [[r s1] l1]. cbn [fst snd] in *. subst r.
  specialize (Hf a s1 Hh). destruct (f a s1) as [[r2 s2] l2].
  cbn [fst snd] in *. by rewrite marks_app, Hs.
Qed.

Lemma does_get (P : S → Prop) (f : S → Prog S unit) R :
  (∀ a, P a → does (λ s, s = a) (f a) R) → does P (get ≫= f) R.
Proof.
  intros Hf s HP. specialize (Hf s HP s eq_refl). prog_unfold.
  cbn -[marks]. by destruct (f s s) as [[r2 s2] l2].
Qed.

Lemma does_get' (P : S → Prop) (f : S → Prog S unit) R :
  (∀ a, P a → does P (f a) R) → does P (get ≫= f) R.
Proof.
  intros Hf. apply does_get. intros a Ha.
  apply (does_pre _ P); [by intros s ->|by apply Hf].
Qed.

Lemma does_mark (P : S → Prop) (e : Effect) (mk : Method) (p : Prog S unit) R :
  marks [e] = [mk] → does P p (λ m s, R (mk :: m) s) →
  does P (emit e ≫= λ _, p) R.
Proof.
  intros He Hp s HP. specialize (Hp s HP). prog_unfold. cbn -[marks].
  destruct (p s) as [[r2 s2] l2]. cbn [fst snd] in *.
  change (e :: l2) with ([e] ++ l2). by rewrite marks_app, He.
Qed.
End Does.

Lemma no_welcome_update r (f : Choice.Race → Choice.Race) (l : list Choice.Race) :
  (∀ x, Choice.unsettled (f x) = true → Choice.unsettled x = true) →
  (∀ x, Choice.kont (f x) = Choice.kont x) →
  Forall (λ x, Choice.unsettled x = true → Choice.kont x ≠ Choice.KWelcome) l →
  Forall (λ x, Choice.unsettled x = true → Choice.kont x ≠ Choice.KWelcome)
    ((λ x, if Nat.eqb (Choice.req x) r then f x else x) <$> l).
Proof.
  intros Hu Hk Hl. apply Forall_fmap. eapply Forall_impl; [exact Hl|].
  intros x Hx. cbn. destruct (Nat.eqb (Choice.req x) r); [|done].
  intros H. rewrite Hk. by apply Hx, Hu.
Qed.

Lemma no_welcome_add (x : Choice.Race) (l : list Choice.Race) :
  Choice.kont x ≠ Choice.KWelcome →
  Forall (λ x, Choice.unsettled x = true → Choice.kont x ≠ Choice.KWelcome) l →
  Forall (λ x, Choice.unsettled x = true → Choice.kont x ≠ Choice.KWelcome)
    (l ++ [x]).
Proof.
  intros Hx Hl. apply Forall_app. split; [done|]. by constructor.
Qed.

Ltac asking_leaf :=
  unfold asking, no_welcome in *;
  cbn [Choice.questions Choice.currentIdx Choice.races
       Choice.set_currentIdx Choice.set_answers Choice.set_answerLocked
       Choice.set_avatar Choice.set_panel Choice.set_races Choice.set_delays
       Choice.set_next_req];
  intros;
  repeat match goal with H : _ ∧ _ |- _ => destruct H end;
  repeat split; try done;
  try (apply no_welcome_update; [by intros []|by intros []|done]);
  try (apply no_welcome_add; [done|done]).

Ltac asking_frame := frame_auto; asking_leaf.

Ltac welcoming_leaf :=
  unfold welcoming, unstarted in *;
  cbn [Choice.questions Choice.currentIdx Choice.races Choice.delays
       Choice.panel
       Choice.set_currentIdx Choice.set_answers Choice.set_answerLocked
       Choice.set_avatar Choice.set_panel Choice.set_races Choice.set_delays
       Choice.set_next_req];
  intros;
  repeat match goal with H : _ ∧ _ |- _ => destruct H end;
  repeat split; try done;
  try (match goal with H : Choice.panel _ = None |- _ => by rewrite H end);
  try (rewrite filter_update_flags by done; done).

Ltac welcoming_frame := frame_auto; welcoming_leaf.

Lemma filter_nil_forall {A} (f : A → bool) (P : A → Prop) (l : list A) :
  List.filter f l = [] → Forall (λ x, f x = true → P x) l.
Proof.
  induction l as [|y l IH]; [done|]. cbn.
  destruct (f y) eqn:Ey; [done|]. intros Hl.
  constructor; [by rewrite Ey|by apply IH].
Qed.

Lemma closing_snoc (n j : nat) :
  closing n j ++ [M_askQuestion n; M_finishInterview] = closing n (S j).
Proof.
  unfold closing. induction j as [|j IH]; [done|].
  cbn [replicate concat] in *. by rewrite <- app_assoc, IH.
Qed.

Section ChoiceOrder.
Context (synth_close peer_close : Js.Completion unit).
Context (qs : list Question).

#[local] Abbreviation n := (length qs).

Lemma asking_bounded_speak c text ms tf k resume :
  k ≠ Choice.KWelcome → (∀ r, keeps (asking qs c) (resume r)) →
  keeps (asking qs c) (Choice.bounded_speak text ms tf k resume).
Proof.
  intros Hk Hres. unfold Choice.bounded_speak.
  frame_auto; try apply Hres; asking_leaf.
Qed.

Lemma asking_after_result c data r :
  keeps (asking qs c) (Choice.after_result synth_close peer_close data r).
Proof. asking_frame. Qed.

Lemma asking_after_wait c r :
  keeps (asking qs c) (Choice.after_wait synth_close peer_close r).
Proof.
  unfold Choice.after_wait. frame_step; [asking_frame|].
  frame_step. apply asking_bounded_speak; [done|].
  intros r'. apply asking_after_result.
Qed.

Lemma asking_after_ask c idx r : keeps (asking qs c) (Choice.after_ask idx r).
Proof. asking_frame. Qed.

Lemma asking_handleAnswer c questionId optionId :
  keeps (asking qs c) (Choice._handleAnswer questionId optionId).
Proof. asking_frame. Qed.

Lemma asking_speak_end c r a :
  keeps (asking qs c) (Choice.on_avatar (answer_speak Choice.callbacks r a)).
Proof. destruct a; cbn [answer_speak]; asking_frame. Qed.

Lemma asking_ice c state :
  keeps (asking qs c)
    (Choice.on_avatar (Avatar.ice_state_seen Choice.callbacks state)).
Proof. asking_frame. Qed.

Lemma asking_update_race c r f :
  (∀ x, Choice.unsettled (f x) = true → Choice.unsettled x = true) →
  (∀ x, Choice.kont (f x) = Choice.kont x) →
  keeps (asking qs c) (Choice.update_race r f).
Proof.
  intros Hu Hk. unfold Choice.update_race. apply keeps_modify.
  intros s (Hq & Hc & Hw). repeat split; try done.
  by apply no_welcome_update.
Qed.

Lemma silent_after_result data r :
  silent (Choice.after_result synth_close peer_close data r).
Proof. silent_auto. Qed.

Lemma silent_after_wait r :
  silent (Choice.after_wait synth_close peer_close r).
Proof. silent_auto. Qed.

Lemma silent_after_ask idx r : silent (Choice.after_ask idx r).
Proof. silent_auto. Qed.

(** [_finishInterview] and [_askQuestion] *)
Lemma does_finishInterview c :
  does (asking qs c) (Choice._finishInterview synth_close peer_close)
    (λ m s, m = [M_finishInterview] ∧ asking qs c s).
Proof.
  unfold Choice._finishInterview.
  apply (does_mark _ _ M_finishInterview); [done|].
  eapply does_post; [|apply (does_quiet _ (asking qs c))].
  - by intros m s [-> ?].
  - apply hoare_keeps. frame_step; [asking_frame|].
    frame_step; [asking_frame|]. frame_step; [asking_frame|].
    frame_step; [asking_frame|]. frame_step; [asking_frame|].
    frame_step. frame_step; [asking_frame|].
    apply asking_bounded_speak; [done|]. intros r. apply asking_after_wait.
  - total_more.
  - silent_auto.
Qed.

Lemma does_askQuestion c i :
  does (asking qs c) (Choice._askQuestion synth_close peer_close i)
    (λ m s, if (i <? n)%nat then m = [M_askQuestion i] ∧ asking qs i s
            else m = [M_askQuestion i; M_finishInterview] ∧ asking qs c s).
Proof.
  unfold Choice._askQuestion.
  apply (does_mark _ _ (M_askQuestion i)); [done|].
  apply does_get'. intros a (Hq & _). rewrite Hq.
  destruct (n <=? i)%nat eqn:Hlen.
  - apply Nat.leb_le in Hlen.
    replace (i <? n)%nat with false by (symmetry; apply Nat.ltb_ge; lia).
    eapply does_post; [|apply does_finishInterview]. by intros m s [-> ?].
  - apply Nat.leb_gt in Hlen.
    replace (i <? n)%nat with true by (symmetry; apply Nat.ltb_lt; lia).
    destruct (lookup_lt_is_Some_2 qs i Hlen) as [q ->].
    eapply does_post; [|apply (does_quiet _ (asking qs i))].
    + by intros m s [-> ?].
    + apply (hoare_seq _ (asking qs i)); [apply total_modify| |intros _].
      { apply hoare_modify. by intros s (? & ? & ?). }
      apply hoare_keeps. frame_step; [asking_frame|].
      frame_step; [asking_frame|]. frame_step; [asking_frame|].
      frame_step; [asking_frame|].
      apply asking_bounded_speak; [done|]. intros r. apply asking_after_ask.
    + total_more.
    + silent_auto.
Qed.

(** The handlers once the welcome is over *)
Lemma does_resume_asking c k how :
  k ≠ Choice.KWelcome →
  does (asking qs c) (Choice.resume synth_close peer_close k how)
    (λ m s, m = [] ∧ asking qs c s).
Proof.
  intros Hk. destruct k; [done| | |]; cbn [Choice.resume];
    apply does_quiet.
  - apply asking_after_ask.
  - total_more.
  - apply silent_after_ask.
  - apply asking_after_wait.
  - apply total_after_wait.
  - apply silent_after_wait.
  - apply asking_after_result.
  - apply total_after_result.
  - apply silent_after_result.
Qed.

Lemma does_settle_asking c r how :
  does (asking qs c) (Choice.settle_race synth_close peer_close r how)
    (λ m s, m = [] ∧ asking qs c s).
Proof.
  unfold Choice.settle_race. apply does_get. intros s Hs.
  assert (Hsame : does (λ s', s' = s) (mret tt) (λ m s', m = [] ∧ asking qs c s')).
  { apply does_quiet; [by intros s' ->|apply total_ret|apply silent_ret]. }
  destruct (Choice.find_race r s) as [x|] eqn:Hf; [|exact Hsame].
  destruct (Choice.unsettled x) eqn:Hu; [|exact Hsame]. clear Hsame.
  assert (Hk : Choice.kont x ≠ Choice.KWelcome).
  { destruct Hs as (_ & _ & Hw). unfold Choice.find_race in Hf.
    apply List.find_some in Hf as [Hin _].
    apply list_elem_of_In in Hin.
    by apply (proj1 (Forall_forall _ _) Hw x Hin). }
  apply (does_bind _ (asking qs c)); [|total_more|silent_auto|intros _].
  { apply (hoare_pre _ (asking qs c)); [by intros s' ->|].
    apply hoare_keeps. by apply asking_update_race. }
  by apply does_resume_asking.
Qed.

Lemma does_handle_asking c e :
  e ≠ Choice.DelayElapsed →
  does (λ s, asking qs c s ∧ Choice.enabled e s = true)
    (Choice.handle synth_close peer_close e)
    (λ m s, m = [] ∧ asking qs c s).
Proof.
  intros He.
  destruct e as [r result|r err|r| |o|state]; [| | |done| |];
    [apply (does_pre _ (asking qs c)); [by intros s [? ?]|]..|];
    cbn [Choice.handle].
  - apply (does_bind _ (asking qs c)); [|total_more|silent_auto|intros _].
    { apply hoare_keeps. by apply asking_update_race. }
    apply (does_bind _ (asking qs c));
      [|total_more|silent_auto|intros how; apply does_settle_asking].
    apply hoare_keeps. apply (asking_speak_end c r (Succeeds result)).
  - apply (does_bind _ (asking qs c)); [|total_more|silent_auto|intros _].
    { apply hoare_keeps. by apply asking_update_race. }
    apply (does_bind _ (asking qs c));
      [|total_more|silent_auto|intros how; apply does_settle_asking].
    apply hoare_keeps. apply (asking_speak_end c r (Fails err)).
  - apply does_get'. intros a Ha.
    apply (does_bind _ (asking qs c));
      [|total_more|silent_auto|intros _; apply does_settle_asking].
    apply hoare_keeps. by apply asking_update_race.
  - apply does_quiet; [|total_more|silent_auto].
    apply hoare_keeps. frame_step.
    destruct (Choice.panel a) as [[q b]|];
      [apply asking_handleAnswer|apply keeps_ret].
  - intros s [Ha Hen].
    pose proof (choice_ice_live synth_close peer_close state s Hen) as E.
    cbn [Choice.handle] in E. rewrite E.
    apply (does_quiet (asking qs c) (asking qs c)); [|total_more|silent_auto|done].
    apply hoare_keeps. apply asking_ice.
Qed.

Lemma does_delay_asking c :
  does (asking qs c)
    (Choice.handle synth_close peer_close Choice.DelayElapsed)
    (λ m s, if (S c <? n)%nat
            then m = [M_askQuestion (S c)] ∧ asking qs (S c) s
            else m = [M_askQuestion (S c); M_finishInterview]
                 ∧ asking qs c s).
Proof.
  cbn [Choice.handle].
  apply (does_bind _ (asking qs c));
    [|apply total_modify|silent_auto|intros _].
  { apply hoare_modify. by intros s (? & ? & ?). }
  unfold Choice.after_delay. apply does_get'. intros a (_ & Hc & _).
  rewrite Hc. replace (c + 1)%nat with (S c) by lia.
  apply does_askQuestion.
Qed.

(** The handlers during the welcome *)
Lemma welcoming_update_race r f :
  (∀ x, Choice.unsettled (f x) = Choice.unsettled x) →
  (∀ x, Choice.kont (f x) = Choice.kont x) →
  keeps (welcoming qs) (Choice.update_race r f).
Proof. intros Hu Hk. welcoming_frame. Qed.

Lemma welcoming_speak_end r a :
  keeps (welcoming qs) (Choice.on_avatar (answer_speak Choice.callbacks r a)).
Proof. destruct a; cbn [answer_speak]; welcoming_frame. Qed.

Lemma welcoming_ice state :
  keeps (welcoming qs)
    (Choice.on_avatar (Avatar.ice_state_seen Choice.callbacks state)).
Proof. welcoming_frame. Qed.

Lemma does_after_welcome how :
  (0 < n)%nat →
  does (asking qs 0) (Choice.after_welcome synth_close peer_close how)
    (λ m s, m = [M_askQuestion 0] ∧ asking qs 0 s).
Proof.
  intros Hn. unfold Choice.after_welcome.
  apply (does_bind _ (asking qs 0)); [|total_more|silent_auto|intros _].
  { apply hoare_keeps. asking_frame. }
  eapply does_post; [|apply does_askQuestion]. intros m s. cbn beta.
  by replace (0 <? n)%nat with true by (symmetry; by apply Nat.ltb_lt).
Qed.

Lemma does_settle_welcoming r how :
  (0 < n)%nat →
  does (welcoming qs) (Choice.settle_race synth_close peer_close r how)
    (λ m s, (m = [] ∧ welcoming qs s)
            ∨ (m = [M_askQuestion 0] ∧ asking qs 0 s)).
Proof.
  intros Hn. unfold Choice.settle_race. apply does_get. intros s Hs.
  assert (Hsame : does (λ s', s' = s) (mret tt)
                    (λ m s', (m = [] ∧ welcoming qs s')
                             ∨ (m = [M_askQuestion 0] ∧ asking qs 0 s'))).
  { eapply does_post; [|apply (does_quiet _ (welcoming qs))];
      [by left|by intros s' ->|apply total_ret|apply silent_ret]. }
  destruct (Choice.find_race r s) as [x|] eqn:Hf; [|exact Hsame].
  destruct (Choice.unsettled x) eqn:Hu; [|exact Hsame]. clear Hsame.
  destruct Hs as (Hq & Hc & Hd & Hp & Hw).
  destruct (settle_single Choice.req Choice.unsettled
              (Choice.set_unsettled false) Choice.kont r _ x _
              (λ _, eq_refl) Hf Hu Hw) as [Hx Hclear].
  apply (does_bind _ (asking qs 0)); [|total_more|silent_auto|intros _].
  { unfold Choice.update_race. apply hoare_modify. intros s' ->.
    repeat split; try done. unfold no_welcome. cbn.
    by apply filter_nil_forall. }
  rewrite Hx. cbn [Choice.resume].
  eapply does_post; [|by apply does_after_welcome]. by right.
Qed.

Lemma does_handle_welcoming e :
  (0 < n)%nat → e ≠ Choice.DelayElapsed →
  does (λ s, welcoming qs s ∧ Choice.enabled e s = true)
    (Choice.handle synth_close peer_close e)
    (λ m s, (m = [] ∧ welcoming qs s)
            ∨ (m = [M_askQuestion 0] ∧ asking qs 0 s)).
Proof.
  intros Hn He.
  destruct e as [r result|r err|r| |o|state]; [| | |done| |];
    [apply (does_pre _ (welcoming qs)); [by intros s [? ?]|]..|];
    cbn [Choice.handle].
  - apply (does_bind _ (welcoming qs)); [|total_more|silent_auto|intros _].
    { apply hoare_keeps. by apply welcoming_update_race. }
    apply (does_bind _ (welcoming qs));
      [|total_more|silent_auto|intros how; by apply does_settle_welcoming].
    apply hoare_keeps. apply (welcoming_speak_end r (Succeeds result)).
  - apply (does_bind _ (welcoming qs)); [|total_more|silent_auto|intros _].
    { apply hoare_keeps. by apply welcoming_update_race. }
    apply (does_bind _ (welcoming qs));
      [|total_more|silent_auto|intros how; by apply does_settle_welcoming].
    apply hoare_keeps. apply (welcoming_speak_end r (Fails err)).
  - apply does_get'. intros a Ha.
    apply (does_bind _ (welcoming qs));
      [|total_more|silent_auto|intros _; by apply does_settle_welcoming].
    apply hoare_keeps. by apply welcoming_update_race.
  - apply does_get'. intros a (_ & _ & _ & Hp & _). rewrite Hp.
    eapply does_post; [|apply (does_quiet _ (welcoming qs))];
      [by left|by intros ? ?|apply total_ret|apply silent_ret].
  - intros s [Hw Hen].
    pose proof (choice_ice_live synth_close peer_close state s Hen) as E.
    cbn [Choice.handle] in E. rewrite E. clear E Hen.
    refine (does_post (welcoming qs) _ (λ m s, m = [] ∧ welcoming qs s)
              (λ m s, (m = [] ∧ welcoming qs s)
                      ∨ (m = [M_askQuestion 0] ∧ asking qs 0 s))
              _ _ s Hw); [by left|].
    apply does_quiet; [|total_more|silent_auto].
    apply hoare_keeps. apply welcoming_ice.
Qed.

(** [_startInterview] *)
Lemma does_startInterview :
  (0 < n)%nat →
  does (unstarted qs) (Choice._startInterview synth_close peer_close)
    (λ m s, (m = [] ∧ welcoming qs s)
            ∨ (m = [M_askQuestion 0] ∧ asking qs 0 s)).
Proof.
  intros Hn. unfold Choice._startInterview.
  apply (does_bind _ (unstarted qs));
    [apply hoare_emit|apply total_emit|silent_auto|intros _].
  apply does_get'. intros a0 Ha0.
  apply (does_bind _ (unstarted qs));
    [apply hoare_emit|apply total_emit|silent_auto|intros _].
  unfold Choice.bounded_speak.
  apply does_get'. intros a Ha.
  apply (does_bind _ (unstarted qs));
    [apply hoare_modify; welcoming_leaf|apply total_modify|silent_auto
    |intros _].
  apply (does_bind _ (unstarted qs));
    [apply hoare_emit|apply total_emit|silent_auto|intros _].
  apply (does_bind _ (unstarted qs));
    [apply hoare_keeps; welcoming_frame|total_more|silent_auto|intros p].
  apply (does_bind _ (unstarted qs));
    [apply hoare_keeps; apply keeps_ret|apply total_ret|silent_auto
    |intros _].
  destruct p as [|e].
  - eapply does_post; [|apply (does_quiet _ (welcoming qs))];
      [by left| |apply total_modify|silent_auto].
    apply hoare_modify. intros s (Hq & Hc & Hd & Hp & Hw).
    repeat split; try done. cbn. by rewrite List.filter_app, Hw.
  - apply (does_bind _ (asking qs 0));
      [|apply total_modify|silent_auto|intros _].
    + apply hoare_modify. intros s (Hq & Hc & Hd & Hp & Hw).
      repeat split; try done. unfold no_welcome. cbn.
      apply filter_nil_forall. by rewrite List.filter_app, Hw.
    + eapply does_post; [|by apply does_after_welcome]. by right.
Qed.

(** Runs *)
Lemma script_step (e : Choice.Event) (made : list Method) (s : Choice.State) :
  (0 < n)%nat → in_script qs made s →
  let out := Choice.step synth_close peer_close e s in
  in_script qs (made ++ marks out.2) out.1.
Proof.
  intros Hn Hs out. subst out. unfold Choice.step.
  destruct (Choice.enabled e s) eqn:Een;
    [|cbn; by rewrite app_nil_r].
  destruct Hs as [[-> Hw]|(j & Ha & Hc & -> & Hj)].
  - assert (He : e ≠ Choice.DelayElapsed).
    { intros ->. cbn in Een. destruct Hw as (_ & _ & Hd & _).
      by rewrite Hd in Een. }
    destruct (does_handle_welcoming e Hn He s (conj Hw Een)) as [_ Hr].
    destruct (Choice.handle synth_close peer_close e s) as [[r s1] l].
    cbn [fst snd] in *. destruct Hr as [[-> Hw1]|[-> Ha1]]; [by left|].
    right. exists 0%nat. destruct Ha1 as (Hq1 & Hc1 & Hw1). rewrite Hc1.
    split; [done|]. split; [done|]. split; [done|]. lia.
  - assert (e = Choice.DelayElapsed ∨ e ≠ Choice.DelayElapsed) as [->|He]
      by (destruct e; (by left) || (by right)).
    + destruct (does_delay_asking _ s Ha) as [_ Hr].
      destruct (Choice.handle synth_close peer_close Choice.DelayElapsed s)
        as [[r s1] l]. cbn [fst snd] in *.
      destruct (S (Choice.currentIdx s) <? n)%nat eqn:Hlt.
      * apply Nat.ltb_lt in Hlt. destruct Hr as [-> Ha1].
        assert (j = 0%nat) as -> by (destruct j; [done|lia]).
        right. exists 0%nat. pose proof Ha1 as (_ & Hc1 & _). rewrite Hc1.
        split; [done|]. split; [done|]. split; [|lia].
        cbn [closing replicate concat]. rewrite !app_nil_r.
        by rewrite (seq_S (S _)), fmap_app.
      * apply Nat.ltb_ge in Hlt. destruct Hr as [-> Ha1].
        assert (Hlast : S (Choice.currentIdx s) = n) by lia.
        right. exists (S j). pose proof Ha1 as (_ & Hc1 & _). rewrite Hc1.
        split; [done|]. split; [done|]. split; [|done].
        by rewrite <- app_assoc, Hlast, closing_snoc.
    + destruct (does_handle_asking _ e He s (conj Ha Een)) as [_ Hr].
      destruct (Choice.handle synth_close peer_close e s) as [[r s1] l].
      cbn [fst snd] in *. destruct Hr as [-> Ha1]. rewrite app_nil_r.
      right. exists j. pose proof Ha1 as (_ & Hc1 & _). rewrite Hc1.
      done.
Qed.

Lemma script_run (es : list Choice.Event) (made : list Method)
    (s : Choice.State) :
  (0 < n)%nat → in_script qs made s →
  let out := Choice.run synth_close peer_close es s in
  in_script qs (made ++ marks out.2) out.1.
Proof.
  intros Hn. revert made s. induction es as [|e es IH]; intros made s Hs.
  { cbn. by rewrite app_nil_r. }
  cbn [Choice.run].
  pose proof (script_step e made s Hn Hs) as H1. cbn zeta in H1.
  destruct (Choice.step synth_close peer_close e s) as [s1 l1].
  cbn [fst snd] in *. specialize (IH _ _ H1).
  destruct (Choice.run synth_close peer_close es s1) as [s2 l2].
  cbn [fst snd] in *. by rewrite marks_app, app_assoc.
Qed.

End ChoiceOrder.

Section InScript.
Context (synth_close peer_close : Js.Completion unit).

(** The multiple-choice controller asks its questions in order.  In a
    session started on a controller with at least one question and nothing
    pending, whatever the user and the environment do, the calls of
    [_askQuestion] and [_finishInterview] made so far are
    [_askQuestion(0)], ..., [_askQuestion(k - 1)] for some [k] up to the
    number [n] of questions, followed, only once all [n] questions were
    asked, by the closing pair [_askQuestion(n)], [_finishInterview] some
    number of times.  So no question is asked twice or out of order; the
    closing pair can repeat: the session in which the last speech outlasts
    its timer makes it twice. *)
Theorem questions_in_order (s : Choice.State) (es : list Choice.Event) :
  unstarted (Choice.questions s) s →
  (0 < length (Choice.questions s))%nat →
  let out := Choice.run_from_start synth_close peer_close es s in
  let n := length (Choice.questions s) in
  (∃ k j, marks out.2 = (M_askQuestion <$> seq 0 k) ++ closing n j
          ∧ (k ≤ n)%nat ∧ ((0 < j)%nat → k = n))
  ∧ marks (Choice.run_from_start (Js.Normal tt) (Js.Normal tt)
             late_speech_end (Choice.new connected_manager "eastus2")).2
    = (M_askQuestion <$> seq 0 5) ++ closing 5 2.
Proof.
  intros Hs Hn out n. subst out n. split; [|vm_compute; reflexivity].
  destruct (does_startInterview synth_close peer_close _ Hn s Hs) as [_ Hr].
  unfold Choice.run_from_start, Choice.start.
  destruct (Choice._startInterview synth_close peer_close s)
    as [[r s1] l1]. cbn [fst snd] in *.
  assert (H1 : in_script (Choice.questions s) (marks l1) s1).
  { destruct Hr as [[-> Hw]|[-> Ha]]; [by left|].
    right. exists 0%nat. pose proof Ha as (_ & Hc & _). rewrite Hc.
    split; [done|]. split; [done|]. split; [done|]. lia. }
  pose proof (script_run synth_close peer_close _ es _ _ Hn H1) as H2.
  cbn zeta in H2.
  destruct (Choice.run synth_close peer_close es s1) as [s2 l2].
  cbn [fst snd] in *. rewrite marks_app.
  destruct H2 as [[-> _]|(j & _ & Hc & -> & Hj)].
  - exists 0%nat, 0%nat. split; [done|]. split; lia.
  - exists (S (Choice.currentIdx s2)), j. split; [done|]. split; [lia|done].
Qed.

End InScript.

Lemma questions_in_order_witness :
  let s := Choice.new connected_manager "eastus2" in
  unstarted (Choice.questions s) s
  ∧ (0 < length (Choice.questions s))%nat
  ∧ ∃ k j, marks (Choice.run_from_start (Js.Normal tt) (Js.Normal tt)
                    timely_speech_end s).2
           = (M_askQuestion <$> seq 0 k) ++ closing (length (Choice.questions s)) j
           ∧ (k ≤ length (Choice.questions s))%nat
           ∧ ((0 < j)%nat → k = length (Choice.questions s)).
Proof.
  assert (H1 : unstarted (Choice.questions
                            (Choice.new connected_manager "eastus2"))
                 (Choice.new connected_manager "eastus2"))
    by (by repeat split).
  assert (H2 : (0 < length (Choice.questions
                              (Choice.new connected_manager "eastus2")))%nat)
    by (cbn; lia).
  split; [exact H1|]. split; [exact H2|].
  exact (proj1 (questions_in_order (Js.Normal tt) (Js.Normal tt)
                  (Choice.new connected_manager "eastus2")
                  timely_speech_end H1 H2)).
Defined.

(** ** The speech-input controller *)

Create HintDb speech.
#[local] Hint Unfold Speech._showMic Speech._setMicStatus
  Speech._showTranscript Speech._updateProgress Speech._setDot
  Speech._setStatusLabel Speech._setHint Speech._showQuestionText Speech.body
  Speech.callbacks Speech.on_avatar Speech.add_race Speech._speak
  Speech.speak_done Speech.update_listen Speech.after_bye
  Speech._finishInterview Speech.after_ack Speech.after_listen
  Speech.resolve_listen Speech._listenForAnswer Speech.listen_timeout
  Speech.listen_result Speech.listen_error Speech.after_question
  Speech._askQuestion Speech.after_delay Speech.after_welcome
  Speech._startInterview Speech.resume Speech.update_race Speech.settle_race
  Speech.handle
  Avatar.speak Avatar.speak_result Avatar.speak_error Avatar.ice_state_change
  Avatar.ice_state_seen Avatar.invoke Avatar.on_manager Avatar.disconnect : speech.

Ltac speech_run :=
  repeat (progress (autounfold with speech in *; prog_unfold;
                    cbn -[String.append] in * )).

(** C8 as worded fails on its fourth part: the answer the listen returns is
    not recorded.  Two sessions that differ only in what the user said end in
    the same state once the next question starts, so nothing in the state
    holds the answer. *)
Lemma answer_not_recorded :
  Speech.feasible always_listening (Js.Normal tt) (Js.Normal tt)
    (answer_run "yes")
    (Speech.start always_listening (Js.Normal tt) (Js.Normal tt)
       speech_start).1 = true
  ∧ listen_resolutions
      (Speech.run_from_start always_listening (Js.Normal tt) (Js.Normal tt)
         (answer_run "yes") speech_start).2 = [(0%nat, "yes")]
  ∧ after_answer "yes" = after_answer "no"
  ∧ ¬ ∃ record : Speech.State → string,
        record (after_answer "yes") = "yes" ∧ record (after_answer "no") = "no".
Proof.
  assert (H : after_answer "yes" = after_answer "no")
    by (vm_compute; reflexivity).
  split; [vm_compute; reflexivity|]. split; [vm_compute; reflexivity|].
  split; [exact H|].
  intros (record & Hyes & Hno). rewrite H, Hno in Hyes. discriminate.
Qed.

(** ** The speech-input controller, continued *)

(** Take a sequence apart, leaving its last part. *)
Ltac total_seq :=
  repeat lazymatch goal with
         | |- total (_ ≫= _) => apply total_bind; [total_more|intros ?]
         end.

Ltac listen_run :=
  repeat (progress (prog_unfold;
                    cbn -[String.append answer_of acknowledgement] in * )).


Section SpeechMore.
Context (listen_setup : nat → Speech.ListenSetup).
Context (synth_close peer_close : Js.Completion unit).

(** *** No handler throws *)

Lemma total_speech_speak text k resume :
  (∀ r, total (resume r)) → total (Speech._speak text k resume).
Proof. intros Hr. unfold Speech._speak. total_more. apply Hr. Qed.

Lemma total_after_ack idx r : total (Speech.after_ack idx r).
Proof. unfold Speech.after_ack. total_more. Qed.

Lemma total_after_listen idx userSpeech :
  total (Speech.after_listen idx userSpeech).
Proof.
  unfold Speech.after_listen.
  apply total_bind; [total_more|intros _].
  apply total_speech_speak. intros r. apply total_after_ack.
Qed.

Lemma total_resolve_listen l answer : total (Speech.resolve_listen l answer).
Proof.
  unfold Speech.resolve_listen.
  apply total_bind; [apply total_get|intros s].
  destruct (Speech.find_listen l s) as [x|]; [|apply total_ret].
  destruct (Speech.unresolved x); [|apply total_ret].
  apply total_bind; [total_more|intros _].
  apply total_bind; [apply total_emit|intros _]. apply total_after_listen.
Qed.

Lemma total_listenForAnswer idx :
  total (Speech._listenForAnswer listen_setup idx).
Proof.
  unfold Speech._listenForAnswer.
  apply total_bind; [apply total_emit|intros _].
  apply total_bind; [apply total_get|intros s].
  apply total_bind; [apply total_modify|intros _].
  apply total_bind; [apply total_modify|intros _].
  apply total_try_catch. intros e.
  apply total_bind; [total_more|intros _]. apply total_resolve_listen.
Qed.

Lemma total_after_bye r :
  total (Speech.after_bye synth_close peer_close r).
Proof. unfold Speech.after_bye. total_more. Qed.

Lemma total_speech_finish :
  total (Speech._finishInterview synth_close peer_close).
Proof.
  unfold Speech._finishInterview.
  total_seq.
  apply total_speech_speak. intros r. apply total_after_bye.
Qed.

Lemma total_speech_ask idx :
  total (Speech._askQuestion listen_setup synth_close peer_close idx).
Proof.
  unfold Speech._askQuestion.
  apply total_bind; [apply total_emit|intros _].
  apply total_bind; [apply total_get|intros s].
  destruct (length (Speech.questions s) <=? idx)%nat eqn:Hlen;
    [apply total_speech_finish|].
  apply Nat.leb_gt in Hlen.
  destruct (lookup_lt_is_Some_2 _ idx Hlen) as [q ->].
  total_seq.
  apply total_speech_speak. intros r. unfold Speech.after_question.
  apply total_bind; [total_more|intros _]. apply total_listenForAnswer.
Qed.

Lemma total_speech_resume k r :
  total (Speech.resume listen_setup synth_close peer_close k r).
Proof.
  destruct k; cbn [Speech.resume].
  - unfold Speech.after_welcome.
    apply total_bind; [total_more|intros _]. apply total_speech_ask.
  - unfold Speech.after_question.
    apply total_bind; [total_more|intros _]. apply total_listenForAnswer.
  - apply total_after_ack.
  - apply total_after_bye.
Qed.

Lemma total_speech_settle r how :
  total (Speech.settle_race listen_setup synth_close peer_close r how).
Proof.
  unfold Speech.settle_race.
  apply total_bind; [apply total_get|intros s].
  destruct (Speech.find_race r s) as [x|]; [|apply total_ret].
  destruct (Speech.unsettled x); [|apply total_ret].
  apply total_bind; [total_more|intros _]. apply total_speech_resume.
Qed.

Lemma speech_ice_live (state : string) (s : Speech.State) :
  Speech.enabled (Speech.IceStateChange state) s = true →
  Speech.handle listen_setup synth_close peer_close
    (Speech.IceStateChange state) s
  = Speech.on_avatar (Avatar.ice_state_seen Speech.callbacks state) s.
Proof.
  cbn [Speech.enabled Speech.handle]. intros H%bool_decide_eq_true.
  unfold Speech.on_avatar, zoom. by rewrite ice_state_change_live.
Qed.

Lemma speech_ice_dead (state : string) (s : Speech.State) :
  Avatar._peerConn (Speech.avatar s) = None →
  Speech.handle listen_setup synth_close peer_close
    (Speech.IceStateChange state) s
  = (Js.Throw Avatar.null_peer, s, []).
Proof.
  intros H. cbn [Speech.handle]. unfold Speech.on_avatar, zoom.
  rewrite ice_state_change_dead by done. by destruct s.
Qed.

Lemma total_speech_handle e :
  (∀ state, e ≠ Speech.IceStateChange state) →
  total (Speech.handle listen_setup synth_close peer_close e).
Proof.
  intros He. destruct e; cbn [Speech.handle].
  - apply total_bind; [total_more|intros _].
    apply total_bind; [total_more|intros how; apply total_speech_settle].
  - apply total_bind; [total_more|intros _].
    apply total_bind; [total_more|intros how; apply total_speech_settle].
  - apply total_bind; [total_more|intros _; apply total_speech_settle].
  - unfold Speech.listen_result.
    total_seq.
    destruct (_ && _); apply total_resolve_listen.
  - unfold Speech.listen_error.
    total_seq.
    apply total_resolve_listen.
  - unfold Speech.listen_timeout.
    total_seq.
    apply total_resolve_listen.
  - apply total_bind; [apply total_get|intros s].
    destruct (Speech.delays s) as [|idx rest]; [apply total_ret|].
    apply total_bind; [apply total_modify|intros _].
    apply total_speech_ask.
  - by destruct (He state).
Qed.

Lemma total_speech_ice_seen state :
  total (Speech.on_avatar (Avatar.ice_state_seen Speech.callbacks state)).
Proof. total_more. Qed.

(** [_startInterview] of the speech-input controller never throws, and no
    event handler does, whatever the recognizer setup does, with one
    exception: the ICE handler throws a TypeError, before it logs or changes
    anything, when the manager has no peer connection, which is so after
    [disconnect].  An event that can happen never throws.  A failing
    recognizer setup resolves the listen with the empty answer, and
    [_askQuestion] never reads a question that is not there. *)
Theorem speech_never_throws (s : Speech.State) :
  (Speech._startInterview listen_setup synth_close peer_close s).1.1
  = Js.Normal tt
  ∧ (∀ e, (Speech.handle listen_setup synth_close peer_close e s).1.1
          = if speech_ice_without_peer e s then Js.Throw Avatar.null_peer
            else Js.Normal tt)
  ∧ (∀ e, if Speech.enabled e s then speech_ice_without_peer e s = false
          else Speech.step listen_setup synth_close peer_close e s = (s, []))
  ∧ (∀ state,
       if speech_ice_without_peer (Speech.IceStateChange state) s
       then Speech.handle listen_setup synth_close peer_close
              (Speech.IceStateChange state) s
            = (Js.Throw Avatar.null_peer, s, [])
       else True).
Proof.
  split; [|split; [|split]].
  - assert (H : total (Speech._startInterview listen_setup synth_close
                         peer_close)).
    { unfold Speech._startInterview.
      total_seq.
      apply total_speech_speak. intros r.
      apply (total_speech_resume Speech.KWelcome). }
    destruct (H s) as [[] ->]. reflexivity.
  - intros e.
    assert (Hice : ∀ state, e = Speech.IceStateChange state →
              (Speech.handle listen_setup synth_close peer_close e s).1.1
              = if speech_ice_without_peer e s then Js.Throw Avatar.null_peer
                else Js.Normal tt).
    { intros state ->. cbn [speech_ice_without_peer].
      destruct (Avatar._peerConn (Speech.avatar s)) as [p|] eqn:Hp.
      - rewrite bool_decide_eq_true_2 by (by exists p). cbn [negb].
        rewrite speech_ice_live
          by (cbn; rewrite Hp; by apply bool_decide_eq_true_2).
        destruct (total_speech_ice_seen state s) as [[] ->]. reflexivity.
      - rewrite bool_decide_eq_false_2 by (by intros [? ?]). cbn [negb].
        by rewrite speech_ice_dead. }
    destruct e as [r result|r err|r|l result|l|l| |state];
      [| | | | | | |exact (Hice state eq_refl)].
    all: cbn [speech_ice_without_peer];
      match goal with
      | |- (Speech.handle _ _ _ ?e _).1.1 = _ =>
          destruct (total_speech_handle e ltac:(intros ? H; discriminate H) s)
            as [[] ->]
      end; reflexivity.
  - intros e. unfold Speech.step.
    destruct (Speech.enabled e s) eqn:E; [|done].
    destruct e; try done. cbn in *. by rewrite E.
  - intros state. cbn [speech_ice_without_peer].
    destruct (Avatar._peerConn (Speech.avatar s)) as [p|] eqn:Hp.
    + by rewrite bool_decide_eq_true_2 by (by exists p).
    + rewrite bool_decide_eq_false_2 by (by intros [? ?]). cbn [negb].
      by apply speech_ice_dead.
Qed.

(** *** Listening *)

Lemma answer_of_heard (result : Speech.RecognitionResult) :
  (if Speech.recognized result
      && negb (String.eqb (Js.or_str (Speech.r_text result) "") "")
   then Js.or_str (Speech.r_text result) "" else "")
  = answer_of (Heard result).
Proof.
  cbn. rewrite or_str_default.
  destruct (Speech.recognized result); [|done]. cbn.
  destruct (String.eqb (default "" (Speech.r_text result)) "") eqn:E; [|done].
  apply String.eqb_eq in E. by rewrite E.
Qed.

Lemma listen_result_resolves l result :
  Speech.listen_result l result
  = (Speech.update_listen l (Speech.set_l_sdk_pending false);;
     emit ClearTimeout;;
     Speech.update_listen l (Speech.set_l_timer_pending false);;
     emit (RecognizerClose l);;
     Speech.update_listen l Speech.close_recognizer;;
     Speech._showMic false;;
     Speech.resolve_listen l (answer_of (Heard result))).
Proof.
  unfold Speech.listen_result. rewrite <- answer_of_heard.
  by destruct (_ && _).
Qed.

(** While [_askQuestion(idx)] listens, each way the listen can end (the
    recognizer answers, the recognizer fails, the 30 s timer fires) can
    happen and ends normally: the listen resolves once, with the recognized
    text when speech was recognized and is not empty and with the empty
    string otherwise; the recognizer is closed once; a non-empty answer is
    put in the transcript box; the acknowledgement for the question is the
    next thing spoken; the controller's fields stay as they are. *)
Theorem listen_resolves (s : Speech.State) (l idx : nat) (w : Hearing) :
  listening l idx s →
  let out := Speech.handle listen_setup synth_close peer_close
               (hearing_event l w) s in
  Speech.enabled (hearing_event l w) s = true
  ∧ out.1.1 = Js.Normal tt
  ∧ listen_resolutions out.2 = [(l, answer_of w)]
  ∧ recognizer_closes out.2 = [l]
  ∧ speech_fields out.1.2 = speech_fields s
  ∧ Speech.transcript out.1.2
    = (if String.eqb (answer_of w) "" then Speech.transcript s
       else answer_of w)
  ∧ entered out.2 = [M_speak]
  ∧ speak_requests out.2
    = (if ready (Speech.avatar s)
       then [(Speech.next_req s, acknowledgement idx)] else []).
Proof.
  intros (x & Hfind & Hidx & Hu & Htimer & Hsdk) out. subst out.
  destruct s as [qs cur [synth peer conn speaking] token region tr races
                   listens delays next nextl].
  unfold Speech.find_listen in Hfind. cbn in Hfind.
  split.
  { destruct w; unfold Speech.enabled, Speech.find_listen; cbn;
      by rewrite Hfind. }
  destruct w as [result| |]; cbn [hearing_event Speech.handle];
    try change (answer_of HearingFails) with "";
    try change (answer_of HearingTimesOut) with "";
    rewrite ?listen_result_resolves;
    unfold Speech.listen_error, Speech.listen_timeout, Speech.update_listen,
      Speech._showMic, Speech.resolve_listen, Speech.find_listen;
    listen_run;
    rewrite !(find_update_same Speech.lid) by done; rewrite Hfind;
    listen_run; rewrite Hu; listen_run;
    unfold Speech.after_listen, Speech._showTranscript, Speech._speak,
      Speech.add_race, Speech.on_avatar, Avatar.speak, Avatar.invoke,
      Avatar.on_manager, Speech.callbacks, Speech.body, Speech._setDot,
      Speech._setStatusLabel, Speech._setHint, Speech._showMic,
      Speech.after_ack, Speech.speak_done;
    fold (acknowledgement (Speech.asked x)); rewrite Hidx;
    try destruct (String.eqb (answer_of _) "") eqn:Ea;
    destruct synth as [[]|], conn; listen_run;
    repeat split; reflexivity.
Qed.

Lemma listen_resolved_state (s : Speech.State) (l idx : nat) (w : Hearing) :
  listening l idx s →
  ∃ x1, Speech.find_listen l
          (Speech.handle listen_setup synth_close peer_close
             (hearing_event l w) s).1.2 = Some x1
        ∧ Speech.unresolved x1 = false
        ∧ Speech.l_timer_pending x1 = false
        ∧ Speech.l_sdk_pending x1
          = match w with HearingTimesOut => true | _ => false end.
Proof.
  intros (x & Hfind & Hidx & Hu & Htimer & Hsdk).
  destruct s as [qs cur [synth peer conn speaking] token region tr races
                   listens delays next nextl].
  unfold Speech.find_listen in Hfind. cbn in Hfind.
  destruct w as [result| |]; cbn [hearing_event Speech.handle];
    rewrite ?listen_result_resolves;
    unfold Speech.listen_error, Speech.listen_timeout, Speech.update_listen,
      Speech._showMic, Speech.resolve_listen, Speech.find_listen;
    listen_run;
    rewrite !(find_update_same Speech.lid) by done; rewrite Hfind;
    listen_run; rewrite Hu; listen_run;
    unfold Speech.after_listen, Speech._showTranscript, Speech._speak,
      Speech.add_race, Speech.on_avatar, Avatar.speak, Avatar.invoke,
      Avatar.on_manager, Speech.callbacks, Speech.body, Speech._setDot,
      Speech._setStatusLabel, Speech._setHint, Speech._showMic,
      Speech.after_ack, Speech.speak_done;
    try destruct (String.eqb (answer_of _) "") eqn:Ea;
    destruct synth as [[]|], conn; listen_run;
    rewrite !(find_update_same Speech.lid) by done; rewrite Hfind;
    (eexists; split; [reflexivity|]); cbn; by rewrite ?Hsdk.
Qed.

Lemma listen_late (s1 : Speech.State) (l : nat) (x1 : Speech.Listen)
    (w' : Hearing) :
  Speech.find_listen l s1 = Some x1 → Speech.unresolved x1 = false →
  let late := Speech.step listen_setup synth_close peer_close
                (hearing_event l w') s1 in
  Speech.enabled (hearing_event l w') s1
  = match w' with
    | HearingTimesOut => Speech.l_timer_pending x1
    | _ => Speech.l_sdk_pending x1
    end
  ∧ listen_resolutions late.2 = []
  ∧ speak_requests late.2 = []
  ∧ entered late.2 = []
  ∧ recognizer_closes late.2
    = (if Speech.enabled (hearing_event l w') s1 then [l] else [])
  ∧ speech_fields late.1 = speech_fields s1
  ∧ Speech.transcript late.1 = Speech.transcript s1
  ∧ Speech.races late.1 = Speech.races s1
  ∧ Speech.delays late.1 = Speech.delays s1.
Proof.
  intros Hfind Hu late. subst late.
  destruct s1 as [qs cur av token region tr races listens delays next nextl].
  unfold Speech.find_listen in Hfind. cbn in Hfind.
  unfold Speech.step, Speech.enabled, Speech.find_listen.
  destruct w' as [result'| |]; cbn [hearing_event Speech.handle];
    rewrite ?listen_result_resolves;
    unfold Speech.listen_error, Speech.listen_timeout,
      Speech.update_listen, Speech._showMic, Speech.resolve_listen,
      Speech.find_listen;
    listen_run; rewrite Hfind; cbn;
    (split; [reflexivity|]);
    match goal with |- context [if ?b then _ else _] => destruct b end;
    listen_run;
    rewrite ?(find_update_same Speech.lid) by done; rewrite ?Hfind;
    listen_run; rewrite ?Hu; repeat split; reflexivity.
Qed.

Lemma listens_called_back (l : nat) (w : Hearing)
    (listens : list Speech.Listen) :
  w ≠ HearingTimesOut →
  (λ x, if Nat.eqb (Speech.lid x) l then Speech.close_recognizer x else x)
  <$> ((λ x, if Nat.eqb (Speech.lid x) l
             then Speech.set_l_timer_pending false x else x)
       <$> ((λ x, if Nat.eqb (Speech.lid x) l
                  then Speech.set_l_sdk_pending false x else x) <$> listens))
  = (λ x, if Nat.eqb (Speech.lid x) l then called_back w x else x)
    <$> listens.
Proof.
  intros Hw. rewrite <- !list_fmap_compose. apply list_fmap_ext.
  intros _ x _. cbn.
  destruct (Nat.eqb (Speech.lid x) l) eqn:E; cbn; rewrite ?E; cbn;
    rewrite ?E; [|done].
  by destruct w.
Qed.

Lemma listens_timed_out (l : nat) (listens : list Speech.Listen) :
  (λ x, if Nat.eqb (Speech.lid x) l then Speech.close_recognizer x else x)
  <$> ((λ x, if Nat.eqb (Speech.lid x) l
             then Speech.set_l_timer_pending false x else x) <$> listens)
  = (λ x, if Nat.eqb (Speech.lid x) l then called_back HearingTimesOut x
          else x) <$> listens.
Proof.
  rewrite <- !list_fmap_compose. apply list_fmap_ext.
  intros _ x _. cbn.
  destruct (Nat.eqb (Speech.lid x) l) eqn:E; cbn; by rewrite ?E.
Qed.

(** A callback of a listen that is already resolved: what it does and what
    it leaves, exactly. *)
Lemma listen_late_exact (s1 : Speech.State) (l : nat) (x1 : Speech.Listen)
    (w' : Hearing) :
  Speech.find_listen l s1 = Some x1 → Speech.unresolved x1 = false →
  Speech.step listen_setup synth_close peer_close (hearing_event l w') s1
  = if Speech.enabled (hearing_event l w') s1
    then (late_state l w' s1, late_log l w')
    else (s1, []).
Proof.
  intros Hfind Hu.
  destruct s1 as [qs cur av token region tr races listens delays next nextl].
  unfold Speech.find_listen in Hfind. cbn in Hfind.
  unfold Speech.step.
  destruct (Speech.enabled _ _); [|done].
  unfold late_state. cbn [Speech.listens].
  destruct w' as [result'| |];
    [rewrite <- (listens_called_back l (Heard result')) by done
    |rewrite <- (listens_called_back l HearingFails) by done
    |rewrite <- listens_timed_out];
    cbn [hearing_event Speech.handle late_log];
    rewrite ?listen_result_resolves;
    unfold Speech.listen_error, Speech.listen_timeout,
      Speech.update_listen, Speech._showMic, Speech.resolve_listen,
      Speech.find_listen;
    listen_run;
    rewrite !(find_update_same Speech.lid) by done; rewrite Hfind;
    listen_run; rewrite Hu; reflexivity.
Qed.

(** A listen is resolved once.  After the recognizer answered or failed,
    nothing of that listen can happen any more.  After the 30 s timer
    resolved it with the empty answer, the recognizer can still call back.
    Such a late callback resolves nothing, speaks nothing and enters no
    method, so what was said is neither shown nor acknowledged; but it is not
    without effect: it clears the timer, closes the recognizer a second time
    and hides the microphone, and in the state only the record of that listen
    changes.  This holds in every later state in which the listen is
    resolved, so also once the next listen has started: in the session
    [second_listen_started] the late callback of the first listen hides the
    microphone while the second listen goes on. *)
Theorem listen_resolves_once (s : Speech.State) (l idx : nat)
    (w w' : Hearing) :
  listening l idx s →
  let s1 := (Speech.handle listen_setup synth_close peer_close
               (hearing_event l w) s).1.2 in
  let late := Speech.step listen_setup synth_close peer_close
                (hearing_event l w') s1 in
  Speech.enabled (hearing_event l w') s1
  = match w, w' with
    | HearingTimesOut, (Heard _ | HearingFails) => true
    | _, _ => false
    end
  ∧ listen_resolutions late.2 = []
  ∧ speak_requests late.2 = []
  ∧ entered late.2 = []
  ∧ recognizer_closes late.2
    = (if Speech.enabled (hearing_event l w') s1 then [l] else [])
  ∧ speech_fields late.1 = speech_fields s1
  ∧ Speech.transcript late.1 = Speech.transcript s1
  ∧ Speech.races late.1 = Speech.races s1
  ∧ Speech.delays late.1 = Speech.delays s1
  ∧ late = (if Speech.enabled (hearing_event l w') s1
            then (late_state l w' s1, late_log l w')
            else (s1, []))
  ∧ (∀ s2 x2 w2,
       Speech.find_listen l s2 = Some x2 → Speech.unresolved x2 = false →
       Speech.step listen_setup synth_close peer_close (hearing_event l w2) s2
       = if Speech.enabled (hearing_event l w2) s2
         then (late_state l w2 s2, late_log l w2)
         else (s2, []))
  ∧ (let before := Speech.run_from_start always_listening (Js.Normal tt)
                     (Js.Normal tt) second_listen_started speech_start in
     let after := Speech.step always_listening (Js.Normal tt) (Js.Normal tt)
                    (Speech.Recognized 0 (heard "yes")) before.1 in
     Speech.feasible always_listening (Js.Normal tt) (Js.Normal tt)
       (second_listen_started ++ [Speech.Recognized 0 (heard "yes")])
       (Speech.start always_listening (Js.Normal tt) (Js.Normal tt)
          speech_start).1 = true
     ∧ listening 1 1 before.1
     ∧ mic before.2 = Some true
     ∧ after.2 = [ClearTimeout; RecognizerClose 0; ShowMic false]
     ∧ listening 1 1 after.1
     ∧ mic (before.2 ++ after.2) = Some false).
Proof.
  intros Hl s1 late.
  destruct (listen_resolved_state s l idx w Hl) as (x1 & Hf & Hu & Ht & Hs).
  pose proof (listen_late _ l x1 w' Hf Hu) as (He & H1 & H2 & H3 & H4 & H5
                                               & H6 & H7 & H8).
  split; [subst s1; rewrite He; destruct w, w'; by rewrite ?Ht, ?Hs|].
  do 8 (split; [assumption|]).
  split; [by apply (listen_late_exact _ l x1)|].
  split; [intros s2 x2 w2 Hf2 Hu2; by apply (listen_late_exact _ l x2)|].
  split; [vm_compute; reflexivity|].
  split; [eexists; split; [vm_compute; reflexivity|];
          repeat split; reflexivity|].
  split; [vm_compute; reflexivity|].
  split; [vm_compute; reflexivity|].
  split; [eexists; split; [vm_compute; reflexivity|];
          repeat split; reflexivity|].
  vm_compute; reflexivity.
Qed.

(** [_listenForAnswer] never throws.  When the setup works a recognizer is
    built, the 30 s timer is armed and the listen waits.  When building the
    configuration or the recognizer throws, the listen resolves with the
    empty answer at once and the acknowledgement follows; no timer is armed.
    When [recognizeOnceAsync] throws, the listen resolves with the empty
    answer at once as well, but the recognizer stays open and its 30 s timer
    stays armed. *)
Theorem listen_starts (s : Speech.State) (idx : nat) :
  fresh_listens s →
  let l := Speech.next_lid s in
  let out := Speech._listenForAnswer listen_setup idx s in
  out.1.1 = Js.Normal tt
  ∧ speech_fields out.1.2 = speech_fields s
  ∧ match listen_setup l with
    | Speech.Listening =>
        listening l idx out.1.2
        ∧ recognizers_made out.2 = [l]
        ∧ timeouts_set out.2 = [30000]
        ∧ listen_resolutions out.2 = []
        ∧ entered out.2 = [M_listenForAnswer]
    | Speech.ConfigThrows _ =>
        recognizers_made out.2 = []
        ∧ listen_resolutions out.2 = [(l, "")]
        ∧ entered out.2 = [M_listenForAnswer; M_speak]
        ∧ Speech.enabled (Speech.ListenTimeout l) out.1.2 = false
        ∧ Speech.enabled (Speech.RecognizeError l) out.1.2 = false
    | Speech.RecognizeThrows _ =>
        recognizers_made out.2 = [l]
        ∧ recognizer_closes out.2 = []
        ∧ listen_resolutions out.2 = [(l, "")]
        ∧ entered out.2 = [M_listenForAnswer; M_speak]
        ∧ Speech.enabled (Speech.ListenTimeout l) out.1.2 = true
        ∧ Speech.enabled (Speech.RecognizeError l) out.1.2 = false
    end.
Proof.
  intros Hfresh l out. subst l out.
  destruct s as [qs cur [synth peer conn speaking] token region tr races
                   listens delays next nextl].
  unfold fresh_listens in Hfresh. cbn in Hfresh.
  assert (Hnew : ∀ y, Speech.lid y = nextl →
            find (λ z, Nat.eqb (Speech.lid z) nextl) (listens ++ [y])
            = Some y).
  { intros y Hy. by apply (find_appended Speech.lid). }
  unfold Speech._listenForAnswer, listening, Speech.enabled.
  cbn [Speech.next_lid].
  destruct (listen_setup nextl) as [e|e|] eqn:El;
    unfold Speech.update_listen, Speech._showMic, Speech._setMicStatus,
      Speech.resolve_listen, Speech.find_listen;
    listen_run; rewrite El; listen_run;
    rewrite ?(find_update_same Speech.lid) by done;
    rewrite Hnew by done; listen_run.
  3: { split; [done|]. split; [done|]. split; [|done].
       eexists. split; [reflexivity|]. done. }
  all: unfold Speech.after_listen, Speech._showTranscript, Speech._speak,
      Speech.add_race, Speech.on_avatar, Avatar.speak, Avatar.invoke,
      Avatar.on_manager, Speech.callbacks, Speech.body, Speech._setDot,
      Speech._setStatusLabel, Speech._setHint, Speech._showMic,
      Speech.after_ack, Speech.speak_done;
    destruct synth as [[]|], conn; listen_run;
    rewrite ?(find_update_same Speech.lid) by done;
    rewrite ?Hnew by done; repeat split; reflexivity.
Qed.

End SpeechMore.

Lemma listen_resolves_witness :
  listening 0 0 listening_first
  ∧ (Speech.handle always_listening (Js.Normal tt) (Js.Normal tt)
       (hearing_event 0 HearingTimesOut) listening_first).1.1 = Js.Normal tt.
Proof.
  assert (H : listening 0 0 listening_first).
  { eexists. split; [vm_compute; reflexivity|]. repeat split; reflexivity. }
  split; [exact H|].
  exact (proj1 (proj2 (listen_resolves always_listening (Js.Normal tt)
                         (Js.Normal tt) listening_first 0 0
                         HearingTimesOut H))).
Defined.

Lemma listen_resolves_once_witness :
  listening 0 0 listening_first
  ∧ Speech.enabled (hearing_event 0 (Heard (heard "yes")))
      (Speech.handle always_listening (Js.Normal tt) (Js.Normal tt)
         (hearing_event 0 HearingTimesOut) listening_first).1.2 = true.
Proof.
  assert (H : listening 0 0 listening_first).
  { eexists. split; [vm_compute; reflexivity|]. repeat split; reflexivity. }
  split; [exact H|].
  exact (proj1 (listen_resolves_once always_listening (Js.Normal tt)
                  (Js.Normal tt) listening_first 0 0 HearingTimesOut
                  (Heard (heard "yes")) H)).
Defined.

Lemma listen_starts_witness :
  fresh_listens speech_start
  ∧ (Speech._listenForAnswer recognize_throws 0 speech_start).1.1
    = Js.Normal tt.
Proof.
  assert (H : fresh_listens speech_start) by constructor.
  split; [exact H|].
  exact (proj1 (listen_starts recognize_throws speech_start 0 H)).
Defined.

(** ** The speech-input controller: questions in order *)

(** Rules for [run_to] *)

Section RunTo.
Context (qs : list Speech.Question).

Lemma run_to_pre (P P' : Speech.State → Prop) c p :
  (∀ s, P s → P' s) → run_to qs P' c p → run_to qs P c p.
Proof. intros HP H s Hs. apply H, HP, Hs. Qed.

Lemma run_to_quiet (P : Speech.State → Prop) c p :
  hoare P p (at_place qs c) → total p → silent p → run_to qs P c p.
Proof.
  intros Hh Ht Hs s HP. specialize (Hh s HP). destruct (Ht s) as [[] Hn].
  rewrite (Hs s). cbn. rewrite Nat.add_0_r. by rewrite take_0.
Qed.

Lemma run_to_bind {A} (P Q : Speech.State → Prop) c (m : Prog Speech.State A)
    (f : A → Prog Speech.State unit) :
  hoare P m Q → total m → silent m → (∀ a, run_to qs Q c (f a)) →
  run_to qs P c (m ≫= f).
Proof.
  intros Hh Ht Hs Hf s HP. specialize (Hh s HP). destruct (Ht s) as [a Hn].
  specialize (Hs s). prog_unfold.
  destruct (m s) as [[r s1] l1]. cbn [fst snd] in *. subst r.
  specialize (Hf a s1 Hh). destruct (f a s1) as [[r2 s2] l2].
  cbn [fst snd] in *. by rewrite marks_app, Hs.
Qed.

Lemma run_to_get (P : Speech.State → Prop) c
    (f : Speech.State → Prog Speech.State unit) :
  (∀ a, P a → run_to qs (λ s, s = a) c (f a)) → run_to qs P c (get ≫= f).
Proof.
  intros Hf s HP. specialize (Hf s HP s eq_refl). prog_unfold.
  cbn -[marks script take drop at_place].
  by destruct (f s s) as [[r2 s2] l2].
Qed.

Lemma run_to_mark (P : Speech.State → Prop) c (e : Effect) (m : Method)
    (p : Prog Speech.State unit) :
  marks [e] = [m] → script (length qs) !! c = Some m →
  run_to qs P (S c) p → run_to qs P c (emit e ≫= λ _, p).
Proof.
  intros He Hm Hp s HP. specialize (Hp s HP). prog_unfold.
  cbn -[marks script take drop at_place].
  destruct (p s) as [[r2 s2] l2]. cbn [fst snd] in *.
  destruct Hp as (Hn & Hat & Hmk).
  change (e :: l2) with ([e] ++ l2). rewrite marks_app, He. cbn [app length].
  split; [done|]. split; [by rewrite Nat.add_succ_r|].
  rewrite (drop_S _ _ _ Hm). cbn [take]. by rewrite Hmk at 1.
Qed.

Lemma run_to_try_catch (P Q : Speech.State → Prop) c
    (body : Prog Speech.State unit) (h : Js.Error → Prog Speech.State unit) :
  hoare P body Q → silent body → (∀ s, Q s → at_place qs c s) →
  (∀ e, run_to qs Q c (h e)) → run_to qs P c (try_catch body h).
Proof.
  intros Hh Hs Hat Hf s HP. specialize (Hh s HP). specialize (Hs s).
  prog_unfold. destruct (body s) as [[[[]|e] s1] l1]; cbn [fst snd] in *.
  - rewrite Hs. cbn. rewrite Nat.add_0_r, take_0. by split; [|split; [apply Hat|]].
  - specialize (Hf e s1 Hh). destruct (h e s1) as [[r2 s2] l2].
    cbn [fst snd] in *. by rewrite marks_app, Hs.
Qed.
End RunTo.

Lemma script_ask (n i : nat) :
  (i ≤ n)%nat → script n !! i = Some (M_askQuestion i).
Proof.
  intros Hi. unfold script.
  rewrite lookup_app_l by (rewrite length_fmap, length_seq; lia).
  rewrite list_lookup_fmap, lookup_seq_lt by lia. done.
Qed.

Lemma script_finish (n : nat) : script n !! S n = Some M_finishInterview.
Proof.
  unfold script.
  rewrite lookup_app_r by (rewrite length_fmap, length_seq; lia).
  rewrite length_fmap, length_seq. by rewrite Nat.sub_diag.
Qed.


(** Frames for the speech-input controller *)

Lemma keeps_speech_on_avatar {A} (P : Speech.State → Prop)
    (p : Prog (Avatar.Manager * Speech.State) A) :
  (∀ m s, P s → P (Speech.set_avatar m s)) →
  keeps (λ st, P st.2) p → keeps P (Speech.on_avatar p).
Proof.
  intros Hm Hp. unfold Speech.on_avatar.
  apply (keeps_zoom P (λ st, P st.2)); [done|done|].
  intros st t _ Hst. by apply Hm.
Qed.

Lemma keeps_speech_zoom_avatar {A} (P : Speech.State → Prop)
    (p : Prog Avatar.Manager A) :
  (∀ m s, P s → P (Speech.set_avatar m s)) →
  keeps P (zoom Speech.avatar Speech.set_avatar p).
Proof.
  intros Hm. apply (keeps_zoom P (λ _, True)); [done|by intros ? ?|].
  intros m t Ht _. by apply Hm.
Qed.

Lemma keeps_invoke_speech_body (P : Speech.State → Prop) (mark : Effect)
    (p : Prog Speech.State unit) :
  keeps P p →
  keeps (λ st : Avatar.Manager * Speech.State, P st.2)
    (Avatar.invoke mark (Speech.body p)).
Proof.
  intros Hp. apply keeps_invoke. intros c Hc. specialize (Hp c Hc).
  unfold Speech.body. by destruct (p c) as [[r s1] l].
Qed.

Ltac sframe_step :=
  lazymatch goal with
  | |- keeps _ (mret _) => apply keeps_ret
  | |- keeps _ (get ≫= _) => apply keeps_get_bind; intros ? ?
  | |- keeps _ get => apply keeps_get
  | |- keeps _ (emit _) => apply keeps_emit
  | |- keeps _ (throw _) => apply keeps_throw
  | |- keeps _ (extern _) => apply keeps_extern
  | |- keeps _ (await _) => apply keeps_await
  | |- keeps _ (_ ≫= _) => apply keeps_bind; [|intros ?]
  | |- keeps _ (try_catch _ _) => apply keeps_try_catch; [|intros ?]
  | |- keeps _ (when _ _) => apply keeps_when
  | |- keeps _ (modify _) => apply keeps_modify
  | |- keeps _ (Speech.on_avatar _) => apply keeps_speech_on_avatar
  | |- keeps _ (zoom Speech.avatar Speech.set_avatar _) =>
      apply keeps_speech_zoom_avatar
  | |- keeps _ (Avatar.on_manager _) => apply keeps_on_manager
  | |- keeps _ (Avatar.invoke _ _) =>
      cbn [Avatar.onConnected Avatar.onDisconnected Avatar.onSpeakStart
           Avatar.onSpeakEnd Speech.callbacks];
      apply keeps_invoke_speech_body
  | |- keeps _ (match ?x with _ => _ end) => destruct x eqn:?
  | |- keeps _ (if ?x then _ else _) => destruct x eqn:?
  | |- keeps _ ?p => let h := head_of p in unfold h
  end.

Ltac sframe_auto := repeat sframe_step.

Ltac shape_leaf :=
  unfold shape, pend_races, pend_listens in *;
  cbn [Speech.questions Speech.races Speech.listens Speech.delays
       Speech.set_currentIdx Speech.set_avatar Speech.set_transcript
       Speech.set_races Speech.set_listens Speech.set_delays
       Speech.set_next_req Speech.set_next_lid];
  intros;
  repeat match goal with H : _ ∧ _ |- _ => destruct H end;
  repeat split; try done;
  try (rewrite filter_update_flags by done; done).

Ltac shape_frame := sframe_auto; shape_leaf.

Lemma placed_race n c rs ls ds :
  placed n c ((PRace <$> rs) ++ (PListen <$> ls) ++ (PDelay <$> ds)) →
  rs ≠ [] →
  ∃ k, rs = [k] ∧ ls = [] ∧ ds = [] ∧ place n (PRace k) = c
       ∧ in_range n (PRace k).
Proof.
  destruct rs as [|k [|k' rs]]; [done| |done]. intros H _.
  destruct ls; [|done]. destruct ds; [|done]. cbn in H. by exists k.
Qed.

Lemma placed_listen n c rs ls ds :
  placed n c ((PRace <$> rs) ++ (PListen <$> ls) ++ (PDelay <$> ds)) →
  ls ≠ [] →
  ∃ i, rs = [] ∧ ls = [i] ∧ ds = [] ∧ c = S i ∧ (i < n)%nat.
Proof.
  destruct rs as [|k rs]; [|by destruct rs, ls].
  destruct ls as [|i [|i' ls]]; [done| |done]. intros H _.
  destruct ds; [|done]. cbn in H. exists i. by destruct H.
Qed.

Lemma placed_delay n c rs ls i ds :
  placed n c ((PRace <$> rs) ++ (PListen <$> ls) ++ (PDelay <$> (i :: ds))) →
  rs = [] ∧ ls = [] ∧ ds = [] ∧ c = S i ∧ (i < n)%nat.
Proof.
  destruct rs as [|k rs]; [|by destruct rs, ls].
  destruct ls as [|j ls]; [|by destruct ls].
  destruct ds; [|done]. cbn. by intros [<- ?].
Qed.

Section Shape.
Context (qs : list Speech.Question).

Lemma shape_at_place rs ls ds c s :
  shape qs rs ls ds s →
  placed (length qs) c ((PRace <$> rs) ++ (PListen <$> ls) ++ (PDelay <$> ds)) →
  at_place qs c s.
Proof.
  intros (Hq & Hr & Hl & Hd) Hp. split; [done|].
  unfold pending. by rewrite Hr, Hl, Hd.
Qed.

Lemma at_place_shape c s :
  at_place qs c s →
  shape qs (pend_races s) (pend_listens s) (Speech.delays s) s.
Proof. by intros [Hq _]. Qed.

Lemma shape_add_race rs ls ds (x : Speech.Race) s :
  shape qs rs ls ds s →
  shape qs (rs ++ (if Speech.unsettled x then [Speech.kont x] else []))
    ls ds (Speech.set_races (Speech.races s ++ [x]) s).
Proof.
  intros (Hq & Hr & Hl & Hd). repeat split; try done.
  unfold pend_races in *. cbn. rewrite List.filter_app, fmap_app, Hr. cbn.
  by destruct (Speech.unsettled x).
Qed.

Lemma shape_add_listen rs ls ds (y : Speech.Listen) s :
  shape qs rs ls ds s →
  shape qs rs (ls ++ (if Speech.unresolved y then [Speech.asked y] else []))
    ds (Speech.set_listens (Speech.listens s ++ [y]) s).
Proof.
  intros (Hq & Hr & Hl & Hd). repeat split; try done.
  unfold pend_listens in *. cbn. rewrite List.filter_app, fmap_app, Hl. cbn.
  by destruct (Speech.unresolved y).
Qed.

Lemma shape_add_delay rs ls ds (i : nat) s :
  shape qs rs ls ds s →
  shape qs rs ls (ds ++ [i]) (Speech.set_delays (Speech.delays s ++ [i]) s).
Proof.
  intros (Hq & Hr & Hl & Hd). repeat split; try done. cbn. by rewrite Hd.
Qed.
End Shape.

Section Order.
Context (listen_setup : nat → Speech.ListenSetup).
Context (synth_close peer_close : Js.Completion unit).
Context (qs : list Speech.Question).

#[local] Abbreviation idle := (shape qs [] [] []).
#[local] Abbreviation n := (length qs).

Lemma run_to_get' (P : Speech.State → Prop) c
    (f : Speech.State → Prog Speech.State unit) :
  (∀ a, P a → run_to qs P c (f a)) → run_to qs P c (get ≫= f).
Proof.
  intros Hf. apply run_to_get. intros a Ha.
  apply (run_to_pre _ _ P); [by intros s ->|by apply Hf].
Qed.

Lemma keeps_speak_done rs ls ds r :
  keeps (shape qs rs ls ds) (Speech.speak_done r).
Proof. shape_frame. Qed.

Lemma keeps_on_avatar_speak rs ls ds r text :
  keeps (shape qs rs ls ds)
    (Speech.on_avatar (Avatar.speak Speech.callbacks r text)).
Proof. shape_frame. Qed.

Lemma keeps_speak_end rs ls ds r a :
  keeps (shape qs rs ls ds)
    (Speech.on_avatar (answer_speak Speech.callbacks r a)).
Proof. destruct a; cbn [answer_speak]; shape_frame. Qed.

Lemma keeps_ice rs ls ds state :
  keeps (shape qs rs ls ds)
    (Speech.on_avatar (Avatar.ice_state_seen Speech.callbacks state)).
Proof. shape_frame. Qed.

Lemma keeps_speech_disconnect rs ls ds :
  keeps (shape qs rs ls ds)
    (zoom Speech.avatar Speech.set_avatar
       (Avatar.disconnect synth_close peer_close)).
Proof. shape_frame. Qed.

Lemma keeps_showTranscript rs ls ds t :
  keeps (shape qs rs ls ds) (Speech._showTranscript t).
Proof. shape_frame. Qed.

Lemma keeps_update_listen rs ls ds l f :
  (∀ y, Speech.unresolved (f y) = Speech.unresolved y) →
  (∀ y, Speech.asked (f y) = Speech.asked y) →
  keeps (shape qs rs ls ds) (Speech.update_listen l f).
Proof. intros H1 H2. shape_frame. Qed.

Lemma keeps_update_race rs ls ds r f :
  (∀ y, Speech.unsettled (f y) = Speech.unsettled y) →
  (∀ y, Speech.kont (f y) = Speech.kont y) →
  keeps (shape qs rs ls ds) (Speech.update_race r f).
Proof. intros H1 H2. shape_frame. Qed.

(** [after_ack] *)
Lemma run_after_ack i r :
  (i < n)%nat → run_to qs idle (S i) (Speech.after_ack i r).
Proof.
  intros Hi. apply run_to_quiet; [|apply total_after_ack|silent_auto].
  unfold Speech.after_ack.
  apply (hoare_seq _ idle); [total_more|apply keeps_speak_done|intros _].
  apply (hoare_seq _ idle); [apply total_emit|apply hoare_emit|intros _].
  apply hoare_modify. intros s Hs.
  apply (shape_at_place qs [] [] ([] ++ [i])); [by apply shape_add_delay|].
  by split.
Qed.

(** [_speak] *)
Lemma run_speak text k resume c :
  place n (PRace k) = c → in_range n (PRace k) →
  (∀ r, run_to qs idle c (resume r)) →
  run_to qs idle c (Speech._speak text k resume).
Proof.
  intros Hc Hr Hres. unfold Speech._speak.
  apply (run_to_bind _ _ idle);
    [apply hoare_emit|apply total_emit|silent_auto|intros _].
  apply run_to_get'. intros a Ha.
  apply (run_to_bind _ _ idle);
    [apply hoare_modify; shape_leaf|apply total_modify|silent_auto|intros _].
  apply (run_to_bind _ _ idle);
    [apply keeps_on_avatar_speak|total_more|silent_auto|intros p].
  apply (run_to_bind _ _ idle);
    [apply hoare_emit|apply total_emit|silent_auto|intros _].
  destruct p as [|e].
  - apply run_to_quiet; [|apply total_modify|silent_auto].
    apply hoare_modify. intros s Hs.
    eapply shape_at_place; [by apply shape_add_race|]. cbn. by split.
  - apply (run_to_bind _ _ idle); [|apply total_modify|silent_auto|intros _].
    + apply hoare_modify. intros s Hs.
      by apply (shape_add_race qs [] [] []
                  {| Speech.req := Speech.next_req a;
                     Speech.kont := k; Speech.unsettled := false;
                     Speech.sdk_pending := false;
                     Speech.timer_pending := true |}).
    + apply Hres.
Qed.

Lemma run_after_listen i userSpeech :
  (i < n)%nat → run_to qs idle (S i) (Speech.after_listen i userSpeech).
Proof.
  intros Hi. unfold Speech.after_listen.
  apply (run_to_bind _ _ idle); [|total_more|silent_auto|intros _].
  - apply keeps_when. apply keeps_showTranscript.
  - apply run_speak; [done|done|]. intros r. by apply run_after_ack.
Qed.

(** [resolve(answer)] *)
Lemma run_resolve_listen l answer c :
  run_to qs (at_place qs c) c (Speech.resolve_listen l answer).
Proof.
  unfold Speech.resolve_listen. apply run_to_get. intros s Hs.
  assert (Hsame : run_to qs (λ s', s' = s) c (mret tt)).
  { apply run_to_quiet; [by intros s' ->|apply total_ret|apply silent_ret]. }
  destruct (Speech.find_listen l s) as [y|] eqn:Hf; [|exact Hsame].
  destruct (Speech.unresolved y) eqn:Hu; [|exact Hsame]. clear Hsame.
  destruct Hs as [Hq Hp]. unfold pending in Hp.
  assert (Hne : pend_listens s ≠ []).
  { unfold pend_listens. intros H%fmap_nil_inv.
    by apply (found_in_filter Speech.lid Speech.unresolved l _ y Hf Hu). }
  destruct (placed_listen _ _ _ _ _ Hp Hne) as (i & Hrs & Hls & Hds & -> & Hi).
  destruct (settle_single Speech.lid Speech.unresolved
              (Speech.set_unresolved false) Speech.asked l _ y i
              (λ _, eq_refl) Hf Hu Hls) as [Hy Hclear].
  apply (run_to_bind _ _ idle); [|total_more|silent_auto|intros _].
  { unfold Speech.update_listen. apply hoare_modify. intros s' ->.
    repeat split; try done. unfold pend_listens. cbn. by rewrite Hclear. }
  apply (run_to_bind _ _ idle);
    [apply hoare_emit|apply total_emit|silent_auto|intros _].
  rewrite Hy. by apply run_after_listen.
Qed.

(** [_listenForAnswer] *)
Lemma run_listenForAnswer i :
  (i < n)%nat →
  run_to qs idle (S i) (Speech._listenForAnswer listen_setup i).
Proof.
  intros Hi. unfold Speech._listenForAnswer.
  apply (run_to_bind _ _ idle);
    [apply hoare_emit|apply total_emit|silent_auto|intros _].
  apply run_to_get'. intros a Ha.
  apply (run_to_bind _ _ idle);
    [apply hoare_modify; shape_leaf|apply total_modify|silent_auto|intros _].
  apply (run_to_bind _ _ (shape qs [] [i] []));
    [|apply total_modify|silent_auto|intros _].
  { apply hoare_modify. intros s Hs.
    by apply (shape_add_listen qs [] [] []
                {| Speech.lid := Speech.next_lid a; Speech.asked := i;
                   Speech.unresolved := true;
                   Speech.l_timer_pending := false;
                   Speech.l_sdk_pending := false; Speech.closes := 0 |}). }
  assert (Hat : ∀ s, shape qs [] [i] [] s → at_place qs (S i) s).
  { intros s Hs. eapply shape_at_place; [exact Hs|]. by split. }
  apply (run_to_try_catch _ _ (shape qs [] [i] [])); [| |exact Hat|].
  - apply hoare_keeps. shape_frame.
  - silent_auto.
  - intros e.
    apply (run_to_bind _ _ (shape qs [] [i] []));
      [apply hoare_emit|apply total_emit|silent_auto|intros _].
    eapply run_to_pre; [exact Hat|]. apply run_resolve_listen.
Qed.

Lemma run_after_question i r :
  (i < n)%nat →
  run_to qs idle (S i) (Speech.after_question listen_setup i r).
Proof.
  intros Hi. unfold Speech.after_question.
  apply (run_to_bind _ _ idle);
    [apply keeps_speak_done|total_more|silent_auto|intros _].
  by apply run_listenForAnswer.
Qed.

(** [_finishInterview] *)
Lemma run_after_bye r :
  run_to qs idle (n + 2) (Speech.after_bye synth_close peer_close r).
Proof.
  apply run_to_quiet; [|apply total_after_bye|silent_auto].
  apply (hoare_post _ idle).
  { intros s Hs. by eapply shape_at_place; [exact Hs|]. }
  unfold Speech.after_bye.
  apply (hoare_seq _ idle); [total_more|apply keeps_speak_done|intros _].
  apply (hoare_seq _ idle); [apply total_emit|apply hoare_emit|intros _].
  apply (hoare_seq _ idle);
    [total_more|apply keeps_speech_disconnect|intros _].
  apply hoare_emit.
Qed.

Lemma run_finishInterview :
  run_to qs idle (S n) (Speech._finishInterview synth_close peer_close).
Proof.
  unfold Speech._finishInterview.
  apply (run_to_mark _ _ _ _ M_finishInterview);
    [done|apply script_finish|].
  apply (run_to_bind _ _ idle);
    [apply hoare_emit|apply total_emit|silent_auto|intros _].
  apply (run_to_bind _ _ idle);
    [apply hoare_emit|apply total_emit|silent_auto|intros _].
  apply (run_to_bind _ _ idle);
    [apply hoare_emit|apply total_emit|silent_auto|intros _].
  apply (run_to_bind _ _ idle);
    [apply keeps_showTranscript|total_more|silent_auto|intros _].
  apply run_to_get'. intros a Ha.
  apply (run_to_bind _ _ idle);
    [apply hoare_emit|apply total_emit|silent_auto|intros _].
  apply run_speak; [cbn; lia|done|]. intros r.
  replace (S (S n)) with (n + 2)%nat by lia. apply run_after_bye.
Qed.

(** [_askQuestion] *)
Lemma run_askQuestion i :
  (i ≤ n)%nat →
  run_to qs idle i
    (Speech._askQuestion listen_setup synth_close peer_close i).
Proof.
  intros Hi. unfold Speech._askQuestion.
  apply (run_to_mark _ _ _ _ (M_askQuestion i)); [done|by apply script_ask|].
  apply run_to_get'. intros a Ha.
  destruct Ha as (Hq & _). rewrite Hq.
  destruct (n <=? i)%nat eqn:Hlen.
  { apply Nat.leb_le in Hlen. replace i with n by lia.
    apply run_finishInterview. }
  apply Nat.leb_gt in Hlen.
  destruct (lookup_lt_is_Some_2 qs i Hlen) as [q ->].
  apply (run_to_bind _ _ idle);
    [apply hoare_modify; shape_leaf|apply total_modify|silent_auto|intros _].
  apply (run_to_bind _ _ idle);
    [apply hoare_emit|apply total_emit|silent_auto|intros _].
  apply (run_to_bind _ _ idle);
    [apply hoare_keeps; shape_frame|total_more|silent_auto|intros _].
  apply (run_to_bind _ _ idle);
    [apply keeps_showTranscript|total_more|silent_auto|intros _].
  apply run_speak; [done|done|]. intros r. by apply run_after_question.
Qed.

Lemma run_resume k r c :
  place n (PRace k) = c → in_range n (PRace k) →
  run_to qs idle c (Speech.resume listen_setup synth_close peer_close k r).
Proof.
  intros <- Hr. destruct k; cbn [Speech.resume place]; cbn in Hr.
  - unfold Speech.after_welcome.
    apply (run_to_bind _ _ idle);
      [apply keeps_speak_done|total_more|silent_auto|intros _].
    apply run_askQuestion. lia.
  - by apply run_after_question.
  - by apply run_after_ack.
  - apply run_after_bye.
Qed.

(** The event handlers *)
Lemma run_settle_race r how c :
  run_to qs (at_place qs c) c
    (Speech.settle_race listen_setup synth_close peer_close r how).
Proof.
  unfold Speech.settle_race. apply run_to_get. intros s Hs.
  assert (Hsame : run_to qs (λ s', s' = s) c (mret tt)).
  { apply run_to_quiet; [by intros s' ->|apply total_ret|apply silent_ret]. }
  destruct (Speech.find_race r s) as [x|] eqn:Hf; [|exact Hsame].
  destruct (Speech.unsettled x) eqn:Hu; [|exact Hsame]. clear Hsame.
  destruct Hs as [Hq Hp]. unfold pending in Hp.
  assert (Hne : pend_races s ≠ []).
  { unfold pend_races. intros H%fmap_nil_inv.
    by apply (found_in_filter Speech.req Speech.unsettled r _ x Hf Hu). }
  destruct (placed_race _ _ _ _ _ Hp Hne) as (k & Hrs & Hls & Hds & Hc & Hr).
  destruct (settle_single Speech.req Speech.unsettled
              (Speech.set_unsettled false) Speech.kont r _ x k
              (λ _, eq_refl) Hf Hu Hrs) as [Hx Hclear].
  apply (run_to_bind _ _ idle); [|total_more|silent_auto|intros _].
  { unfold Speech.update_race. apply hoare_modify. intros s' ->.
    repeat split; try done. unfold pend_races. cbn. by rewrite Hclear. }
  rewrite Hx. by apply run_resume.
Qed.

Lemma keeps_at_place c (p : Prog Speech.State unit) :
  (∀ rs ls ds, keeps (shape qs rs ls ds) p) → keeps (at_place qs c) p.
Proof.
  intros Hp s Hs. pose proof (Hp _ _ _ s (at_place_shape qs c s Hs)) as H.
  destruct Hs as [_ Hpl]. unfold pending in Hpl.
  by apply (shape_at_place qs _ _ _ c _ H).
Qed.

Lemma hoare_at_place {A} c (p : Prog Speech.State A) :
  (∀ rs ls ds, keeps (shape qs rs ls ds) p) →
  hoare (at_place qs c) p (at_place qs c).
Proof.
  intros Hp s Hs. pose proof (Hp _ _ _ s (at_place_shape qs c s Hs)) as H.
  destruct Hs as [_ Hpl]. unfold pending in Hpl.
  by apply (shape_at_place qs _ _ _ c _ H).
Qed.

Lemma run_handle e c :
  run_to qs (λ s, at_place qs c s ∧ Speech.enabled e s = true) c
    (Speech.handle listen_setup synth_close peer_close e).
Proof.
  destruct e as [r result|r err|r|l result|l|l| |state];
    [apply (run_to_pre _ _ (at_place qs c)); [by intros s [? ?]|]..|];
    cbn [Speech.handle].
  - apply (run_to_bind _ _ (at_place qs c));
      [|total_more|silent_auto|intros _].
    { apply hoare_at_place. intros. by apply keeps_update_race. }
    apply (run_to_bind _ _ (at_place qs c));
      [|total_more|silent_auto|intros how; apply run_settle_race].
    apply hoare_at_place. intros.
    apply (keeps_speak_end _ _ _ r (Succeeds result)).
  - apply (run_to_bind _ _ (at_place qs c));
      [|total_more|silent_auto|intros _].
    { apply hoare_at_place. intros. by apply keeps_update_race. }
    apply (run_to_bind _ _ (at_place qs c));
      [|total_more|silent_auto|intros how; apply run_settle_race].
    apply hoare_at_place. intros.
    apply (keeps_speak_end _ _ _ r (Fails err)).
  - apply (run_to_bind _ _ (at_place qs c));
      [|total_more|silent_auto|intros _; apply run_settle_race].
    apply hoare_at_place. intros. by apply keeps_update_race.
  - rewrite listen_result_resolves.
    repeat (apply (run_to_bind _ _ (at_place qs c));
            [apply hoare_at_place; intros; shape_frame
            |total_more|silent_auto|intros _]).
    apply run_resolve_listen.
  - unfold Speech.listen_error.
    repeat (apply (run_to_bind _ _ (at_place qs c));
            [apply hoare_at_place; intros; shape_frame
            |total_more|silent_auto|intros _]).
    apply run_resolve_listen.
  - unfold Speech.listen_timeout.
    repeat (apply (run_to_bind _ _ (at_place qs c));
            [apply hoare_at_place; intros; shape_frame
            |total_more|silent_auto|intros _]).
    apply run_resolve_listen.
  - apply run_to_get. intros s Hs.
    destruct (Speech.delays s) as [|i rest] eqn:Hd.
    { apply run_to_quiet; [by intros s' ->|apply total_ret|apply silent_ret]. }
    destruct Hs as [Hq Hp]. unfold pending in Hp. rewrite Hd in Hp.
    destruct (placed_delay _ _ _ _ _ _ Hp) as (Hrs & Hls & -> & -> & Hi).
    apply (run_to_bind _ _ idle); [|apply total_modify|silent_auto|intros _].
    { apply hoare_modify. by intros s' ->. }
    unfold Speech.after_delay. replace (i + 1)%nat with (S i) by lia.
    apply run_askQuestion. lia.
  - intros s [Hs Hen].
    pose proof (speech_ice_live listen_setup synth_close peer_close state s
                  Hen) as E.
    cbn [Speech.handle] in E. rewrite E. clear E Hen. revert s Hs.
    apply run_to_quiet; [|total_more|silent_auto].
    apply hoare_at_place. intros. apply keeps_ice.
Qed.

Lemma run_startInterview :
  run_to qs idle 0
    (Speech._startInterview listen_setup synth_close peer_close).
Proof.
  unfold Speech._startInterview.
  apply (run_to_bind _ _ idle);
    [apply hoare_emit|apply total_emit|silent_auto|intros _].
  apply run_to_get'. intros a Ha.
  apply (run_to_bind _ _ idle);
    [apply hoare_emit|apply total_emit|silent_auto|intros _].
  apply run_speak; [done|done|]. intros r.
  by apply (run_resume Speech.KWelcome).
Qed.

Lemma marks_segments (c : nat) (m1 m2 : list Method) :
  m1 = take (length m1) (drop c (script n)) →
  m2 = take (length m2) (drop (c + length m1) (script n)) →
  m1 ++ m2 = take (length (m1 ++ m2)) (drop c (script n)).
Proof.
  intros H1 H2. rewrite length_app, <- take_take_drop, drop_drop.
  by rewrite <- H1, <- H2.
Qed.

Lemma run_events es c s :
  at_place qs c s →
  let out := Speech.run listen_setup synth_close peer_close es s in
  at_place qs (c + length (marks out.2)) out.1
  ∧ marks out.2 = take (length (marks out.2)) (drop c (script n)).
Proof.
  revert c s. induction es as [|e es IH]; intros c s Hs.
  { cbn. rewrite Nat.add_0_r. by rewrite take_0. }
  cbn [Speech.run]. unfold Speech.step.
  destruct (Speech.enabled e s) eqn:Een.
  - destruct (run_handle e c s (conj Hs Een)) as (_ & Hat & Hm).
    destruct (Speech.handle listen_setup synth_close peer_close e s)
      as [[r s1] l1]. cbn [fst snd] in *.
    specialize (IH _ _ Hat).
    destruct (Speech.run listen_setup synth_close peer_close es s1)
      as [s2 l2]. cbn [fst snd] in *. destruct IH as [Hat2 Hm2].
    rewrite marks_app. split; [|by apply marks_segments].
    by rewrite length_app, Nat.add_assoc.
  - specialize (IH _ _ Hs).
    destruct (Speech.run listen_setup synth_close peer_close es s)
      as [s2 l2]. exact IH.
Qed.

End Order.

Section InOrder.
Context (listen_setup : nat → Speech.ListenSetup).
Context (synth_close peer_close : Js.Completion unit).

(** The speech-input controller does one thing at a time and follows its
    script.  From a state in which nothing is pending, whatever the
    environment does, the calls of [_askQuestion] and [_finishInterview]
    made so far are an initial part of: [_askQuestion(0)], ...,
    [_askQuestion(n)], [_finishInterview], with [n] the number of questions;
    so no question is asked twice or skipped and the interview is wrapped up
    at most once, after the last question.  At every moment at most one
    bounded speak is unsettled, or one listen unresolved, or one 600 ms pause
    running, and it is the one the place in the script calls for. *)
Theorem speech_in_order (s : Speech.State) (es : list Speech.Event) :
  pending s = [] →
  let out := Speech.run_from_start listen_setup synth_close peer_close es s in
  ∃ k, marks out.2 = take k (script (length (Speech.questions s)))
       ∧ at_place (Speech.questions s) k out.1
       ∧ (length (pending out.1) ≤ 1)%nat.
Proof.
  intros Hp out. subst out.
  assert (Hidle : shape (Speech.questions s) [] [] [] s).
  { unfold pending in Hp.
    apply app_eq_nil in Hp as [H1 H2]. apply app_eq_nil in H2 as [H2 H3].
    apply fmap_nil_inv in H1, H2, H3. by repeat split. }
  destruct (run_startInterview listen_setup synth_close peer_close _ s Hidle)
    as (_ & Hat & Hm).
  unfold Speech.run_from_start, Speech.start.
  destruct (Speech._startInterview listen_setup synth_close peer_close s)
    as [[r s1] l1]. cbn [fst snd] in *.
  destruct (run_events listen_setup synth_close peer_close _ es _ _ Hat)
    as [Hat2 Hm2].
  destruct (Speech.run listen_setup synth_close peer_close es s1) as [s2 l2].
  cbn [fst snd] in *.
  exists (length (marks (l1 ++ l2))). rewrite marks_app.
  split; [|split].
  - rewrite <- (drop_0 (script _)). by apply marks_segments.
  - rewrite length_app. exact Hat2.
  - destruct Hat2 as [_ Hpl].
    destruct (pending s2) as [|p [|p' ps]]; cbn in *; [lia|lia|done].
Qed.

End InOrder.

Lemma speech_in_order_witness :
  pending speech_start = []
  ∧ ∃ k, marks (Speech.run_from_start always_listening (Js.Normal tt)
                  (Js.Normal tt) (answer_run "yes") speech_start).2
         = take k (script (length (Speech.questions speech_start)))
         ∧ at_place (Speech.questions speech_start) k
             (Speech.run_from_start always_listening (Js.Normal tt)
                (Js.Normal tt) (answer_run "yes") speech_start).1
         ∧ (length (pending
                      (Speech.run_from_start always_listening (Js.Normal tt)
                         (Js.Normal tt) (answer_run "yes") speech_start).1)
            ≤ 1)%nat.
Proof.
  assert (H : pending speech_start = []) by reflexivity.
  split; [exact H|].
  exact (speech_in_order always_listening (Js.Normal tt) (Js.Normal tt)
           speech_start (answer_run "yes") H).
Defined.

(** ** [init] *)

Ltac init_run :=
  repeat (progress (prog_unfold;
                    cbn -[String.append Choice.welcomeText Net.all2
                          Choice.token] in * )).

Ltac speech_init_run :=
  repeat (progress (prog_unfold;
                    cbn -[String.append Speech.welcome Net.all2
                          Speech.token] in * )).

Section InitFacts.
Context (listen_setup : nat → Speech.ListenSetup).
Context (synth_close peer_close : Js.Completion unit).

(** [init] of the multiple-choice controller never throws and always sends
    both token requests.  When either token cannot be had nothing else
    happens: the controller is as before, no peer connection is created, the
    overlay shows the message of the error (or "Unknown error" for an empty
    one) and the retry button.  With both tokens: when [connect] works the
    interview starts, the welcome is the first thing spoken and no retry
    button appears; when [connect] fails the interview does not start, the
    retry button appears, and nothing that [connect] created is closed. *)
Theorem init_outcomes (net : Net.InitEnv) (cenv : Avatar.ConnectEnv)
    (s : Choice.State) :
  let out := Choice.init synth_close peer_close net cenv s in
  out.1.1 = Js.Normal tt
  ∧ fetches out.2 = ["/api/getSpeechToken"; "/api/getIceToken"]
  ∧ match Net.all2 (Choice.token "Speech" (Net.speech_fetch net))
            (Choice.token "ICE" (Net.ice_fetch net)) (Net.ice_first net) with
    | Js.Rejected e =>
        out.1.2 = s
        ∧ entered out.2 = [M_init]
        ∧ peers_created out.2 = 0%nat
        ∧ loading_texts out.2 = ["Connecting to Azure…"; failure_text e]
        ∧ retry_offered out.2 = true
    | Js.Fulfilled (speechToken, iceTokenRaw) =>
        if connects cenv iceTokenRaw then
          entered out.2 = [M_init; M_startInterview]
          ∧ loading_texts out.2
            = ["Connecting to Azure…"; "Initialising avatar…"]
          ∧ retry_offered out.2 = false
          ∧ speak_requests out.2 = [(Choice.next_req s, Choice.welcomeText)]
          ∧ ready (Choice.avatar out.1.2) = true
        else
          entered out.2 = [M_init]
          ∧ (∃ t, loading_texts out.2
                  = ["Connecting to Azure…"; "Initialising avatar…"; t])
          ∧ retry_offered out.2 = true
          ∧ speak_requests out.2 = [] ∧ closes out.2 = []
          ∧ ready (Choice.avatar out.1.2) = false
    end.
Proof.
  intros out. subst out. unfold Choice.init, Choice._setLoadingText.
  destruct (Net.all2 _ _ _) as [[speechToken iceTokenRaw]|e] eqn:Et.
  2: { destruct s. init_run. by repeat split. }
  unfold connects, reaches_start, Choice._startInterview,
    Choice._updateProgress, Choice.bounded_speak, Choice.add_race,
    Choice.on_avatar, Avatar.connect, Avatar.speak, Avatar.on_manager,
    Avatar.invoke, Choice.callbacks, Choice.body, Choice._setDot,
    Choice._setStatusLabel, Choice._setOptionsEnabled, Choice._setHint.
  destruct s as [qs cur ans locked av panel races delays next region].
  destruct cenv as [parse np at_ sc ns sa].
  cbn [Avatar.json_parse Avatar.new_peer_connection Avatar.add_transceivers
       Avatar.speech_config Avatar.new_synthesizer Avatar.start_avatar].
  init_run.
  destruct (parse iceTokenRaw) as [[|urls user pw]|e0]; init_run.
  1, 3: by repeat split; try done; eexists.
  destruct np as [[]|e1], at_ as [[]|e2], sc as [[]|e3], ns as [[]|e4],
    sa as [[]|e5]; init_run; repeat split; try done; by eexists.
Qed.

(** [init] of the speech-input controller behaves in the same way; it
    stores the speech token before it connects, so the token stays stored
    when [connect] fails. *)
Theorem speech_init_outcomes (net : Net.InitEnv) (cenv : Avatar.ConnectEnv)
    (s : Speech.State) :
  let out := Speech.init listen_setup synth_close peer_close net cenv s in
  out.1.1 = Js.Normal tt
  ∧ fetches out.2 = ["/api/getSpeechToken"; "/api/getIceToken"]
  ∧ match Net.all2 (Speech.token "Speech" (Net.speech_fetch net))
            (Speech.token "ICE" (Net.ice_fetch net)) (Net.ice_first net) with
    | Js.Rejected e =>
        out.1.2 = s
        ∧ entered out.2 = [M_init]
        ∧ peers_created out.2 = 0%nat
        ∧ loading_texts out.2 = ["Connecting to Azure…"; failure_text e]
        ∧ retry_offered out.2 = true
    | Js.Fulfilled (speechToken, iceTokenRaw) =>
        Speech.speechToken out.1.2 = speechToken
        ∧ if connects cenv iceTokenRaw then
            entered out.2 = [M_init; M_startInterview; M_speak]
            ∧ loading_texts out.2
              = ["Connecting to Azure…"; "Initialising avatar…"]
            ∧ retry_offered out.2 = false
            ∧ speak_requests out.2 = [(Speech.next_req s, Speech.welcome)]
            ∧ ready (Speech.avatar out.1.2) = true
          else
            entered out.2 = [M_init]
            ∧ (∃ t, loading_texts out.2
                    = ["Connecting to Azure…"; "Initialising avatar…"; t])
            ∧ retry_offered out.2 = true
            ∧ speak_requests out.2 = [] ∧ closes out.2 = []
            ∧ ready (Speech.avatar out.1.2) = false
    end.
Proof.
  intros out. subst out. unfold Speech.init.
  destruct (Net.all2 _ _ _) as [[speechToken iceTokenRaw]|e] eqn:Et.
  2: { destruct s. speech_init_run. by repeat split. }
  unfold connects, reaches_start, Speech._startInterview,
    Speech._updateProgress, Speech._speak, Speech.add_race,
    Speech.on_avatar, Avatar.connect, Avatar.speak, Avatar.on_manager,
    Avatar.invoke, Speech.callbacks, Speech.body, Speech._setDot,
    Speech._setStatusLabel, Speech._showMic, Speech._setHint.
  destruct s as [qs cur av tok region tr races listens delays next nlid].
  destruct cenv as [parse np at_ sc ns sa].
  cbn [Avatar.json_parse Avatar.new_peer_connection Avatar.add_transceivers
       Avatar.speech_config Avatar.new_synthesizer Avatar.start_avatar].
  speech_init_run.
  destruct (parse iceTokenRaw) as [[|urls user pw]|e0]; speech_init_run.
  1, 3: by repeat split; try done; eexists.
  destruct np as [[]|e1], at_ as [[]|e2], sc as [[]|e3], ns as [[]|e4],
    sa as [[]|e5]; speech_init_run; repeat split; try done; by eexists.
Qed.

End InitFacts.
